(** * Quorum account plugin for Hashicorp Vault: a shallow embedding

    The development follows the Go packages of the plugin:

    - [golang]    : the few pieces of the Go runtime and standard library the
                    code relies on (errors, panics, [encoding/hex], [sort.Search],
                    [strings.TrimSpace], [encoding/json]'s pointer check);
    - [common], [accounts] : the go-ethereum types the plugin exchanges
                    (20-byte addresses, wallet URLs, accounts);
    - [internal]  : the RPC adapter ([asAccount], [asProtoAccount], the
                    request handlers, [GetEventStream]) and the plugin [Init];
    - [manager]   : the vault client manager of [internal/manager]
                    (credentials, [getSecretFromVault], renewal loop);
    - [hashicorp] : the vault client manager of
                    [internal/vault/hashicorp/client.go];
    - [cache]     : the account cache ([Add], [delete], [deleteByFile],
                    [Find]).

    Definitions come first, the theorems about them follow. *)

From Stdlib Require Import ZArith NArith List String Ascii Lia Sorted Permutation Bool.
From Stdlib.Strings Require Import Byte.
From stdpp Require Import base gmap strings list sorting pretty.

Local Open Scope string_scope.

(* ===================================================================== *)
(** ** Go runtime and standard library                                    *)
(* ===================================================================== *)

Module golang.

(** gRPC status codes ([google.golang.org/grpc/codes]): the two the
    adapter uses, and those a broken transport reports. *)
Inductive Code : Type :=
| Canceled
| Unknown
| InvalidArgument
| Internal
| Unavailable.

(** A Go [error] value.  [status.Error c msg] builds a [StatusError]; every
    other error (from [fmt.Errorf], [errors.New], a library, the transport)
    is a [PlainError] that carries no gRPC code. *)
Inductive error : Type :=
| PlainError (msg : string)
| StatusError (c : Code) (msg : string).

(** [err.Error()] *)
Definition Error (e : error) : string :=
  match e with
  | PlainError msg => msg
  | StatusError _ msg => msg
  end.

(** [status.Error(c, msg)] *)
Definition status_Error (c : Code) (msg : string) : error := StatusError c msg.

(** The three ways a Go call ends: it returns its value with a nil error, it
    returns a non-nil error (the value is then the zero value), or it
    panics. *)
Inductive outcome (A : Type) : Type :=
| Returns (a : A)
| Fails (e : error)
| Panics (msg : string).

Arguments Returns {A} a.
Arguments Fails {A} e.
Arguments Panics {A} msg.

Definition bind {A B : Type} (c : outcome A) (k : A -> outcome B) : outcome B :=
  match c with
  | Returns a => k a
  | Fails e => Fails e
  | Panics msg => Panics msg
  end.

#[global] Instance outcome_ret : MRet outcome := @Returns.
#[global] Instance outcome_bind : MBind outcome := fun A B k c => bind c k.

(** [if err != nil { return nil, status.Error(code, err.Error()) }] *)
Definition wrap {A : Type} (c : Code) (r : outcome A) : outcome A :=
  match r with
  | Returns a => Returns a
  | Fails e => Fails (status_Error c (Error e))
  | Panics msg => Panics msg
  end.

(** The runtime panic of a field access through a nil pointer. *)
Definition nil_dereference : string :=
  "runtime error: invalid memory address or nil pointer dereference".

(** [p.f] for a pointer [p] that may be nil. *)
Definition deref {A : Type} (p : option A) : outcome A :=
  match p with
  | Some a => Returns a
  | None => Panics nil_dereference
  end.

(** *** [encoding/hex] *)

Definition hextable : string := "0123456789abcdef".

(** [hextable[i]] *)
Definition hexdigit (i : N) : ascii :=
  match String.get (N.to_nat i) hextable with
  | Some c => c
  | None => "0"%char
  end.

(** [hex.EncodeToString]: [dst[j] = hextable[v>>4]; dst[j+1] = hextable[v&0x0f]] *)
Fixpoint hex_EncodeToString (src : list byte) : string :=
  match src with
  | [] => EmptyString
  | v :: rest =>
      String (hexdigit (N.shiftr (Byte.to_N v) 4))
        (String (hexdigit (N.land (Byte.to_N v) 15))
           (hex_EncodeToString rest))
  end.

(** [fromHexChar] *)
Definition fromHexChar (c : ascii) : option N :=
  let n := N_of_ascii c in
  if (48 <=? n)%N && (n <=? 57)%N then Some (n - 48)%N
  else if (97 <=? n)%N && (n <=? 102)%N then Some (n - 97 + 10)%N
  else if (65 <=? n)%N && (n <=? 70)%N then Some (n - 65 + 10)%N
  else None.

Definition byte_of_N (n : N) : byte :=
  match Byte.of_N n with
  | Some b => b
  | None => x00
  end.

(** [hex.DecodeString]: the bytes decoded before the first fault, and the
    fault if there is one (an invalid character is reported before a bad
    length). *)
Fixpoint hex_DecodeString (s : string) : list byte * option error :=
  match s with
  | EmptyString => ([], None)
  | String p EmptyString =>
      match fromHexChar p with
      | None => ([], Some (PlainError "encoding/hex: invalid byte"))
      | Some _ => ([], Some (PlainError "encoding/hex: odd length hex string"))
      end
  | String p (String q rest) =>
      match fromHexChar p, fromHexChar q with
      | Some a, Some b =>
          let (bs, err) := hex_DecodeString rest in
          (byte_of_N (N.lor (N.shiftl a 4) b) :: bs, err)
      | _, _ => ([], Some (PlainError "encoding/hex: invalid byte"))
      end
  end.

(** *** [strings] *)

(** White space as [strings.TrimSpace] sees it on ASCII input:
    ['\t', '\n', '\v', '\f', '\r', ' ']. *)
Definition isSpace (c : ascii) : bool :=
  let n := N_of_ascii c in
  ((9 <=? n)%N && (n <=? 13)%N) || (n =? 32)%N.

Fixpoint trimLeft (s : string) : string :=
  match s with
  | EmptyString => EmptyString
  | String c rest => if isSpace c then trimLeft rest else s
  end.

Fixpoint trimRight (s : string) : string :=
  match s with
  | EmptyString => EmptyString
  | String c rest =>
      match trimRight rest with
      | EmptyString => if isSpace c then EmptyString else String c EmptyString
      | rest' => String c rest'
      end
  end.

Definition strings_TrimSpace (s : string) : string := trimRight (trimLeft s).

(** [strings.ContainsRune(s, r)] for an ASCII rune. *)
Fixpoint strings_ContainsRune (s : string) (r : ascii) : bool :=
  match s with
  | EmptyString => false
  | String c rest => if Ascii.eqb c r then true else strings_ContainsRune rest r
  end.

(** [strings.Compare(a, b) <= 0] and friends use the byte-wise
    lexicographic order, which is [String.compare]. *)
Definition strings_Compare (a b : string) : comparison := String.compare a b.

(** *** [sort.Search]

    [[
      i, j := 0, n
      for i < j {
        h := int(uint(i+j) >> 1)
        if !f(h) { i = h + 1 } else { j = h }
      }
      return i
    ]]
    The loop runs at most [n] times; [fuel] bounds it. *)
Fixpoint search_loop (fuel : nat) (f : nat -> bool) (i j : nat) : nat :=
  match fuel with
  | O => i
  | S fuel' =>
      if (i <? j)%nat then
        let h := Nat.shiftr (i + j) 1 in
        if negb (f h) then search_loop fuel' f (h + 1)%nat j
        else search_loop fuel' f i h
      else i
  end.

Definition sort_Search (n : nat) (f : nat -> bool) : nat :=
  search_loop n f 0%nat n.

(** *** [encoding/json]

    [json.Unmarshal(data, v)] first checks that [data] is well-formed JSON
    ([checkValid]); then [d.unmarshal(v)] refuses every [v] that is not a
    non-nil pointer with an [InvalidUnmarshalError]; only through a pointer
    does it decode into the value.  The second argument is therefore either
    a value passed as it is or the address of a variable. *)
Inductive unmarshal_arg (T : Type) : Type :=
| ByValue (v : T)
| ByPointer (v : T).

Arguments ByValue {T} v.
Arguments ByPointer {T} v.

Definition InvalidUnmarshalError : error :=
  PlainError "json: Unmarshal(non-pointer)".

Section json.

Variable T : Type.
(** [checkValid]: the syntax error of [data], if it has one. *)
Variable checkValid : list byte -> option error.
(** The decoder proper: the value stored through the pointer, or the error. *)
Variable decode : list byte -> T -> outcome T.

(** The result is the value of the caller's variable after the call. *)
Definition json_Unmarshal (data : list byte) (v : unmarshal_arg T) : outcome T :=
  match checkValid data with
  | Some err => Fails err
  | None =>
      match v with
      | ByValue _ => Fails InvalidUnmarshalError
      | ByPointer x => decode data x
      end
  end.

End json.

End golang.

Export golang.

(* ===================================================================== *)
(** ** go-ethereum: [common] and [accounts]                               *)
(* ===================================================================== *)

#[global] Instance byte_eq_dec : EqDecision byte.
Proof.
  intros a b. destruct (decide (Byte.to_N a = Byte.to_N b)) as [H | H].
  - left. apply (f_equal Byte.of_N) in H. rewrite !Byte.of_to_N in H. congruence.
  - right. congruence.
Defined.

#[global] Instance byte_countable : Countable byte :=
  inj_countable Byte.to_N Byte.of_N Byte.of_to_N.

Module common.

Definition AddressLength : nat := 20.

(** [common.Address] is [[20]byte]; a value of the type is a list of bytes
    of length [AddressLength]. *)
Definition Address : Type := list byte.

(** [common.Address{}] *)
Definition zeroAddress : Address := repeat x00 AddressLength.

(** [has0xPrefix] *)
Definition has0xPrefix (str : string) : bool :=
  match str with
  | String c0 (String c1 _) =>
      Ascii.eqb c0 "0"%char && (Ascii.eqb c1 "x"%char || Ascii.eqb c1 "X"%char)
  | _ => false
  end.

(** [s[2:]] *)
Definition drop2 (s : string) : string :=
  match s with
  | String _ (String _ rest) => rest
  | _ => EmptyString
  end.

(** [isHexCharacter] *)
Definition isHexCharacter (c : ascii) : bool :=
  let n := N_of_ascii c in
  ((48 <=? n)%N && (n <=? 57)%N) || ((97 <=? n)%N && (n <=? 102)%N)
  || ((65 <=? n)%N && (n <=? 70)%N).

Fixpoint allHex (str : string) : bool :=
  match str with
  | EmptyString => true
  | String c rest => if isHexCharacter c then allHex rest else false
  end.

(** [isHex] *)
Definition isHex (str : string) : bool :=
  if negb (String.length str mod 2 =? 0)%nat then false else allHex str.

(** [IsHexAddress] *)
Definition IsHexAddress (s : string) : bool :=
  let s := if has0xPrefix s then drop2 s else s in
  (String.length s =? 2 * AddressLength)%nat && isHex s.

(** [Bytes2Hex] *)
Definition Bytes2Hex (d : list byte) : string := hex_EncodeToString d.

(** [Hex2Bytes]: [h, _ := hex.DecodeString(str); return h] *)
Definition Hex2Bytes (str : string) : list byte := fst (hex_DecodeString str).

(** [FromHex] *)
Definition FromHex (s : string) : list byte :=
  let s := if has0xPrefix s then drop2 s else s in
  let s := if (String.length s mod 2 =? 1)%nat then String "0"%char s else s in
  Hex2Bytes s.

(** [BytesToAddress] / [SetBytes]: keep the last 20 bytes, right-aligned. *)
Definition BytesToAddress (b : list byte) : Address :=
  let b := if (AddressLength <? length b)%nat
           then skipn (length b - AddressLength) b else b in
  (repeat x00 (AddressLength - length b) ++ b)%list.

(** [HexToAddress] *)
Definition HexToAddress (s : string) : Address := BytesToAddress (FromHex s).

(** [Address.Bytes] *)
Definition Bytes (a : Address) : list byte := a.

End common.

Module accounts.

(** [accounts.URL] *)
Record URL : Type := mkURL { Scheme : string; Path : string }.

#[global] Instance URL_eq_dec : EqDecision URL.
Proof. solve_decision. Defined.

(** [URL.String] *)
Definition String (u : URL) : string :=
  if decide (Scheme u = "") then Path u
  else Scheme u ++ "://" ++ Path u.

(** [URL.Cmp]: by scheme first, then by path. *)
Definition Cmp (u url : URL) : comparison :=
  if decide (Scheme u = Scheme url) then strings_Compare (Path u) (Path url)
  else strings_Compare (Scheme u) (Scheme url).

(** [accounts.Account]; [URL_] is its field [URL]. *)
Record Account : Type := mkAccount { Address : common.Address; URL_ : URL }.

#[global] Instance Account_eq_dec : EqDecision Account.
Proof. solve_decision. Defined.

(** [accounts.WalletEventType] *)
Inductive WalletEventType : Type :=
| WalletArrived
| WalletOpened
| WalletDropped.

End accounts.

(** The wire messages of the plugin protocol. *)
Module proto.

(** [proto.Account] *)
Record Account : Type := mkAccount { Address : list byte; Url : string }.

Inductive GetEventStreamResponse_WalletEvent : Type :=
| WALLET_ARRIVED
| WALLET_OPENED
| WALLET_DROPPED.

Record GetEventStreamResponse : Type :=
  mkEvent { WalletEvent : GetEventStreamResponse_WalletEvent; WalletUrl : string }.

End proto.

(** [internal/config]: the part of the configuration the adapter handles. *)
Module config.

Record PathParams : Type :=
  mkPathParams { SecretEnginePath : string; SecretPath : string; SecretVersion : Z }.

Record VaultSecretConfig : Type :=
  mkVaultSecretConfig {
    PathParams_ : PathParams;
    AuthID : string;
    InsecureSkipCas : bool;
    CasValue : Z }.

(** [config.VaultAuth] *)
Record VaultAuth : Type := mkVaultAuth { AuthID_ : string; ApprolePath : string }.

End config.

(* ===================================================================== *)
(** ** [internal]: the RPC adapter                                        *)
(* ===================================================================== *)

Module internal.

(** [proto.NewVaultAccount] *)
Record NewVaultAccount : Type :=
  mkNewVaultAccount {
    VaultAddress : string;
    nva_AuthID : string;
    nva_SecretEnginePath : string;
    nva_SecretPath : string;
    nva_InsecureSkipCas : bool;
    nva_CasValue : Z }.

(** [big.Int.SetBytes]: the big-endian unsigned value of the bytes. *)
Definition SetBytes (b : list byte) : Z :=
  fold_left (fun acc x => (acc * 256 + Z.of_N (Byte.to_N x))%Z) b 0%Z.

(** [asProtoAccount] *)
Definition asProtoAccount (acct : accounts.Account) : proto.Account :=
  {| proto.Address := common.Bytes (accounts.Address acct);
     proto.Url := accounts.String (accounts.URL_ acct) |}.

(** [asVaultAccountConfig] *)
Definition asVaultAccountConfig (req : NewVaultAccount) : config.VaultSecretConfig :=
  {| config.PathParams_ :=
       {| config.SecretEnginePath := nva_SecretEnginePath req;
          config.SecretPath := nva_SecretPath req;
          config.SecretVersion := 0 |};
     config.AuthID := nva_AuthID req;
     config.InsecureSkipCas := nva_InsecureSkipCas req;
     config.CasValue := nva_CasValue req |}.

Section adapter.

(** External collaborators: the transaction type and its RLP codec
    ([core/types], [rlp]), ECDSA keys ([crypto]) and the URL parser of
    [internal/utils], whose source is not part of this development. *)
Variable Transaction : Type.
Variable PrivateKey : Type.
Variable rlp_DecodeBytes : list byte -> outcome Transaction.
Variable rlp_EncodeToBytes : Transaction -> outcome (list byte).
Variable crypto_HexToECDSA : string -> outcome PrivateKey.
Variable utils_ToUrl : string -> outcome accounts.URL.

(** [accounts.Wallet]: what each method of the interface returns during
    the call that is being modelled. *)
Record Wallet : Type :=
  mkWallet {
    w_URL : accounts.URL;
    w_Status : outcome string;
    w_Open : string -> outcome unit;
    w_Close : outcome unit;
    w_Accounts : list accounts.Account;
    w_Contains : accounts.Account -> bool;
    w_SignHash : accounts.Account -> list byte -> outcome (list byte);
    w_SignTx : accounts.Account -> Transaction -> Z -> outcome Transaction;
    w_SignHashWithPassphrase :
      accounts.Account -> string -> list byte -> outcome (list byte);
    w_SignTxWithPassphrase :
      accounts.Account -> string -> Transaction -> Z -> outcome Transaction }.

(** [manager.AccountCreator] *)
Record AccountCreator : Type :=
  mkAccountCreator {
    b_NewAccount : config.VaultSecretConfig -> outcome (accounts.Account * string);
    b_ImportECDSA :
      PrivateKey -> config.VaultSecretConfig -> outcome (accounts.Account * string) }.

(** [HashicorpVaultAccountManager] *)
Record HashicorpVaultAccountManager : Type :=
  mkManager {
    am_Wallets : list Wallet;
    am_Wallet : string -> outcome Wallet;
    am_GetAccountCreator : string -> outcome AccountCreator;
    am_TimedUnlock : accounts.Account -> string -> Z -> outcome unit;
    am_Lock : accounts.Account -> outcome unit }.

(** [accounts.WalletEvent] *)
Record WalletEvent : Type :=
  mkWalletEvent { ev_Wallet : Wallet; ev_Kind : accounts.WalletEventType }.

(** [asAccount]; [pAcct] is a pointer and may be nil. *)
Definition asAccount (pAcct : option proto.Account) : outcome accounts.Account :=
  p ← deref pAcct;
  let addr := strings_TrimSpace (common.Bytes2Hex (proto.Address p)) in
  if negb (common.IsHexAddress addr) then
    Fails (PlainError ("invalid hex address: " ++ addr))
  else
    url ← utils_ToUrl (proto.Url p);
    Returns {| accounts.Address := common.HexToAddress addr; accounts.URL_ := url |}.

(** [asProtoWalletEvent] *)
Definition asProtoWalletEvent (event : WalletEvent) : proto.GetEventStreamResponse :=
  let t := match ev_Kind event with
           | accounts.WalletArrived => proto.WALLET_ARRIVED
           | accounts.WalletOpened => proto.WALLET_OPENED
           | accounts.WalletDropped => proto.WALLET_DROPPED
           end in
  {| proto.WalletEvent := t;
     proto.WalletUrl := accounts.String (w_URL (ev_Wallet event)) |}.

Variable am : HashicorpVaultAccountManager.

(** [Status(req *proto.StatusRequest)] *)
Definition Status (WalletUrl : string) : outcome string :=
  w ← wrap Internal (am_Wallet am WalletUrl);
  wltStatus ← wrap Internal (w_Status w);
  Returns wltStatus.

(** [Open(req *proto.OpenRequest)] *)
Definition Open (WalletUrl Passphrase : string) : outcome unit :=
  w ← wrap Internal (am_Wallet am WalletUrl);
  _ ← wrap Internal (w_Open w Passphrase);
  Returns tt.

(** [Close(req *proto.CloseRequest)] *)
Definition Close (WalletUrl : string) : outcome unit :=
  w ← wrap Internal (am_Wallet am WalletUrl);
  _ ← wrap Internal (w_Close w);
  Returns tt.

(** [Accounts(req *proto.AccountsRequest)] *)
Definition Accounts (WalletUrl : string) : outcome (list proto.Account) :=
  w ← wrap Internal (am_Wallet am WalletUrl);
  let accts := w_Accounts w in
  Returns (map asProtoAccount accts).

(** [Contains(req *proto.ContainsRequest)] *)
Definition Contains (WalletUrl : string) (Account : option proto.Account)
  : outcome bool :=
  w ← wrap Internal (am_Wallet am WalletUrl);
  a ← wrap Internal (asAccount Account);
  Returns (w_Contains w a).

(** [SignHash(req *proto.SignHashRequest)] *)
Definition SignHash (WalletUrl : string) (Account : option proto.Account)
    (Hash : list byte) : outcome (list byte) :=
  w ← wrap Internal (am_Wallet am WalletUrl);
  a ← wrap Internal (asAccount Account);
  result ← wrap Internal (w_SignHash w a Hash);
  Returns result.

(** [SignTx(req *proto.SignTxRequest)]: the error of the final
    [rlp.EncodeToBytes] is returned as it is ([return nil, err]). *)
Definition SignTx (WalletUrl : string) (Account : option proto.Account)
    (RlpTx ChainID : list byte) : outcome (list byte) :=
  w ← wrap Internal (am_Wallet am WalletUrl);
  a ← wrap Internal (asAccount Account);
  tx ← wrap Internal (rlp_DecodeBytes RlpTx);
  let chainID := SetBytes ChainID in
  result ← wrap Internal (w_SignTx w a tx chainID);
  rlpTx ← rlp_EncodeToBytes result;
  Returns rlpTx.

(** [SignHashWithPassphrase(req *proto.SignHashWithPassphraseRequest)] *)
Definition SignHashWithPassphrase (WalletUrl : string)
    (Account : option proto.Account) (Passphrase : string) (Hash : list byte)
  : outcome (list byte) :=
  w ← wrap Internal (am_Wallet am WalletUrl);
  a ← wrap Internal (asAccount Account);
  result ← wrap Internal (w_SignHashWithPassphrase w a Passphrase Hash);
  Returns result.

(** [SignTxWithPassphrase(req *proto.SignTxWithPassphraseRequest)]: as in
    [SignTx], the encoder's error is returned as it is. *)
Definition SignTxWithPassphrase (WalletUrl : string)
    (Account : option proto.Account) (Passphrase : string)
    (RlpTx ChainID : list byte) : outcome (list byte) :=
  w ← wrap Internal (am_Wallet am WalletUrl);
  a ← wrap Internal (asAccount Account);
  tx ← wrap Internal (rlp_DecodeBytes RlpTx);
  let chainID := SetBytes ChainID in
  result ← wrap Internal (w_SignTxWithPassphrase w a Passphrase tx chainID);
  rlpTx ← rlp_EncodeToBytes result;
  Returns rlpTx.

(** [TimedUnlock(req *proto.TimedUnlockRequest)] *)
Definition TimedUnlock (Account : option proto.Account) (Password : string)
    (Duration : Z) : outcome unit :=
  a ← wrap Internal (asAccount Account);
  _ ← wrap Internal (am_TimedUnlock am a Password Duration);
  Returns tt.

(** [Lock(req *proto.LockRequest)] *)
Definition Lock (Account : option proto.Account) : outcome unit :=
  a ← wrap Internal (asAccount Account);
  _ ← wrap Internal (am_Lock am a);
  Returns tt.

(** [NewAccount(req *proto.NewAccountRequest)]; [req.NewVaultAccount] is a
    pointer. *)
Definition NewAccount (NewVaultAccount_ : option NewVaultAccount)
  : outcome (proto.Account * string) :=
  nva ← deref NewVaultAccount_;
  b ← wrap Internal (am_GetAccountCreator am (VaultAddress nva));
  r ← wrap Internal (b_NewAccount b (asVaultAccountConfig nva));
  let '(acct, secretUri) := r in
  Returns (asProtoAccount acct, secretUri).

(** [ImportRawKey(req *proto.ImportRawKeyRequest)] *)
Definition ImportRawKey (RawKey : string) (NewVaultAccount_ : option NewVaultAccount)
  : outcome (proto.Account * string) :=
  nva ← deref NewVaultAccount_;
  b ← wrap Internal (am_GetAccountCreator am (VaultAddress nva));
  key ← wrap Internal (crypto_HexToECDSA RawKey);
  r ← wrap Internal (b_ImportECDSA b key (asVaultAccountConfig nva));
  let '(acct, secretUri) := r in
  Returns (asProtoAccount acct, secretUri).

(** *** [GetEventStream]

    The server stream is the list of responses sent so far; [Send_fault]
    says, from what was sent and what is being sent, whether the transport
    refuses the message. *)
Variable Send_fault :
  list proto.GetEventStreamResponse -> proto.GetEventStreamResponse -> option error.

(** [stream.Send] *)
Definition Send (stream : list proto.GetEventStreamResponse)
    (m : proto.GetEventStreamResponse)
  : list proto.GetEventStreamResponse * option error :=
  match Send_fault stream m with
  | Some e => (stream, Some e)
  | None => ((stream ++ [m])%list, None)
  end.

(** How a run of the handler stands: it has returned [err], or it is
    waiting in [e := <-am.events] for the next event. *)
Inductive stream_state : Type :=
| Returned (err : error)
| Receiving.

(** [for _, w := range wallets { ... stream.Send(pluginEvent) ... }] *)
Fixpoint send_snapshot (wallets : list Wallet)
    (stream : list proto.GetEventStreamResponse)
  : list proto.GetEventStreamResponse * option error :=
  match wallets with
  | [] => (stream, None)
  | w :: rest =>
      let pluginEvent := {| proto.WalletEvent := proto.WALLET_ARRIVED;
                            proto.WalletUrl := accounts.String (w_URL w) |} in
      match Send stream pluginEvent with
      | (stream', Some err) => (stream', Some err)
      | (stream', None) => send_snapshot rest stream'
      end
  end.

(** [for { e := <-am.events; ... stream.Send(pluginEvent) ... }] over the
    events the channel delivers, in order. *)
Fixpoint forward_events (events : list WalletEvent)
    (stream : list proto.GetEventStreamResponse)
  : list proto.GetEventStreamResponse * stream_state :=
  match events with
  | [] => (stream, Receiving)
  | e :: rest =>
      let pluginEvent := asProtoWalletEvent e in
      match Send stream pluginEvent with
      | (stream', Some err) => (stream', Returned err)
      | (stream', None) => forward_events rest stream'
      end
  end.

(** [GetEventStream]: [events] are the events read from [am.events] once
    the subscription is in place.  The subscription and its deferred
    release change nothing in what is sent and are left out. *)
Definition GetEventStream (events : list WalletEvent)
  : list proto.GetEventStreamResponse * stream_state :=
  let wallets := am_Wallets am in
  match send_snapshot wallets [] with
  | (stream, Some err) => (stream, Returned err)
  | (stream, None) => forward_events events stream
  end.

(** The synthetic event for a wallet that is already present, and the
    events of a whole snapshot. *)
Definition arrived (w : Wallet) : proto.GetEventStreamResponse :=
  {| proto.WalletEvent := proto.WALLET_ARRIVED;
     proto.WalletUrl := accounts.String (w_URL w) |}.

Definition snapshot_events (wallets : list Wallet) : list proto.GetEventStreamResponse :=
  map arrived wallets.

End adapter.

Arguments w_URL {Transaction} _.
Arguments ev_Wallet {Transaction} _.
Arguments ev_Kind {Transaction} _.
Arguments am_Wallets {Transaction PrivateKey} _.
Arguments am_Wallet {Transaction PrivateKey} _ _.
Arguments asProtoWalletEvent {Transaction} event.
Arguments arrived {Transaction} w.
Arguments snapshot_events {Transaction} wallets.
Arguments send_snapshot {Transaction} Send_fault wallets stream.
Arguments forward_events {Transaction} Send_fault events stream.
Arguments GetEventStream {Transaction PrivateKey} am Send_fault events.
Arguments Status {Transaction PrivateKey} am WalletUrl.
Arguments Open {Transaction PrivateKey} am WalletUrl Passphrase.
Arguments Close {Transaction PrivateKey} am WalletUrl.
Arguments Accounts {Transaction PrivateKey} am WalletUrl.
Arguments Contains {Transaction PrivateKey} utils_ToUrl am WalletUrl Account.
Arguments SignHash {Transaction PrivateKey} utils_ToUrl am WalletUrl Account Hash.
Arguments SignTx {Transaction PrivateKey} rlp_DecodeBytes rlp_EncodeToBytes
  utils_ToUrl am WalletUrl Account RlpTx ChainID.
Arguments SignHashWithPassphrase {Transaction PrivateKey} utils_ToUrl am WalletUrl
  Account Passphrase Hash.
Arguments SignTxWithPassphrase {Transaction PrivateKey} rlp_DecodeBytes
  rlp_EncodeToBytes utils_ToUrl am WalletUrl Account Passphrase RlpTx ChainID.
Arguments TimedUnlock {Transaction PrivateKey} utils_ToUrl am Account Password Duration.
Arguments Lock {Transaction PrivateKey} utils_ToUrl am Account.
Arguments NewAccount {Transaction PrivateKey} am NewVaultAccount_.
Arguments ImportRawKey {Transaction PrivateKey} crypto_HexToECDSA am RawKey
  NewVaultAccount_.
Arguments w_SignTx {Transaction} _ _ _ _.
Arguments w_SignTxWithPassphrase {Transaction} _ _ _ _ _.

(** *** The plugin's [Init] *)

Section init.

(** [config.VaultClients], its JSON decoder, its [Validate] method and
    [hashicorp.NewAccountManager] are declared outside this development. *)
Variable VaultClients : Type.
Variable AccountManagerServer : Type.
Variable zeroVaultClients : VaultClients.
Variable checkValid : list byte -> option error.
Variable decode : list byte -> VaultClients -> outcome VaultClients.
Variable Validate : VaultClients -> outcome unit.
Variable NewAccountManager : VaultClients -> outcome AccountManagerServer.
(** [fmt.Sprintf(format)] with no further argument, as [status.Errorf] calls it. *)
Variable fmt_Sprintf : string -> string.

(** [status.Errorf(c, format)] *)
Definition status_Errorf (c : Code) (format : string) : error :=
  StatusError c (fmt_Sprintf format).

(** [if err != nil { return nil, status.Errorf(code, err.Error()) }] *)
Definition wrapf {A : Type} (c : Code) (r : outcome A) : outcome A :=
  match r with
  | Returns a => Returns a
  | Fails e => Fails (status_Errorf c (Error e))
  | Panics msg => Panics msg
  end.

(** [Init]: [var conf config.VaultClients] is handed to [json.Unmarshal]
    as a value ([json.Unmarshal(req.GetRawConfiguration(), conf)]). *)
Definition Init (RawConfiguration : list byte) : outcome unit :=
  let conf := zeroVaultClients in
  conf ← wrapf InvalidArgument
           (json_Unmarshal VaultClients checkValid decode RawConfiguration (ByValue conf));
  _ ← wrapf InvalidArgument (Validate conf);
  am ← wrapf InvalidArgument (NewAccountManager conf);
  Returns tt.

End init.

End internal.

(* ===================================================================== *)
(** ** The Vault client library ([github.com/hashicorp/vault/api])        *)
(* ===================================================================== *)

Module api.

(** A decoded JSON value ([interface{}]): the dynamically typed content of
    a response. *)
#[warnings="-register-all"]
Inductive value : Type :=
| VNil
| VBool (b : bool)
| VNumber (n : string)
| VString (s : string)
| VArray (l : list value)
| VObject (m : gmap string value).

(** [api.SecretAuth] *)
Record SecretAuth : Type := mkSecretAuth { ClientToken : string; Renewable : bool }.

(** [api.Secret]; a nil [Data] map reads like the empty map. *)
Record Secret : Type := mkSecret { Auth : option SecretAuth; Data : gmap string value }.

(** [Secret.TokenID], which accepts a nil receiver. *)
Definition TokenID (s : option Secret) : string * option error :=
  match s with
  | None => ("", None)
  | Some s =>
      let fromAuth :=
        match Auth s with
        | Some a =>
            if (0 <? String.length (ClientToken a))%nat then Some (ClientToken a)
            else None
        | None => None
        end in
      match fromAuth with
      | Some t => (t, None)
      | None =>
          match Data s !! "id" with
          | None | Some VNil => ("", None)
          | Some (VString id) => (id, None)
          | Some _ => ("", Some (PlainError "token found but in the wrong format"))
          end
      end
  end.

(** [api.Renewer]: the lease it renews. *)
Record Renewer : Type := mkRenewer { secret : Secret }.

(** [Client.NewRenewer(&api.RenewerInput{Secret: resp})] *)
Definition NewRenewer (resp : option Secret) : option Renewer * option error :=
  match resp with
  | None => (None, Some (PlainError "missing secret"))
  | Some s => (Some {| secret := s |}, None)
  end.

End api.

(* ===================================================================== *)
(** ** [internal/manager]: the vault client manager                       *)
(* ===================================================================== *)

(** What the two client managers share word for word: the names of the
    environment variables, the credentials and their errors, the login
    request, the path and query of a read. *)
Module credentials.

Definition DefaultRoleIDEnv : string := "QRM_HASHIVLT_ROLE_ID".
Definition DefaultSecretIDEnv : string := "QRM_HASHIVLT_SECRET_ID".
Definition DefaultTokenEnv : string := "QRM_HASHIVLT_TOKEN".

(** The process environment; [os.Getenv] gives the empty string for a
    variable that is not set. *)
Definition os_Getenv (env : gmap string string) (key : string) : string :=
  default "" (env !! key).

Record authCredentials : Type :=
  mkCreds { roleID : string; secretID : string; token : string }.

(** [authCredentials{}] *)
Definition zeroCredentials : authCredentials :=
  {| roleID := ""; secretID := ""; token := "" |}.

(** [usingApproleAuth] *)
Definition usingApproleAuth (a : authCredentials) : bool :=
  negb (String.eqb (roleID a) "") && negb (String.eqb (secretID a) "").

(** The two error types of [getAuthCredentials]. *)
Inductive authError : Type :=
| noHashicorpEnvSetErr (roleIdEnv secretIdEnv tokenEnv : string)
| invalidApproleAuthErr (roleIdEnv secretIdEnv : string).

(** Their [Error()] methods. *)
Definition authError_Error (e : authError) : string :=
  match e with
  | noHashicorpEnvSetErr r s t =>
      "environment variables are necessary to authenticate with Hashicorp Vault: set "
      ++ r ++ " and " ++ s ++ " if using Approle authentication, else set " ++ t
  | invalidApproleAuthErr r s =>
      "both " ++ r ++ " and " ++ s
      ++ " environment variables must be set if using Approle authentication"
  end.

(** An [authError] seen through the [error] interface. *)
Definition as_error (e : authError) : error := PlainError (authError_Error e).

(** [applyPrefix] *)
Definition applyPrefix (pre val : string) : string :=
  if String.eqb pre "" then val else pre ++ "_" ++ val.

(** [getAuthCredentials]: the credentials (zero on error) and the error. *)
Definition getAuthCredentials (env : gmap string string) (authID : string)
  : authCredentials * option authError :=
  let roleIDEnv := applyPrefix authID DefaultRoleIDEnv in
  let secretIDEnv := applyPrefix authID DefaultSecretIDEnv in
  let tokenEnv := applyPrefix authID DefaultTokenEnv in
  let roleID := os_Getenv env roleIDEnv in
  let secretID := os_Getenv env secretIDEnv in
  let token := os_Getenv env tokenEnv in
  if String.eqb roleID "" && String.eqb secretID "" && String.eqb token "" then
    (zeroCredentials, Some (noHashicorpEnvSetErr roleIDEnv secretIDEnv tokenEnv))
  else if (String.eqb roleID "" && negb (String.eqb secretID ""))
          || (negb (String.eqb roleID "") && String.eqb secretID "") then
    (zeroCredentials, Some (invalidApproleAuthErr roleIDEnv secretIDEnv))
  else
    ({| roleID := roleID; secretID := secretID; token := token |}, None).

(** The login request of [approleLogin]: the path written to and the body. *)
Record loginRequest : Type :=
  mkLogin { login_path : string; role_id : string; secret_id : string }.

(** [approleLogin] up to the call of [c.Logical().Write]. *)
Definition approleLogin_request (creds : authCredentials) (approlePath : string)
  : loginRequest :=
  let approle := if String.eqb approlePath "" then "approle" else approlePath in
  {| login_path := "auth/" ++ approle ++ "/login";
     role_id := roleID creds; secret_id := secretID creds |}.

(** One moment of the outside world, as a (re-)authentication attempt
    meets it: the process environment, and what the Vault answers to a
    login request. *)
Record world : Type :=
  mkWorld {
    environ : gmap string string;
    Logical_Write : loginRequest -> option api.Secret * option error }.

(** [approleLogin] *)
Definition approleLogin (w : world) (creds : authCredentials) (approlePath : string)
  : option api.Secret * option error :=
  Logical_Write w (approleLogin_request creds approlePath).

(** [authenticatedClient]: the embedded client's token, the renewer and
    the auth config. *)
Record authenticatedClient : Type :=
  mkClient {
    client_token : string;
    renewer : option api.Renewer;
    authConfig : config.VaultAuth }.

(** [ac.Client.SetToken(t)] *)
Definition SetToken (ac : authenticatedClient) (t : string) : authenticatedClient :=
  {| client_token := t; renewer := renewer ac; authConfig := authConfig ac |}.

(** What the renewal goroutine does that can be observed. *)
Inductive effect : Type :=
| GoRenew (r : option api.Renewer)          (* [go ac.renewer.Renew()] *)
| LogDebug (msg : string)
| LogError (msg : string) (err : error)
| Sleep (d : Z).                            (* [time.Sleep(d)] *)

(** What the renewer's channels deliver to the [select]. *)
Inductive renewal : Type :=
| DoneCh (err : option error)
| RenewCh.

(** Where the goroutine stands when the inputs it was given are used up. *)
Inductive standing : Type :=
| Selecting           (* waiting in the [select] *)
| Reauthenticating.   (* inside the retry loop *)

(** [fmt.Sprintf("%s/data/%s", SecretEnginePath, SecretPath)] *)
Definition dataPath (p : config.PathParams) : string :=
  config.SecretEnginePath p ++ "/data/" ++ config.SecretPath p.

(** [versionData["version"] = []string{strconv.FormatInt(SecretVersion, 10)}] *)
Definition versionQuery (p : config.PathParams) : gmap string (list string) :=
  <["version" := [pretty (config.SecretVersion p)]]> ∅.

(** [time.Millisecond], in nanoseconds. *)
Definition Millisecond : Z := 1000000.

End credentials.

Module manager.

Export credentials.

Definition reauthRetryInterval : Z := 5000 * Millisecond.

(** [vaultClientManager] *)
Record vaultClientManager : Type :=
  mkVaultClientManager {
    vaultAddr : string;
    acctConfigDir : string;
    clients : gmap string authenticatedClient }.

Section reads.

(** [client.Logical().ReadWithData(path, data)]: the Vault's answer. *)
Variable Logical_ReadWithData :
  authenticatedClient -> string -> gmap string (list string)
  -> option api.Secret * option error.

(** [getSecretFromVault] *)
Definition getSecretFromVault (m : vaultClientManager)
    (vaultAccountConfig : config.VaultSecretConfig) : outcome string :=
  match clients m !! config.AuthID vaultAccountConfig with
  | None =>
      Fails (PlainError ("no client configured for Vault " ++ vaultAddr m
                         ++ " and authID " ++ config.AuthID vaultAccountConfig))
  | Some client =>
      let path := dataPath (config.PathParams_ vaultAccountConfig) in
      let versionData := versionQuery (config.PathParams_ vaultAccountConfig) in
      let '(resp, err) := Logical_ReadWithData client path versionData in
      match err, resp with
      | Some err, _ =>
          Fails (PlainError ("unable to get secret from Hashicorp Vault: " ++ Error err))
      | None, None => Fails (PlainError "no data for secret in Hashicorp Vault")
      | None, Some resp =>
          match api.Data resp !! "data" with
          | Some (api.VObject respData) =>
              if negb (size respData =? 1)%nat then
                Fails (PlainError
                  "only one key/value pair is allowed in each Hashicorp Vault secret")
              else
                (* get secret regardless of key in map *)
                let s := fold_left (fun _ d => snd d) (map_to_list respData) api.VNil in
                match s with
                | api.VString secret => Returns secret
                | _ => Fails (PlainError
                         "Hashicorp Vault response data is not in string format")
                end
          | _ => Fails (PlainError "Hashicorp Vault response does not contain data")
          end
      end
  end.

End reads.

(** [reauthenticate]: the client afterwards and the error. *)
Definition reauthenticate (w : world) (ac : authenticatedClient)
  : authenticatedClient * option error :=
  match getAuthCredentials (environ w) (config.AuthID_ (authConfig ac)) with
  | (_, Some err) => (ac, Some (as_error err))
  | (creds, None) =>
      match approleLogin w creds (config.ApprolePath (authConfig ac)) with
      | (_, Some err) => (ac, Some err)
      | (resp, None) =>
          match api.TokenID resp with
          | (_, Some err) => (ac, Some err)
          | (t, None) =>
              let ac := SetToken ac t in
              match api.NewRenewer resp with
              | (_, Some err) => (ac, Some err)
              | (r, None) =>
                  ({| client_token := client_token ac; renewer := r;
                      authConfig := authConfig ac |}, None)
              end
          end
      end
  end.

(** The retry loop of [renew]:
    [[
      for i := 1; ; i++ {
        err := ac.reauthenticate()
        if err == nil { log...; break }
        log...
        time.Sleep(reauthRetryInterval)
      }
    ]]
    Attempt [i] meets the head of [worlds].  The result is the client, the
    effects so far and, once an attempt succeeded, the worlds still ahead;
    [None] says the loop is still retrying when [worlds] is used up. *)
Fixpoint reauth_loop (i : nat) (worlds : list world) (ac : authenticatedClient)
    (trace : list effect)
  : authenticatedClient * list effect * option (list world) :=
  match worlds with
  | [] => (ac, trace, None)
  | w :: rest =>
      match reauthenticate w ac with
      | (ac', None) =>
          (ac', (trace ++ [LogDebug "successfully re-authenticated with Vault"])%list,
           Some rest)
      | (ac', Some err) =>
          reauth_loop (S i) rest ac'
            (trace ++ [LogError ("unable to reauthenticate with Vault (attempt "
                                 ++ pretty i ++ ")") err;
                       Sleep reauthRetryInterval])%list
      end
  end.

(** The [for { select { ... } }] of [renew], over what the renewer's
    channels deliver. *)
Fixpoint renew_loop (events : list renewal) (worlds : list world)
    (ac : authenticatedClient) (trace : list effect)
  : authenticatedClient * list effect * standing :=
  match events with
  | [] => (ac, trace, Selecting)
  | DoneCh err :: events' =>
      let trace :=
        match err with
        | None =>
            (trace ++ [LogDebug
               "renewal of Vault auth token failed, attempting re-authentication"])%list
        | Some e =>
            (trace ++ [LogDebug
               ("renewal of Vault auth token failed, attempting re-authentication: err = "
                ++ Error e)])%list
        end in
      match reauth_loop 1 worlds ac trace with
      | (ac', trace', None) => (ac', trace', Reauthenticating)
      | (ac', trace', Some worlds') =>
          renew_loop events' worlds' ac' (trace' ++ [GoRenew (renewer ac')])%list
      end
  | RenewCh :: events' =>
      renew_loop events' worlds ac
        (trace ++ [LogDebug "successfully renewed Vault auth token"])%list
  end.

(** [renew] *)
Definition renew (ac : authenticatedClient) (events : list renewal)
    (worlds : list world) : authenticatedClient * list effect * standing :=
  renew_loop events worlds ac [GoRenew (renewer ac)].

End manager.

(* ===================================================================== *)
(** ** [internal/vault/hashicorp]: the client manager of [client.go]      *)
(* ===================================================================== *)

Module hashicorp.

Export credentials.

(** The fields of [AccountConfig] that [client.go] reads. *)
Record HashicorpVaultConfig : Type :=
  mkHashicorpVault { PathParams_ : config.PathParams; AuthID : string }.

Record AccountConfig : Type :=
  mkAccountConfig { HashicorpVault : HashicorpVaultConfig; Id : string }.

(** [Key] *)
Record Key : Type :=
  mkKey { key_Id : string; key_Address : common.Address; key_PrivateKey : Z }.

(** [vaultClientManager] *)
Record vaultClientManager : Type :=
  mkVaultClientManager {
    vaultAddr : string;
    clients : gmap string authenticatedClient }.

Section reads.

Variable Logical_ReadWithData :
  authenticatedClient -> string -> gmap string (list string)
  -> option api.Secret * option error.

(** [getSecretFromVault] *)
Definition getSecretFromVault (m : vaultClientManager) (config : AccountConfig)
  : outcome string :=
  let path := dataPath (PathParams_ (HashicorpVault config)) in
  let versionData := versionQuery (PathParams_ (HashicorpVault config)) in
  match clients m !! AuthID (HashicorpVault config) with
  | None =>
      Fails (PlainError ("no client configured for Vault " ++ vaultAddr m
                         ++ " and authID " ++ AuthID (HashicorpVault config)))
  | Some client =>
      let '(resp, err) := Logical_ReadWithData client path versionData in
      match err, resp with
      | Some err, _ =>
          Fails (PlainError ("unable to get secret from Hashicorp Vault: " ++ Error err))
      | None, None => Fails (PlainError "no data for secret in Hashicorp Vault")
      | None, Some resp =>
          match api.Data resp !! "data" with
          | Some (api.VObject respData) =>
              if negb (size respData =? 1)%nat then
                Fails (PlainError
                  "only one key/value pair is allowed in each Hashicorp Vault secret")
              else
                let s := fold_left (fun _ d => snd d) (map_to_list respData) api.VNil in
                match s with
                | api.VString secret => Returns secret
                | _ => Fails (PlainError
                         "Hashicorp Vault response data is not in string format")
                end
          | _ => Fails (PlainError "Hashicorp Vault response does not contain data")
          end
      end
  end.

End reads.

(** [StoreKey]: [panic("implement me")] *)
Definition StoreKey (m : vaultClientManager) (filename : string) (k : option Key)
    (auth : string) : outcome unit :=
  Panics "implement me".

(** [JoinPath]: [panic("implement me")] *)
Definition JoinPath (m : vaultClientManager) (filename : string) : outcome string :=
  Panics "implement me".

(** [if err != nil { log.Println("[ERROR] Vault re-authentication failed: ", err) }] *)
Definition log_failure (trace : list effect) (err : option error) : list effect :=
  match err with
  | Some e => (trace ++ [LogError "Vault re-authentication failed" e])%list
  | None => trace
  end.

(** The body of the [DoneCh] case of [renew], after its first log line:
    every error is logged and the code goes on with what it has. *)
Definition reauth_once (w : world) (ac : authenticatedClient) (trace : list effect)
  : authenticatedClient * list effect :=
  let '(creds, err) := getAuthCredentials (environ w) (config.AuthID_ (authConfig ac)) in
  let trace := log_failure trace (as_error <$> err) in
  let '(resp, err) := approleLogin w creds (config.ApprolePath (authConfig ac)) in
  let trace := log_failure trace err in
  let '(t, err) := api.TokenID resp in
  let trace := log_failure trace err in
  let ac := SetToken ac t in
  (ac, (trace ++ [GoRenew (renewer ac)])%list).

(** The [for { select { ... } }] of [renew]. *)
Fixpoint renew_loop (events : list renewal) (worlds : list world)
    (ac : authenticatedClient) (trace : list effect)
  : authenticatedClient * list effect * standing :=
  match events with
  | [] => (ac, trace, Selecting)
  | DoneCh err :: events' =>
      let trace :=
        match err with
        | Some e =>
            (trace ++ [LogDebug
               ("renewal of Vault auth token failed, attempting re-authentication: "
                ++ Error e)])%list
        | None => trace
        end in
      match worlds with
      | [] => (ac, trace, Reauthenticating)
      | w :: worlds' =>
          let '(ac', trace') := reauth_once w ac trace in
          renew_loop events' worlds' ac' trace'
      end
  | RenewCh :: events' =>
      renew_loop events' worlds ac
        (trace ++ [LogDebug "Successfully renewed Vault auth token"])%list
  end.

(** [renew] *)
Definition renew (ac : authenticatedClient) (events : list renewal)
    (worlds : list world) : authenticatedClient * list effect * standing :=
  renew_loop events worlds ac [GoRenew (renewer ac)].

End hashicorp.

(* ===================================================================== *)
(** ** [cache]: the account cache                                         *)
(* ===================================================================== *)

Module cache.

Import accounts.

(** The errors of [Find]: [keystore.ErrNoMatch] and [AmbiguousAddrError]. *)
Inductive findError : Type :=
| ErrNoMatch
| AmbiguousAddrError (Addr : common.Address) (Matches : list Account).

(** The fields of [AccountCache] that the index operations use. *)
Record AccountCache : Type :=
  mkCache {
    keydir : string;
    All : list Account;
    ByAddr : gmap common.Address (list Account) }.

(** [NewAccountCache]: no account, no bucket. *)
Definition NewAccountCache (keydir : string) : AccountCache :=
  {| keydir := keydir; All := []; ByAddr := ∅ |}.

(** [ac.ByAddr[addr]]: a missing key reads as the nil slice. *)
Definition bucket (m : gmap common.Address (list Account)) (addr : common.Address)
  : list Account :=
  default [] (m !! addr).

(** [c >= 0] for the result of a comparison. *)
Definition ge0 (c : comparison) : bool :=
  match c with
  | Lt => false
  | _ => true
  end.

(** [Add] *)
Definition Add (ac : AccountCache) (newAccount : Account) : AccountCache :=
  let i := sort_Search (length (All ac))
             (fun i => match All ac !! i with
                       | Some a => ge0 (Cmp (URL_ a) (URL_ newAccount))
                       | None => false
                       end) in
  if (i <? length (All ac))%nat && bool_decide (All ac !! i = Some newAccount) then ac
  else
    (* newAccount is not in the cache. *)
    {| keydir := keydir ac;
       All := (take i (All ac) ++ newAccount :: drop i (All ac))%list;
       ByAddr := <[Address newAccount :=
                     (bucket (ByAddr ac) (Address newAccount) ++ [newAccount])%list]>
                   (ByAddr ac) |}.

(** [removeAccount]: drop the first element equal to [elem]. *)
Fixpoint removeAccount (slice : list Account) (elem : Account) : list Account :=
  match slice with
  | [] => []
  | x :: rest => if decide (x = elem) then rest else x :: removeAccount rest elem
  end.

(** The update of [ByAddr] shared by [delete] and [deleteByFile]. *)
Definition unindex (m : gmap common.Address (list Account)) (removed : Account)
  : gmap common.Address (list Account) :=
  let ba := removeAccount (bucket m (Address removed)) removed in
  if (length ba =? 0)%nat then base.delete (Address removed) m
  else <[Address removed := ba]> m.

(** [delete] *)
Definition delete (ac : AccountCache) (removed : Account) : AccountCache :=
  {| keydir := keydir ac;
     All := removeAccount (All ac) removed;
     ByAddr := unindex (ByAddr ac) removed |}.

(** [deleteByFile] *)
Definition deleteByFile (ac : AccountCache) (path : string) : AccountCache :=
  let i := sort_Search (length (All ac))
             (fun i => match All ac !! i with
                       | Some a => ge0 (strings_Compare (Path (URL_ a)) path)
                       | None => false
                       end) in
  match All ac !! i with
  | Some removed =>
      if decide (Path (URL_ removed) = path) then
        {| keydir := keydir ac;
           All := (take i (All ac) ++ drop (S i) (All ac))%list;
           ByAddr := unindex (ByAddr ac) removed |}
      else ac
  | None => ac
  end.

Section find.

(** [filepath.Separator], [filepath.Join] and the sort of
    [sort.Sort(vault.AccountsByURL(...))].  [AccountsByURL] is declared in
    [internal/vault]; its [Less] is [s[i].URL.Cmp(s[j].URL) < 0], as in the
    declaration that [cache] keeps in a comment. *)
Variable Separator : ascii.
Variable filepath_Join : string -> string -> string.
Variable sort_Sort : list Account -> list Account.

(** The [switch len(matches)] that ends [Find]. *)
Definition by_count (a : Account) (matches : list Account) : Account + findError :=
  match matches with
  | [m] => inl m
  | [] => inr ErrNoMatch
  | _ => inr (AmbiguousAddrError (Address a) (sort_Sort matches))
  end.

(** [Find] *)
Definition Find (ac : AccountCache) (a : Account) : Account + findError :=
  (* Limit search to address candidates if possible. *)
  let matches :=
    if decide (Address a <> common.zeroAddress) then bucket (ByAddr ac) (Address a)
    else All ac in
  if decide (Path (URL_ a) <> "") then
    (* If only the basename is specified, complete the path. *)
    let url :=
      if negb (strings_ContainsRune (Path (URL_ a)) Separator)
      then {| Scheme := Scheme (URL_ a);
              Path := filepath_Join (keydir ac) (Path (URL_ a)) |}
      else URL_ a in
    let a := {| Address := Address a; URL_ := url |} in
    match List.find (fun m => bool_decide (URL_ m = URL_ a)) matches with
    | Some m => inl m
    | None =>
        if decide (Address a = common.zeroAddress) then inr ErrNoMatch
        else by_count a matches
    end
  else by_count a matches.

End find.

(** The three mutations of the index. *)
Inductive op : Type :=
| OpAdd (a : Account)
| OpDelete (a : Account)
| OpDeleteByFile (path : string).

Definition apply (ac : AccountCache) (o : op) : AccountCache :=
  match o with
  | OpAdd a => Add ac a
  | OpDelete a => delete ac a
  | OpDeleteByFile path => deleteByFile ac path
  end.

Definition run (ops : list op) (ac : AccountCache) : AccountCache :=
  fold_left apply ops ac.

(** [x] comes no later than [y] in the order of [URL.Cmp]. *)
Definition url_le (x y : Account) : Prop := Cmp (URL_ x) (URL_ y) <> Gt.

End cache.

(* ===================================================================== *)
(** ** [cache]: reloading the index, and the readers                      *)
(* ===================================================================== *)

Module cache_reload.

Import accounts cache.

(** [AmbiguousAddrError.Error]:
    [[
      files := ""
      for i, a := range err.Matches {
        files += a.URL.Path
        if i < len(err.Matches)-1 { files += ", " }
      }
      return fmt.Sprintf("multiple keys match address (%s)", files)
    ]] *)
Fixpoint join_files (n i : nat) (matches : list Account) (files : string) : string :=
  match matches with
  | [] => files
  | a :: rest =>
      let files := files ++ Path (URL_ a) in
      let files := if (i <? n - 1)%nat then files ++ ", " else files in
      join_files n (S i) rest files
  end.

Definition AmbiguousAddrError_Error (Matches : list Account) : string :=
  "multiple keys match address (" ++ join_files (length Matches) 0 Matches "" ++ ")".

(** What [fileC.scan] reports: the paths created, deleted and updated
    since the last scan, each set in the order [ToSlice] gives it. *)
Record fileDiff : Type :=
  mkDiff { creates : list string; deletes : list string; updates : list string }.

(** The cache with what its reload touches besides the index: whether the
    watcher runs, whether the throttle timer exists, whether a pulse waits
    in the [notify] channel (of capacity one), and the calls made to the
    unlocker, each with its account and timeout. *)
Record cacheState : Type :=
  mkState {
    index : AccountCache;
    watcher_running : bool;
    throttle : bool;
    notify : bool;
    unlocks : list (Account * Z) }.

Definition with_index (st : cacheState) (ac : AccountCache) : cacheState :=
  {| index := ac; watcher_running := watcher_running st; throttle := throttle st;
     notify := notify st; unlocks := unlocks st |}.

(** What a scan works with, declared outside [cache]: the file system, the
    unmarshaller of account configs with its [Validate] and [AsAccount],
    and the unlocker; [toUnlock] is the field of the cache. *)
Record collaborators : Type :=
  mkCollaborators {
    File : Type;
    Config : Type;
    os_Open : string -> option File;
    Unmarshal : File -> option Config;
    Validate : Config -> option error;
    AsAccount : Config -> string -> option Account;
    TimedUnlock : Account -> Z -> option error;
    toUnlock : list common.Address }.

Section scan.

Variable env : collaborators.

(** The closure [readAccount] of [scanAccounts]: nil when the file cannot
    be opened or decoded, or when the config is not valid. *)
Definition readAccount (path : string) : option Account :=
  match os_Open env path with
  | None => None
  | Some fd =>
      match Unmarshal env fd with
      | None => None
      | Some acctConfig =>
          match Validate env acctConfig with
          | Some _ => None
          | None => AsAccount env acctConfig path
          end
      end
  end.

(** [unlockIfConfigured]: one call of [TimedUnlock(acct, 0)] for each entry
    of [toUnlock] equal to the address, up to the first call that fails. *)
Fixpoint unlockIfConfigured_from (pending : list common.Address) (acct : Account)
  : list (Account * Z) * option error :=
  match pending with
  | [] => ([], None)
  | t :: rest =>
      if decide (Address acct = t) then
        match TimedUnlock env acct 0 with
        | Some err => ([(acct, 0%Z)], Some err)
        | None =>
            let '(calls, err) := unlockIfConfigured_from rest acct in
            ((acct, 0%Z) :: calls, err)
        end
      else unlockIfConfigured_from rest acct
  end.

Definition unlockIfConfigured (acct : Account) : list (Account * Z) * option error :=
  unlockIfConfigured_from (toUnlock env) acct.

(** [ac.Add( *a); ac.unlockIfConfigured( *a)], the error of which is only
    logged. *)
Definition add_and_unlock (st : cacheState) (a : Account) : cacheState :=
  {| index := Add (index st) a;
     watcher_running := watcher_running st; throttle := throttle st;
     notify := notify st;
     unlocks := (unlocks st ++ fst (unlockIfConfigured a))%list |}.

(** The body of [for _, p := range creates.ToSlice()]. *)
Definition scan_create (st : cacheState) (p : string) : cacheState :=
  match readAccount p with
  | Some a => add_and_unlock st a
  | None => st
  end.

(** The body of [for _, p := range deletes.ToSlice()]. *)
Definition scan_delete (st : cacheState) (p : string) : cacheState :=
  with_index st (deleteByFile (index st) p).

(** The body of [for _, p := range updates.ToSlice()]. *)
Definition scan_update (st : cacheState) (p : string) : cacheState :=
  let st := with_index st (deleteByFile (index st) p) in
  match readAccount p with
  | Some a => add_and_unlock st a
  | None => st
  end.

(** [scanAccounts], given what [ac.fileC.scan(ac.keydir)] returns. *)
Definition scanAccounts (scanned : fileDiff + error) (st : cacheState)
  : cacheState * option error :=
  match scanned with
  | inr err => (st, Some err)
  | inl d =>
      if ((length (creates d) =? 0) && (length (deletes d) =? 0)
          && (length (updates d) =? 0))%nat
      then (st, None)
      else
        let st := fold_left scan_create (creates d) st in
        let st := fold_left scan_delete (deletes d) st in
        let st := fold_left scan_update (updates d) st in
        ({| index := index st; watcher_running := watcher_running st;
            throttle := throttle st; notify := true; unlocks := unlocks st |}, None)
  end.

(** [MaybeReload].  [tick] says whether the throttle timer has fired when
    the [select] looks at its channel; [watcher.start()] only launches the
    watcher's goroutine and leaves [running] as it is. *)
Definition MaybeReload (tick : bool) (scanned : fileDiff + error) (st : cacheState)
  : cacheState :=
  if watcher_running st then st
  else if throttle st && negb tick then st
  else
    let st := {| index := index st; watcher_running := watcher_running st;
                 throttle := true; notify := notify st; unlocks := unlocks st |} in
    fst (scanAccounts scanned st).

(** [Accounts] *)
Definition Accounts (tick : bool) (scanned : fileDiff + error) (st : cacheState)
  : cacheState * list Account :=
  let st := MaybeReload tick scanned st in
  (st, All (index st)).

(** [HasAddress] *)
Definition HasAddress (tick : bool) (scanned : fileDiff + error) (st : cacheState)
    (addr : common.Address) : cacheState * bool :=
  let st := MaybeReload tick scanned st in
  (st, (0 <? length (bucket (ByAddr (index st)) addr))%nat).

End scan.

End cache_reload.


(* ===================================================================== *)
(** ** Building the authenticated clients                                 *)
(* ===================================================================== *)

(** [newAuthenticatedClient] and [newVaultClientManager], as [internal/manager]
    and [client.go] have them. *)
Module construction.

Import credentials.

(** [config.TLS] *)
Record TLS : Type := mkTLS { CaCert : string; ClientCert : string; ClientKey : string }.

(** [config.VaultConfig] of [internal/manager] *)
Record VaultConfig : Type :=
  mkVaultConfig {
    vc_URL : string;
    vc_TLS : TLS;
    vc_AccountConfigDir : string;
    vc_Auth : list config.VaultAuth }.

(** [VaultConfig] of [client.go] *)
Record HashicorpVaultConfig : Type :=
  mkHashicorpVaultConfig {
    hc_Addr : string;
    hc_TLS : TLS;
    hc_Auth : list config.VaultAuth }.

(** The calls into the Vault client library that build a client:
    [conf.ConfigureTLS(tlsConfig)], [api.NewClient(conf)] for the address
    and TLS settings given, and [resp.TokenIsRenewable()]. *)
Record library : Type :=
  mkLibrary {
    ConfigureTLS : TLS -> option error;
    NewClient : string -> TLS -> option error;
    TokenIsRenewable : option api.Secret -> bool * option error }.

(** [config.VaultAuth{}] *)
Definition zeroVaultAuth : config.VaultAuth :=
  {| config.AuthID_ := ""; config.ApprolePath := "" |}.

(** A new client, and whether [go ac.renew()] was started for it. *)
Record session : Type :=
  mkSession { client : authenticatedClient; renewing : bool }.

Section clients.

Variable lib : library.

(** [newAuthenticatedClient] of [internal/manager].  The client built for
    a token is [&authenticatedClient{Client: c}]: it has no renewer and the
    zero auth config.  For an AppRole login [renew] is started when
    [resp.TokenIsRenewable()] says so, its error being dropped. *)
Definition manager_newAuthenticatedClient (w : world) (vaultAddr : string)
    (authConfig : config.VaultAuth) (tls : TLS) : outcome session :=
  match ConfigureTLS lib tls with
  | Some err => Fails (PlainError ("error creating Hashicorp client: " ++ Error err))
  | None =>
  match NewClient lib vaultAddr tls with
  | Some err => Fails (PlainError ("error creating Hashicorp client: " ++ Error err))
  | None =>
  match getAuthCredentials (environ w) (config.AuthID_ authConfig) with
  | (_, Some err) => Fails (as_error err)
  | (creds, None) =>
      if negb (usingApproleAuth creds) then
        (* authenticate the client with the token provided *)
        Returns {| client := {| client_token := token creds; renewer := None;
                                authConfig := zeroVaultAuth |};
                   renewing := false |}
      else
        (* authenticate the client using approle *)
        match approleLogin w creds (config.ApprolePath authConfig) with
        | (_, Some err) => Fails err
        | (resp, None) =>
            match api.TokenID resp with
            | (_, Some err) => Fails err
            | (t, None) =>
                match api.NewRenewer resp with
                | (_, Some err) => Fails err
                | (r, None) =>
                    let ac := {| client_token := t; renewer := r;
                                 authConfig := authConfig |} in
                    let '(renewable, _) := TokenIsRenewable lib resp in
                    Returns {| client := ac; renewing := renewable |}
                end
            end
        end
  end end end.

(** [newAuthenticatedClient] of [client.go]: the same, but for its end,
    [ac := ...; go ac.renew(); return ac, nil]. *)
Definition hashicorp_newAuthenticatedClient (w : world) (vaultAddr : string)
    (authConfig : config.VaultAuth) (tls : TLS) : outcome session :=
  match ConfigureTLS lib tls with
  | Some err => Fails (PlainError ("error creating Hashicorp client: " ++ Error err))
  | None =>
  match NewClient lib vaultAddr tls with
  | Some err => Fails (PlainError ("error creating Hashicorp client: " ++ Error err))
  | None =>
  match getAuthCredentials (environ w) (config.AuthID_ authConfig) with
  | (_, Some err) => Fails (as_error err)
  | (creds, None) =>
      if negb (usingApproleAuth creds) then
        Returns {| client := {| client_token := token creds; renewer := None;
                                authConfig := zeroVaultAuth |};
                   renewing := false |}
      else
        match approleLogin w creds (config.ApprolePath authConfig) with
        | (_, Some err) => Fails err
        | (resp, None) =>
            match api.TokenID resp with
            | (_, Some err) => Fails err
            | (t, None) =>
                match api.NewRenewer resp with
                | (_, Some err) => Fails err
                | (r, None) =>
                    let ac := {| client_token := t; renewer := r;
                                 authConfig := authConfig |} in
                    Returns {| client := ac; renewing := true |}
                end
            end
        end
  end end end.

(** The loop of [newVaultClientManager]:
    [[
      for _, auth := range config.Auth {
        client, err := newAuthenticatedClient(config.URL, auth, config.TLS)
        if err != nil { return nil, fmt.Errorf(...) }
        clients[auth.AuthID] = client
      }
    ]]
    The [i]-th client is built in the world [worlds i].  Besides the map,
    the result holds the clients whose [renew] was started, in order. *)
Fixpoint make_clients
    (new : world -> string -> config.VaultAuth -> TLS -> outcome session)
    (worlds : nat -> world) (i : nat) (addr : string) (tls : TLS)
    (auths : list config.VaultAuth) (clients : gmap string authenticatedClient)
    (started : list authenticatedClient)
  : outcome (gmap string authenticatedClient) * list authenticatedClient :=
  match auths with
  | [] => (Returns clients, started)
  | auth :: rest =>
      match new (worlds i) addr auth tls with
      | Returns s =>
          make_clients new worlds (S i) addr tls rest
            (<[config.AuthID_ auth := client s]> clients)
            (if renewing s then (started ++ [client s])%list else started)
      | Fails err =>
          (Fails (PlainError ("unable to create client for Vault " ++ addr
                              ++ " using auth " ++ config.AuthID_ auth
                              ++ ": err: " ++ Error err)), started)
      | Panics msg => (Panics msg, started)
      end
  end.

(** [newVaultClientManager] of [internal/manager] *)
Definition manager_newVaultClientManager (worlds : nat -> world) (cfg : VaultConfig)
  : outcome manager.vaultClientManager * list authenticatedClient :=
  match make_clients manager_newAuthenticatedClient worlds 0 (vc_URL cfg) (vc_TLS cfg)
          (vc_Auth cfg) ∅ [] with
  | (Returns clients, started) =>
      (Returns {| manager.vaultAddr := vc_URL cfg;
                  manager.acctConfigDir := vc_AccountConfigDir cfg;
                  manager.clients := clients |}, started)
  | (Fails err, started) => (Fails err, started)
  | (Panics msg, started) => (Panics msg, started)
  end.

(** [newVaultClientManager] of [client.go] *)
Definition hashicorp_newVaultClientManager (worlds : nat -> world)
    (cfg : HashicorpVaultConfig)
  : outcome hashicorp.vaultClientManager * list authenticatedClient :=
  match make_clients hashicorp_newAuthenticatedClient worlds 0 (hc_Addr cfg) (hc_TLS cfg)
          (hc_Auth cfg) ∅ [] with
  | (Returns clients, started) =>
      (Returns {| hashicorp.vaultAddr := hc_Addr cfg;
                  hashicorp.clients := clients |}, started)
  | (Fails err, started) => (Fails err, started)
  | (Panics msg, started) => (Panics msg, started)
  end.

End clients.

End construction.

(* ===================================================================== *)
(** ** [internal/manager]: storing and reading keys                       *)
(* ===================================================================== *)

Module manager_keys.

Import credentials manager.

(** [config.AccountConfig] *)
Record AccountConfig : Type :=
  mkAccountConfig {
    Address : string;
    VaultSecret : config.VaultSecretConfig;
    Id : string;
    Version : Z }.

(** [config.AccountConfig{}] *)
Definition zeroAccountConfig : AccountConfig :=
  {| Address := "";
     VaultSecret :=
       {| config.PathParams_ :=
            {| config.SecretEnginePath := ""; config.SecretPath := "";
               config.SecretVersion := 0 |};
          config.AuthID := ""; config.InsecureSkipCas := false; config.CasValue := 0 |};
     Id := ""; Version := 0 |}.

#[global] Instance PathParams_eq_dec : EqDecision config.PathParams.
Proof. solve_decision. Defined.

#[global] Instance VaultSecretConfig_eq_dec : EqDecision config.VaultSecretConfig.
Proof. solve_decision. Defined.

#[global] Instance AccountConfig_eq_dec : EqDecision AccountConfig.
Proof. solve_decision. Defined.

(** [Key]: [Id] is a [uuid.UUID], a slice of bytes. *)
Record Key (PrivateKey : Type) : Type :=
  mkKey { key_Id : list byte; key_Address : common.Address; key_PrivateKey : PrivateKey }.

Arguments mkKey {PrivateKey} _ _ _.
Arguments key_Id {PrivateKey} _.
Arguments key_Address {PrivateKey} _.
Arguments key_PrivateKey {PrivateKey} _.

(** *** [strconv.ParseInt(s, 10, 64)], behind [json.Number.Int64] *)

Definition isDigit (c : ascii) : bool :=
  (48 <=? nat_of_ascii c)%nat && (nat_of_ascii c <=? 57)%nat.

(** The digits of [ParseUint], base 10; no digit is a syntax error. *)
Fixpoint parse_digits (s : string) (acc : Z) : option Z :=
  match s with
  | EmptyString => Some acc
  | String c rest =>
      if isDigit c then parse_digits rest (acc * 10 + Z.of_nat (nat_of_ascii c - 48))%Z
      else None
  end.

(** The value, or [None] for a syntax or range error. *)
Definition strconv_ParseInt (s : string) : option Z :=
  match s with
  | EmptyString => None
  | String c rest =>
      let neg := Ascii.eqb c "-" in
      let digits := if Ascii.eqb c "+" || neg then rest else s in
      match digits with
      | EmptyString => None
      | _ =>
          match parse_digits digits 0 with
          | None => None
          | Some un =>
              if negb neg && (2 ^ 63 <=? un)%Z then None
              else if neg && (2 ^ 63 <? un)%Z then None
              else Some (if neg then (- un)%Z else un)
          end
      end
  end.

(** What the manager works with and does not define: the ECDSA keys of
    [crypto], the string form of a UUID, the address of a client and the
    answers of the Vault to its writes and reads, the JSON coding of
    account configs, the file system (the state [FS], changed by
    [writeTemporaryKeyFile] and [os.Rename]), [config.ToAccount], the
    verbs [%v] and [%x] at an address, and the constant [version]. *)
Record platform : Type :=
  mkPlatform {
    PrivateKey : Type;
    FS : Type;
    crypto_FromECDSA : PrivateKey -> list byte;
    crypto_HexToECDSA : string -> outcome PrivateKey;
    crypto_PubkeyToAddress : PrivateKey -> common.Address;
    uuid_String : list byte -> string;
    client_Address : authenticatedClient -> string;
    Logical_Write :
      authenticatedClient -> string -> gmap string api.value
      -> option api.Secret * option error;
    Logical_ReadWithData :
      authenticatedClient -> string -> gmap string (list string)
      -> option api.Secret * option error;
    json_Marshal : AccountConfig -> outcome (list byte);
    checkValid : list byte -> option error;
    decode : list byte -> AccountConfig -> outcome AccountConfig;
    writeTemporaryKeyFile : FS -> string -> list byte -> FS * outcome string;
    os_Rename : FS -> string -> string -> FS * option error;
    ioutil_ReadFile : FS -> string -> outcome (list byte);
    config_ToAccount : AccountConfig -> string -> outcome accounts.Account;
    Address_v : common.Address -> string;
    Address_x : common.Address -> string;
    version : Z }.

Section keys.

Variable env : platform.

(** The body [storeInVault] writes:
    [[
      data["data"] = map[string]interface{}{ addrHex: keyHex }
      if !vaultConfig.InsecureSkipCas {
        data["options"] = map[string]interface{}{ "cas": vaultConfig.CasValue }
      }
    ]] *)
Definition storeInVault_body (vaultConfig : config.VaultSecretConfig)
    (k : Key (PrivateKey env)) : gmap string api.value :=
  let address := key_Address k in
  let addrHex := hex_EncodeToString address in
  let keyBytes := crypto_FromECDSA env (key_PrivateKey k) in
  let keyHex := hex_EncodeToString keyBytes in
  let data : gmap string api.value :=
    <["data" := api.VObject (<[addrHex := api.VString keyHex]> ∅)]> ∅ in
  if negb (config.InsecureSkipCas vaultConfig) then
    <["options" := api.VObject (<["cas" := api.VNumber
                                             (pretty (config.CasValue vaultConfig))]> ∅)]>
      data
  else data.

(** [storeInVault]: the URI of the secret and its version.  [k] and the
    response of the write are pointers that are read without a test. *)
Definition storeInVault (m : vaultClientManager)
    (vaultConfig : config.VaultSecretConfig) (k : option (Key (PrivateKey env)))
  : outcome (string * Z) :=
  match clients m !! config.AuthID vaultConfig with
  | None =>
      Fails (PlainError ("no client configured for Vault " ++ vaultAddr m
                         ++ " and authID " ++ config.AuthID vaultConfig))
  | Some client =>
      let path := dataPath (config.PathParams_ vaultConfig) in
      k ← deref k;
      let data := storeInVault_body vaultConfig k in
      let '(resp, err) := Logical_Write env client path data in
      match err with
      | Some err =>
          Fails (PlainError ("unable to write secret to Vault: " ++ Error err))
      | None =>
          resp ← deref resp;
          match api.Data resp !! "version" with
          | None =>
              let secretUri := client_Address env client ++ "/v1/" ++ path in
              Fails (PlainError
                ("secret written to Vault but unable to get version: secret uri: "
                 ++ secretUri ++ ", err <nil>"))
          | Some v =>
              (* vJson, ok := v.(json.Number), with ok not looked at *)
              let vJson := match v with api.VNumber n => n | _ => "" end in
              match strconv_ParseInt vJson with
              | None =>
                  let secretUri := client_Address env client ++ "/v1/" ++ path in
                  Fails (PlainError
                    ("secret written to Vault but unable to convert version in Vault "
                     ++ "response to int64: secret: " ++ secretUri
                     ++ ", version: " ++ vJson))
              | Some secretVersion =>
                  let secretUri :=
                    client_Address env client ++ "/v1/" ++ path ++ "?version="
                    ++ pretty secretVersion in
                  Returns (secretUri, secretVersion)
              end
          end
      end
  end.

(** [storeInFile] *)
Definition storeInFile (fs : FS env) (filename : string) (acctConfig : AccountConfig)
  : FS env * outcome unit :=
  match json_Marshal env acctConfig with
  | Fails err => (fs, Fails err)
  | Panics msg => (fs, Panics msg)
  | Returns toStore =>
      (* Write into temporary file *)
      match writeTemporaryKeyFile env fs filename toStore with
      | (fs, Fails err) => (fs, Fails err)
      | (fs, Panics msg) => (fs, Panics msg)
      | (fs, Returns tmpName) =>
          match os_Rename env fs tmpName filename with
          | (fs, Some err) => (fs, Fails err)
          | (fs, None) => (fs, Returns tt)
          end
      end
  end.

(** [vaultConfig.PathParams.SecretVersion = secretVersion] *)
Definition with_version (vaultConfig : config.VaultSecretConfig) (secretVersion : Z)
  : config.VaultSecretConfig :=
  {| config.PathParams_ :=
       {| config.SecretEnginePath :=
            config.SecretEnginePath (config.PathParams_ vaultConfig);
          config.SecretPath := config.SecretPath (config.PathParams_ vaultConfig);
          config.SecretVersion := secretVersion |};
     config.AuthID := config.AuthID vaultConfig;
     config.InsecureSkipCas := config.InsecureSkipCas vaultConfig;
     config.CasValue := config.CasValue vaultConfig |}.

(** [StoreKey]: the account and the URI of the secret, and the file system
    afterwards. *)
Definition StoreKey (fs : FS env) (m : vaultClientManager) (filename : string)
    (vaultConfig : config.VaultSecretConfig) (k : option (Key (PrivateKey env)))
  : FS env * outcome (accounts.Account * string) :=
  match storeInVault m vaultConfig k with
  | Fails err => (fs, Fails err)
  | Panics msg => (fs, Panics msg)
  | Returns (secretUri, secretVersion) =>
      (* include the version of the newly created vault secret in the data
         written to file *)
      let vaultConfig := with_version vaultConfig secretVersion in
      match k with
      | None => (fs, Panics nil_dereference)
      | Some k =>
          let acctConfig :=
            {| Address := hex_EncodeToString (key_Address k);
               VaultSecret := vaultConfig;
               Id := uuid_String env (key_Id k);
               Version := version env |} in
          match storeInFile fs filename acctConfig with
          | (fs, Fails err) =>
              (fs, Fails (PlainError
                 ("secret written to Vault but unable to write data to file: "
                  ++ "secret uri: " ++ secretUri ++ ", err: " ++ Error err)))
          | (fs, Panics msg) => (fs, Panics msg)
          | (fs, Returns _) =>
              match config_ToAccount env acctConfig (vaultAddr m) with
              | Fails err =>
                  (fs, Fails (PlainError
                     ("secret written to Vault but unable to parse as account: "
                      ++ "secret uri: " ++ secretUri ++ ", err: " ++ Error err)))
              | Panics msg => (fs, Panics msg)
              | Returns acct => (fs, Returns (acct, secretUri))
              end
          end
      end
  end.

(** [GetKey]; [uuid.UUID(conf.Id)] converts the string to its bytes. *)
Definition GetKey (fs : FS env) (m : vaultClientManager) (addr : common.Address)
    (filename auth : string) : outcome (Key (PrivateKey env)) :=
  fileBytes ← ioutil_ReadFile env fs filename;
  conf ← json_Unmarshal AccountConfig (checkValid env) (decode env) fileBytes
           (ByPointer zeroAccountConfig);
  if decide (conf = zeroAccountConfig) then
    Fails (PlainError ("unable to read vault account config from file " ++ filename))
  else
    (* Make sure the contents of the file matches the requested key *)
    if negb (common.IsHexAddress (Address conf)) then
      Fails (PlainError ("invalid hex address from file contents: " ++ Address_v env addr))
    else
      let confAddr := common.HexToAddress (Address conf) in
      if decide (confAddr <> addr) then
        Fails (PlainError ("acctconfig file content mismatch: have account "
                           ++ Address_x env confAddr ++ ", want " ++ Address_x env addr))
      else
        hexKey ← getSecretFromVault (Logical_ReadWithData env) m (VaultSecret conf);
        match crypto_HexToECDSA env hexKey with
        | Fails err =>
            Fails (PlainError
              ("unable to parse data from Hashicorp Vault to *ecdsa.PrivateKey: "
               ++ Error err))
        | Panics msg => Panics msg
        | Returns key =>
            Returns {| key_Id := list_byte_of_string (Id conf);
                       key_Address := crypto_PubkeyToAddress env key;
                       key_PrivateKey := key |}
        end.

End keys.

End manager_keys.
(* ===================================================================== *)
(** * The vocabulary of the statements, and example data                 *)
(* ===================================================================== *)

Section wire_vocabulary.

(** [s] holds no white space. *)
Fixpoint noSpace (s : string) : bool :=
  match s with
  | EmptyString => true
  | String c rest => negb (isSpace c) && noSpace rest
  end.

(** A reading of URL strings for the examples: the text before the first
    [://] is the scheme. *)
Fixpoint split_scheme (s : string) : option (string * string) :=
  match s with
  | EmptyString => None
  | String c rest =>
      if String.prefix "://" s then Some (EmptyString, String.substring 3 (String.length s - 3) s)
      else match split_scheme rest with
           | Some (scheme, path) => Some (String c scheme, path)
           | None => None
           end
  end.

Definition example_ToUrl (s : string) : outcome accounts.URL :=
  match split_scheme s with
  | Some (scheme, path) => Returns {| accounts.Scheme := scheme; accounts.Path := path |}
  | None => Returns {| accounts.Scheme := ""; accounts.Path := s |}
  end.

Definition example_address (last : byte) : common.Address :=
  (repeat x00 19 ++ [last])%list.

Definition example_account (last : byte) (path : string) : accounts.Account :=
  {| accounts.Address := example_address last;
     accounts.URL_ := {| accounts.Scheme := "keystore"; accounts.Path := path |} |}.

End wire_vocabulary.

Section credentials_vocabulary.

(** The success condition as the specification words it: a token is set,
    or both role-id and secret-id are set. *)
Definition credentials_complete (env : gmap string string) (authID : string) : Prop :=
  credentials.os_Getenv env (credentials.applyPrefix authID credentials.DefaultTokenEnv) <> ""
  \/ (credentials.os_Getenv env
        (credentials.applyPrefix authID credentials.DefaultRoleIDEnv) <> ""
      /\ credentials.os_Getenv env
           (credentials.applyPrefix authID credentials.DefaultSecretIDEnv) <> "").

Definition example_env : gmap string string :=
  <["QRM_HASHIVLT_ROLE_ID" := "role"]> (<["QRM_HASHIVLT_TOKEN" := "s.token"]> ∅).

End credentials_vocabulary.

Section event_stream_vocabulary.

Variable Send_fault :
  list proto.GetEventStreamResponse -> proto.GetEventStreamResponse -> option error.

(** The messages a loop still has to send are sent in order, up to the
    first one the transport refuses. *)
Definition sent_prefix (stream : list proto.GetEventStreamResponse)
    (todo : list proto.GetEventStreamResponse)
    (stream' : list proto.GetEventStreamResponse) (err : option error) : Prop :=
  exists n : nat,
    stream' = (stream ++ take n todo)%list
    /\ match err with
       | None => n = length todo
       | Some e => exists m, todo !! n = Some m /\ Send_fault stream' m = Some e
       end.

End event_stream_vocabulary.

Section binary_search_vocabulary.

Variable f : nat -> bool.
Variable n : nat.

(** What the loop of [sort.Search] keeps: the test fails just below [i]
    and holds at [j]. *)
Definition below (i : nat) : Prop := i = 0%nat \/ f (i - 1) = false.
Definition above (j : nat) : Prop := j = n \/ f j = true.

End binary_search_vocabulary.

Section cache_vocabulary.

Import accounts cache.

Variable Separator : ascii.
Variable filepath_Join : string -> string -> string.

(** The accounts of [l] whose address is [k]. *)
Definition with_address (k : common.Address) (l : list Account) : list Account :=
  filter (fun a => Address a = k) l.

(** The invariant of the index: [All] is in URL order, and each bucket of
    [ByAddr] holds, up to order, the accounts of [All] with its address. *)
Definition consistent (ac : AccountCache) : Prop :=
  StronglySorted url_le (All ac)
  /\ forall k, bucket (ByAddr ac) k ≡ₚ with_address k (All ac).

(** The candidates of a specifier: the accounts with its address when the
    address is not zero, all accounts otherwise. *)
Definition candidates (ac : AccountCache) (a : Account) : list Account :=
  if decide (Address a <> common.zeroAddress) then bucket (ByAddr ac) (Address a)
  else All ac.

(** The URL looked for: a path without separator is completed with the
    directory of the cache. *)
Definition completed (ac : AccountCache) (a : Account) : URL :=
  if negb (strings_ContainsRune (Path (URL_ a)) Separator)
  then {| Scheme := Scheme (URL_ a); Path := filepath_Join (keydir ac) (Path (URL_ a)) |}
  else URL_ a.

(** The candidates with exactly that URL. *)
Definition exact_matches (ac : AccountCache) (a : Account) : list Account :=
  filter (fun m => URL_ m = completed ac a) (candidates ac a).

(** The outcome by the number of accounts in [matching]: the account if
    there is one, the no-match error if there is none, and otherwise the
    ambiguous-address error that lists exactly [matching], in URL order. *)
Definition by_number (matching : list Account) (a : Account)
    (result : Account + findError) : Prop :=
  match matching with
  | [] => result = inr ErrNoMatch
  | [m] => result = inl m
  | _ => exists matches,
           result = inr (AmbiguousAddrError (Address a) matches)
           /\ matches ≡ₚ matching /\ StronglySorted url_le matches
  end.

#[global] Instance url_le_dec (x y : Account) : Decision (url_le x y).
Proof. unfold url_le. apply not_dec. solve_decision. Defined.

(** A directory with two account files, and a second cache in which two
    files hold the same address. *)
Definition example_Join (dir name : string) : string := dir ++ "/" ++ name.

Definition example_sort (l : list Account) : list Account := merge_sort url_le l.

Definition example_cache : AccountCache :=
  run [OpAdd (example_account x02 "/keys/b.json");
       OpAdd (example_account x01 "/keys/a.json")] (NewAccountCache "/keys").

Definition example_cache_shared : AccountCache :=
  run [OpAdd (example_account x01 "/keys/b.json");
       OpAdd (example_account x01 "/keys/a.json")] (NewAccountCache "/keys").

Definition missing_file : URL := {| Scheme := "keystore"; Path := "/keys/c.json" |}.

End cache_vocabulary.

Section adapter_vocabulary.

Import internal.

(** The error is a gRPC status with code [Internal]. *)
Definition coded {A : Type} (r : outcome A) : Prop :=
  forall e, r = Fails e -> exists msg, e = StatusError Internal msg.

(** A transaction reduced to its payload and the [V] of its signature;
    like [rlp], the encoder refuses a negative big integer. *)
Record example_tx : Type := mkTx { payload : list byte; sig_V : Z }.

Definition example_decode (b : list byte) : outcome example_tx :=
  Returns {| payload := b; sig_V := 0 |}.

Definition example_encode (tx : example_tx) : outcome (list byte) :=
  if (sig_V tx <? 0)%Z then Fails (PlainError "rlp: cannot encode negative big.Int")
  else Returns (payload tx).

(** A wallet whose signer hands back a transaction with a negative [V]. *)
Definition example_wallet : Wallet example_tx :=
  {| w_URL := {| accounts.Scheme := "keystore"; accounts.Path := "/keys/a.json" |};
     w_Status := Returns "open";
     w_Open := fun _ => Returns tt;
     w_Close := Returns tt;
     w_Accounts := [example_account x01 "/keys/a.json"];
     w_Contains := fun _ => true;
     w_SignHash := fun _ h => Returns h;
     w_SignTx := fun _ tx _ => Returns {| payload := payload tx; sig_V := -1 |};
     w_SignHashWithPassphrase := fun _ _ h => Returns h;
     w_SignTxWithPassphrase :=
       fun _ _ tx _ => Returns {| payload := payload tx; sig_V := -1 |} |}.

Definition example_manager : HashicorpVaultAccountManager example_tx unit :=
  {| am_Wallets := [example_wallet];
     am_Wallet := fun _ => Returns example_wallet;
     am_GetAccountCreator := fun _ => Fails (PlainError "unknown vault");
     am_TimedUnlock := fun _ _ _ => Returns tt;
     am_Lock := fun _ => Returns tt |}.

Definition example_request_account : option proto.Account :=
  Some (asProtoAccount (example_account x01 "/keys/a.json")).

(** A transport that has lost its peer: every send is refused. *)
Definition transport_closed
    (sent : list proto.GetEventStreamResponse) (m : proto.GetEventStreamResponse)
  : option error :=
  Some (StatusError Unavailable "transport is closing").

End adapter_vocabulary.

Section renewal_vocabulary.

Import credentials.

(** The durations slept, in order. *)
Fixpoint sleeps (trace : list effect) : list Z :=
  match trace with
  | [] => []
  | Sleep d :: rest => d :: sleeps rest
  | _ :: rest => sleeps rest
  end.

(** An attempt fails, or succeeds, for a client with this auth config. *)
Definition refused (cfg : config.VaultAuth) (w : world) : Prop :=
  forall ac, authConfig ac = cfg -> snd (manager.reauthenticate w ac) <> None.

Definition accepted (cfg : config.VaultAuth) (w : world) : Prop :=
  forall ac, authConfig ac = cfg -> snd (manager.reauthenticate w ac) = None.

(** A session whose token came from an AppRole login, a Vault that cannot
    be reached, and the same Vault answering again. *)
Definition example_lease (t : string) : api.Secret :=
  {| api.Auth := Some {| api.ClientToken := t; api.Renewable := true |};
     api.Data := ∅ |}.

Definition example_session : authenticatedClient :=
  {| client_token := "s.old";
     renewer := Some {| api.secret := example_lease "s.old" |};
     authConfig := {| config.AuthID_ := ""; config.ApprolePath := "" |} |}.

Definition approle_env : gmap string string :=
  <["QRM_HASHIVLT_ROLE_ID" := "role"]> (<["QRM_HASHIVLT_SECRET_ID" := "secret"]> ∅).

Definition vault_down : world :=
  {| environ := approle_env;
     Logical_Write := fun _ => (None, Some (PlainError "connection refused")) |}.

Definition vault_up : world :=
  {| environ := approle_env;
     Logical_Write := fun _ => (Some (example_lease "s.new"), None) |}.

End renewal_vocabulary.

Section evaluation_vocabulary.

Import credentials.

(** A client manager with one client, for the auth-ID [vaultID], and
    Vaults that answer a read with a given [data] field. *)
Definition example_client_manager : manager.vaultClientManager :=
  {| manager.vaultAddr := "http://vault:8200";
     manager.acctConfigDir := "/keys";
     manager.clients := {[ "vaultID" := example_session ]} |}.

Definition example_secret_config (authID : string) : config.VaultSecretConfig :=
  {| config.PathParams_ :=
       {| config.SecretEnginePath := "kv"; config.SecretPath := "acct1";
          config.SecretVersion := 3 |};
     config.AuthID := authID;
     config.InsecureSkipCas := false;
     config.CasValue := 0 |}.

(** The Vault holds [v] at [kv/data/acct1], version 3, and nothing else. *)
Definition vault_holding (v : api.value)
    (client : authenticatedClient) (path : string) (query : gmap string (list string))
  : option api.Secret * option error :=
  if decide (path = "kv/data/acct1" /\ query !! "version" = Some ["3"])
  then (Some {| api.Auth := None; api.Data := {[ "data" := v ]} |}, None)
  else (None, None).

(** A transport that accepts [n] messages and then breaks. *)
Definition transport_breaks_after (n : nat)
    (sent : list proto.GetEventStreamResponse) (m : proto.GetEventStreamResponse)
  : option error :=
  if (length sent <? n)%nat then None
  else Some (StatusError Unavailable "transport is closing").

End evaluation_vocabulary.

Section cache_more_vocabulary.

Import accounts cache.

(** A cache is reachable when the index operations build it from the
    empty cache. *)
Definition reachable (ac : AccountCache) : Prop :=
  exists keydir ops, ac = run ops (NewAccountCache keydir).

(** [ByAddr] keeps no empty bucket. *)
Definition no_empty_bucket (ac : AccountCache) : Prop :=
  forall k, ByAddr ac !! k <> Some [].

(** The test of the search in [Add]. *)
Definition not_before (l : list Account) (new : Account) (i : nat) : bool :=
  match l !! i with
  | Some a => ge0 (Cmp (URL_ a) (URL_ new))
  | None => false
  end.

(** The test of the search in [deleteByFile]. *)
Definition path_not_before (l : list Account) (path : string) (i : nat) : bool :=
  match l !! i with
  | Some a => ge0 (strings_Compare (Path (URL_ a)) path)
  | None => false
  end.

End cache_more_vocabulary.

Section reload_vocabulary.

Import accounts cache cache_reload.

Variable env : collaborators.

(** The unlock calls a file gives rise to. *)
Definition calls_for (p : string) : list (Account * Z) :=
  match readAccount env p with
  | Some a => fst (unlockIfConfigured env a)
  | None => []
  end.

End reload_vocabulary.

Section reload_examples.

Import accounts cache cache_reload.

(** A directory in which [c.json] holds a valid account config and
    [bad.json] does not decode; the address of the account is to be
    unlocked. *)
Definition example_collaborators : collaborators :=
  {| File := string;
     Config := Account;
     os_Open := fun path =>
       if decide (path = "/keys/c.json") then Some "c"
       else if decide (path = "/keys/bad.json") then Some "bad" else None;
     Unmarshal := fun content =>
       if decide (content = "c") then Some (example_account x03 "/keys/c.json") else None;
     Validate := fun _ => None;
     AsAccount := fun cfg _ => Some cfg;
     TimedUnlock := fun _ _ => None;
     toUnlock := [example_address x03] |}.

Definition example_state : cacheState :=
  {| index := example_cache; watcher_running := false; throttle := false;
     notify := false; unlocks := [] |}.

Definition example_diff : fileDiff :=
  {| creates := ["/keys/c.json"; "/keys/bad.json"]; deletes := ["/keys/a.json"];
     updates := [] |}.

Definition unreadable_diff : fileDiff :=
  {| creates := ["/keys/bad.json"]; deletes := ["/keys/a.json"];
     updates := ["/keys/gone.json"] |}.

End reload_examples.

Section construction_vocabulary.

Import credentials construction.

(** The three values [getAuthCredentials] reads for an auth-ID. *)
Definition roleID_of (env : gmap string string) (authID : string) : string :=
  os_Getenv env (applyPrefix authID DefaultRoleIDEnv).

Definition secretID_of (env : gmap string string) (authID : string) : string :=
  os_Getenv env (applyPrefix authID DefaultSecretIDEnv).

Definition token_of (env : gmap string string) (authID : string) : string :=
  os_Getenv env (applyPrefix authID DefaultTokenEnv).

(** The auth-IDs a configuration declares. *)
Definition declared (auths : list config.VaultAuth) : list string :=
  config.AuthID_ <$> auths.

(** A library that builds every client, and reads the renewable flag of
    the login response. *)
Definition example_library : library :=
  {| ConfigureTLS := fun _ => None;
     NewClient := fun _ _ => None;
     TokenIsRenewable := fun resp =>
       match resp with
       | Some {| api.Auth := Some a |} => (api.Renewable a, None)
       | _ => (false, None)
       end |}.

Definition example_tls : TLS := {| CaCert := ""; ClientCert := ""; ClientKey := "" |}.

Definition token_env : gmap string string :=
  <["QRM_HASHIVLT_TOKEN" := "s.token"]> ∅.

(** A Vault that answers every login with a lease that cannot be renewed. *)
Definition vault_short_lease : world :=
  {| environ := <["QRM_HASHIVLT_TOKEN" := "s.token"]> approle_env;
     Logical_Write := fun _ =>
       (Some {| api.Auth := Some {| api.ClientToken := "s.once"; api.Renewable := false |};
                api.Data := ∅ |}, None) |}.

Definition token_world : world :=
  {| environ := token_env;
     Logical_Write := fun _ => (None, Some (PlainError "connection refused")) |}.

(** Two auth configs, the first for the unprefixed variables. *)
Definition example_auths : list config.VaultAuth :=
  [{| config.AuthID_ := ""; config.ApprolePath := "" |};
   {| config.AuthID_ := "ops"; config.ApprolePath := "ops-approle" |}].

Definition example_vault_config : VaultConfig :=
  {| vc_URL := "https://vault:8200"; vc_TLS := example_tls;
     vc_AccountConfigDir := "/keys"; vc_Auth := example_auths |}.

(** Both auth configs find their AppRole credentials. *)
Definition two_role_world : world :=
  {| environ := <["ops_QRM_HASHIVLT_ROLE_ID" := "ops-role"]>
                  (<["ops_QRM_HASHIVLT_SECRET_ID" := "ops-secret"]> approle_env);
     Logical_Write := fun _ => (Some (example_lease "s.new"), None) |}.

End construction_vocabulary.

Section keys_vocabulary.

Import credentials manager manager_keys.

(** The same platform with another Vault behind its reads. *)
Definition with_reads (env : platform)
    (reads : authenticatedClient -> string -> gmap string (list string)
             -> option api.Secret * option error) : platform :=
  {| PrivateKey := PrivateKey env; FS := FS env;
     crypto_FromECDSA := crypto_FromECDSA env;
     crypto_HexToECDSA := crypto_HexToECDSA env;
     crypto_PubkeyToAddress := crypto_PubkeyToAddress env;
     uuid_String := uuid_String env;
     client_Address := client_Address env;
     Logical_Write := Logical_Write env;
     Logical_ReadWithData := reads;
     json_Marshal := json_Marshal env;
     checkValid := checkValid env;
     decode := decode env;
     writeTemporaryKeyFile := writeTemporaryKeyFile env;
     os_Rename := os_Rename env;
     ioutil_ReadFile := ioutil_ReadFile env;
     config_ToAccount := config_ToAccount env;
     Address_v := Address_v env;
     Address_x := Address_x env;
     version := version env |}.

(** The same platform with another Vault behind its writes. *)
Definition with_writes (env : platform)
    (writes : authenticatedClient -> string -> gmap string api.value
              -> option api.Secret * option error) : platform :=
  {| PrivateKey := PrivateKey env; FS := FS env;
     crypto_FromECDSA := crypto_FromECDSA env;
     crypto_HexToECDSA := crypto_HexToECDSA env;
     crypto_PubkeyToAddress := crypto_PubkeyToAddress env;
     uuid_String := uuid_String env;
     client_Address := client_Address env;
     Logical_Write := writes;
     Logical_ReadWithData := Logical_ReadWithData env;
     json_Marshal := json_Marshal env;
     checkValid := checkValid env;
     decode := decode env;
     writeTemporaryKeyFile := writeTemporaryKeyFile env;
     os_Rename := os_Rename env;
     ioutil_ReadFile := ioutil_ReadFile env;
     config_ToAccount := config_ToAccount env;
     Address_v := Address_v env;
     Address_x := Address_x env;
     version := version env |}.

(** The account config [StoreKey] writes for a key stored as version
    [secretVersion]. *)
Definition stored_config (env : platform) (vaultConfig : config.VaultSecretConfig)
    (k : Key (PrivateKey env)) (secretVersion : Z) : AccountConfig :=
  {| Address := hex_EncodeToString (key_Address k);
     VaultSecret := with_version vaultConfig secretVersion;
     Id := uuid_String env (key_Id k);
     Version := version env |}.

(** What [GetKey] does once the file has passed its checks: it reads the
    secret and parses it. *)
Definition key_from_vault (env : platform) (m : vaultClientManager)
    (conf : AccountConfig) : outcome (Key (PrivateKey env)) :=
  hexKey ← getSecretFromVault (Logical_ReadWithData env) m (VaultSecret conf);
  match crypto_HexToECDSA env hexKey with
  | Fails err =>
      Fails (PlainError
        ("unable to parse data from Hashicorp Vault to *ecdsa.PrivateKey: "
         ++ Error err))
  | Panics msg => Panics msg
  | Returns key =>
      Returns {| key_Id := list_byte_of_string (Id conf);
                 key_Address := crypto_PubkeyToAddress env key;
                 key_PrivateKey := key |}
  end.

(** The file system gives back what was written to a temporary file and
    renamed. *)
Definition files_kept (env : platform) : Prop :=
  forall fs name content fs1 tmp fs2,
    writeTemporaryKeyFile env fs name content = (fs1, Returns tmp) ->
    os_Rename env fs1 tmp name = (fs2, None) ->
    ioutil_ReadFile env fs2 name = Returns content.

(** The JSON coding reads back the config it wrote. *)
Definition json_reads_back (env : platform) (conf : AccountConfig) : Prop :=
  forall bytes,
    json_Marshal env conf = Returns bytes ->
    json_Unmarshal AccountConfig (checkValid env) (decode env) bytes
      (ByPointer zeroAccountConfig) = Returns conf.

(** An example: keys are numbers below 256, the files are a map from
    names to contents, the Vault stores at [kv/data/acct1] and reports
    version 4, and the JSON coding knows the one config of the example. *)
Definition example_key : Key Z :=
  {| key_Id := [x10; x20]; key_Address := example_address x2a; key_PrivateKey := 7%Z |}.

Definition example_stored_config : AccountConfig :=
  {| Address := hex_EncodeToString (example_address x2a);
     VaultSecret := with_version (example_secret_config "vaultID") 4;
     Id := "1020";
     Version := 1%Z |}.

Definition example_platform : platform :=
  {| PrivateKey := Z;
     FS := gmap string (list byte);
     crypto_FromECDSA := fun key => [byte_of_N (Z.to_N key)];
     crypto_HexToECDSA := fun s =>
       match hex_DecodeString s with
       | ([b], None) => Returns (Z.of_N (Byte.to_N b))
       | _ => Fails (PlainError "invalid length, need 256 bits")
       end;
     crypto_PubkeyToAddress := fun key => example_address (byte_of_N (Z.to_N key + 35)%N);
     uuid_String := hex_EncodeToString;
     client_Address := fun _ => "http://vault:8200";
     Logical_Write := fun _ path _ =>
       if decide (path = "kv/data/acct1")
       then (Some {| api.Auth := None;
                     api.Data := {[ "version" := api.VNumber "4" ]} |}, None)
       else (None, Some (PlainError "permission denied"));
     Logical_ReadWithData := fun _ path query =>
       if decide (path = "kv/data/acct1" /\ query !! "version" = Some ["4"])
       then (Some {| api.Auth := None;
                     api.Data :=
                       {[ "data" := api.VObject
                            {[ hex_EncodeToString (example_address x2a)
                               := api.VString "07" ]} ]} |}, None)
       else (None, None);
     json_Marshal := fun conf =>
       if decide (conf = example_stored_config) then Returns [x01]
       else Fails (PlainError "json: unsupported value");
     checkValid := fun _ => None;
     decode := fun bytes _ =>
       if decide (bytes = [x01]) then Returns example_stored_config
       else Fails (PlainError "json: cannot unmarshal");
     writeTemporaryKeyFile := fun fs name content =>
       (<[name ++ ".tmp" := content]> fs, Returns (name ++ ".tmp"));
     os_Rename := fun fs old new =>
       match fs !! old with
       | Some content => (<[new := content]> (delete old fs), None)
       | None => (fs, Some (PlainError "no such file or directory"))
       end;
     ioutil_ReadFile := fun fs name =>
       match fs !! name with
       | Some content => Returns content
       | None => Fails (PlainError "no such file or directory")
       end;
     config_ToAccount := fun conf _ =>
       Returns {| accounts.Address := common.HexToAddress (Address conf);
                  accounts.URL_ := {| accounts.Scheme := "hashivlt";
                                      accounts.Path := Id conf |} |};
     Address_v := common.Bytes2Hex;
     Address_x := common.Bytes2Hex;
     version := 1%Z |}.

(** The files after the example key was stored. *)
Definition example_files : gmap string (list byte) :=
  fst (StoreKey example_platform ∅ example_client_manager "/keys/a.json"
         (example_secret_config "vaultID") (Some example_key)).

End keys_vocabulary.

Section adapter_more_vocabulary.

Import internal.

(** What a handler that starts with the wallet does with a request that
    has no account: the wallet is looked up, and the nil account is
    dereferenced when it was found. *)
Definition without_account {Transaction PrivateKey A : Type}
    (am : HashicorpVaultAccountManager Transaction PrivateKey) (url : string)
  : outcome A :=
  match am_Wallet am url with
  | Returns _ => Panics nil_dereference
  | Fails e => Fails (StatusError Internal (Error e))
  | Panics msg => Panics msg
  end.

End adapter_more_vocabulary.

(* ===================================================================== *)
(** * Properties                                                          *)
(* ===================================================================== *)

(** ** The embedding on concrete inputs *)

Section evaluations.

Example hex_encode : common.Bytes2Hex [xde; xad; x00; x0f] = "dead000f".
Proof. reflexivity. Qed.

Example hex_decode_upper : common.Hex2Bytes "DEAD000F" = [xde; xad; x00; x0f].
Proof. reflexivity. Qed.

Example hex_decode_odd :
  hex_DecodeString "abc" = ([xab], Some (PlainError "encoding/hex: odd length hex string")).
Proof. reflexivity. Qed.

Example hex_decode_invalid :
  hex_DecodeString "12zz34" = ([x12], Some (PlainError "encoding/hex: invalid byte")).
Proof. reflexivity. Qed.

Example HexToAddress_short :
  common.HexToAddress "0x2a" = example_address x2a.
Proof. reflexivity. Qed.

Example IsHexAddress_prefixed :
  common.IsHexAddress "0x000000000000000000000000000000000000002A" = true
  /\ common.IsHexAddress "2a" = false
  /\ common.IsHexAddress "zz0000000000000000000000000000000000002a" = false.
Proof. repeat split; reflexivity. Qed.

Example TrimSpace_both_ends : strings_TrimSpace "  ab c 
" = "ab c".
Proof. reflexivity. Qed.

Example Search_first_true :
  sort_Search 5 (fun i => (3 <=? i)%nat) = 3%nat
  /\ sort_Search 4 (fun _ => false) = 4%nat
  /\ sort_Search 4 (fun _ => true) = 0%nat
  /\ sort_Search 0 (fun _ => true) = 0%nat.
Proof. repeat split; reflexivity. Qed.

Example URL_String :
  accounts.String {| accounts.Scheme := "keystore"; accounts.Path := "/keys/a.json" |}
  = "keystore:///keys/a.json"
  /\ accounts.String {| accounts.Scheme := ""; accounts.Path := "/keys/a.json" |}
     = "/keys/a.json".
Proof. split; reflexivity. Qed.

Example URL_Cmp :
  accounts.Cmp {| accounts.Scheme := "b"; accounts.Path := "a" |}
               {| accounts.Scheme := "a"; accounts.Path := "z" |} = Gt
  /\ accounts.Cmp {| accounts.Scheme := "a"; accounts.Path := "a" |}
                  {| accounts.Scheme := "a"; accounts.Path := "ab" |} = Lt.
Proof. split; reflexivity. Qed.

Example credentials_token_only :
  credentials.getAuthCredentials (<["QRM_HASHIVLT_TOKEN" := "s.token"]> ∅) ""
  = ({| credentials.roleID := ""; credentials.secretID := "";
        credentials.token := "s.token" |}, None).
Proof. vm_compute. reflexivity. Qed.

Example credentials_prefixed :
  credentials.getAuthCredentials (<["QRM_HASHIVLT_TOKEN" := "s.token"]> ∅) "a1"
  = (credentials.zeroCredentials,
     Some (credentials.noHashicorpEnvSetErr "a1_QRM_HASHIVLT_ROLE_ID"
             "a1_QRM_HASHIVLT_SECRET_ID" "a1_QRM_HASHIVLT_TOKEN")).
Proof. vm_compute. reflexivity. Qed.

Example credentials_approle :
  credentials.getAuthCredentials approle_env ""
  = ({| credentials.roleID := "role"; credentials.secretID := "secret";
        credentials.token := "" |}, None).
Proof. vm_compute. reflexivity. Qed.

Example read_one_string :
  manager.getSecretFromVault
    (vault_holding (api.VObject {[ "2a" := api.VString "c0ffee" ]}))
    example_client_manager (example_secret_config "vaultID")
  = Returns "c0ffee".
Proof. vm_compute. reflexivity. Qed.

Example read_two_pairs :
  manager.getSecretFromVault
    (vault_holding (api.VObject (<[ "2a" := api.VString "c0ffee" ]>
                                   {[ "2b" := api.VString "decaf" ]})))
    example_client_manager (example_secret_config "vaultID")
  = Fails (PlainError "only one key/value pair is allowed in each Hashicorp Vault secret").
Proof. vm_compute. reflexivity. Qed.

Example read_empty_map :
  manager.getSecretFromVault (vault_holding (api.VObject ∅))
    example_client_manager (example_secret_config "vaultID")
  = Fails (PlainError "only one key/value pair is allowed in each Hashicorp Vault secret").
Proof. vm_compute. reflexivity. Qed.

Example read_number :
  manager.getSecretFromVault
    (vault_holding (api.VObject {[ "2a" := api.VNumber "7" ]}))
    example_client_manager (example_secret_config "vaultID")
  = Fails (PlainError "Hashicorp Vault response data is not in string format").
Proof. vm_compute. reflexivity. Qed.

Example read_not_a_map :
  manager.getSecretFromVault (vault_holding (api.VString "c0ffee"))
    example_client_manager (example_secret_config "vaultID")
  = Fails (PlainError "Hashicorp Vault response does not contain data").
Proof. vm_compute. reflexivity. Qed.

Example read_no_response :
  manager.getSecretFromVault (fun _ _ _ => (None, None))
    example_client_manager (example_secret_config "vaultID")
  = Fails (PlainError "no data for secret in Hashicorp Vault").
Proof. vm_compute. reflexivity. Qed.

Example read_unknown_auth :
  manager.getSecretFromVault
    (vault_holding (api.VObject {[ "2a" := api.VString "c0ffee" ]}))
    example_client_manager (example_secret_config "other")
  = Fails (PlainError "no client configured for Vault http://vault:8200 and authID other").
Proof. vm_compute. reflexivity. Qed.

Example cache_Add_in_order :
  cache.All example_cache
  = [example_account x01 "/keys/a.json"; example_account x02 "/keys/b.json"]
  /\ cache.bucket (cache.ByAddr example_cache) (example_address x02)
     = [example_account x02 "/keys/b.json"].
Proof. split; vm_compute; reflexivity. Qed.

Example cache_Add_twice :
  cache.Add example_cache (example_account x01 "/keys/a.json") = example_cache.
Proof. vm_compute. reflexivity. Qed.

Example cache_deleteByFile :
  cache.All (cache.deleteByFile example_cache "/keys/a.json")
  = [example_account x02 "/keys/b.json"]
  /\ cache.ByAddr (cache.deleteByFile example_cache "/keys/a.json") !! example_address x01
     = None.
Proof. split; vm_compute; reflexivity. Qed.

Example cache_delete_absent :
  cache.delete example_cache (example_account x03 "/keys/c.json") = example_cache.
Proof. vm_compute. reflexivity. Qed.

Example Find_by_basename :
  cache.Find "/" example_Join example_sort example_cache
    {| accounts.Address := common.zeroAddress;
       accounts.URL_ := {| accounts.Scheme := "keystore"; accounts.Path := "b.json" |} |}
  = inl (example_account x02 "/keys/b.json").
Proof. vm_compute. reflexivity. Qed.

Example Find_ambiguous :
  cache.Find "/" example_Join example_sort example_cache_shared
    {| accounts.Address := example_address x01;
       accounts.URL_ := {| accounts.Scheme := ""; accounts.Path := "" |} |}
  = inr (cache.AmbiguousAddrError (example_address x01)
           [example_account x01 "/keys/a.json"; example_account x01 "/keys/b.json"]).
Proof. vm_compute. reflexivity. Qed.

Example stream_breaks_in_snapshot :
  internal.GetEventStream example_manager (transport_breaks_after 0) []
  = ([], internal.Returned (StatusError Unavailable "transport is closing")).
Proof. reflexivity. Qed.

Example stream_snapshot_then_live :
  internal.GetEventStream example_manager (transport_breaks_after 2)
    [ {| internal.ev_Wallet := example_wallet; internal.ev_Kind := accounts.WalletOpened |};
      {| internal.ev_Wallet := example_wallet; internal.ev_Kind := accounts.WalletDropped |} ]
  = ([ {| proto.WalletEvent := proto.WALLET_ARRIVED;
          proto.WalletUrl := "keystore:///keys/a.json" |};
       {| proto.WalletEvent := proto.WALLET_OPENED;
          proto.WalletUrl := "keystore:///keys/a.json" |} ],
     internal.Returned (StatusError Unavailable "transport is closing")).
Proof. reflexivity. Qed.

End evaluations.

(** ** The wire conversion of accounts *)

Section wire_conversion.

Import common.

(** Each byte is written as two hexadecimal digits that read back as its
    two nibbles. *)
Lemma hex_byte_roundtrip (b : byte) :
  fromHexChar (hexdigit (N.shiftr (Byte.to_N b) 4)) = Some (N.shiftr (Byte.to_N b) 4)
  /\ fromHexChar (hexdigit (N.land (Byte.to_N b) 15)) = Some (N.land (Byte.to_N b) 15)
  /\ byte_of_N (N.lor (N.shiftl (N.shiftr (Byte.to_N b) 4) 4)
                      (N.land (Byte.to_N b) 15)) = b.
Proof. destruct b; vm_compute; auto. Qed.

(** The digits are hexadecimal characters, none is white space, and the
    second one is never the [x] of a [0x] prefix. *)
Lemma hexdigit_props (b : byte) :
  let hi := hexdigit (N.shiftr (Byte.to_N b) 4) in
  let lo := hexdigit (N.land (Byte.to_N b) 15) in
  isHexCharacter hi = true /\ isHexCharacter lo = true
  /\ isSpace hi = false /\ isSpace lo = false
  /\ Ascii.eqb lo "x" = false /\ Ascii.eqb lo "X" = false.
Proof. destruct b; vm_compute; auto 10. Qed.

Lemma Hex2Bytes_Bytes2Hex (d : list byte) : Hex2Bytes (Bytes2Hex d) = d.
Proof.
  unfold Hex2Bytes, Bytes2Hex.
  induction d as [| b d IH]; [reflexivity |].
  cbn [hex_EncodeToString hex_DecodeString].
  destruct (hex_byte_roundtrip b) as (-> & -> & Hb).
  destruct (hex_DecodeString (hex_EncodeToString d)) as [bs err].
  cbn in *. now rewrite Hb, IH.
Qed.

Lemma Bytes2Hex_length (d : list byte) :
  String.length (Bytes2Hex d) = (2 * length d)%nat.
Proof.
  unfold Bytes2Hex. induction d as [| b d IH]; cbn [hex_EncodeToString String.length length].
  - reflexivity.
  - rewrite IH. lia.
Qed.

Lemma Bytes2Hex_allHex (d : list byte) : allHex (Bytes2Hex d) = true.
Proof.
  unfold Bytes2Hex. induction d as [| b d IH]; [reflexivity |].
  cbn [hex_EncodeToString allHex].
  destruct (hexdigit_props b) as (-> & -> & _). exact IH.
Qed.

Lemma Bytes2Hex_no_prefix (d : list byte) : has0xPrefix (Bytes2Hex d) = false.
Proof.
  destruct d as [| b d]; [reflexivity |].
  unfold Bytes2Hex. cbn [hex_EncodeToString has0xPrefix].
  destruct (hexdigit_props b) as (_ & _ & _ & _ & -> & ->).
  apply andb_false_r.
Qed.

(** A string without white space is left as it is by [strings.TrimSpace]. *)
Lemma TrimSpace_noSpace (s : string) : noSpace s = true -> strings_TrimSpace s = s.
Proof.
  intros H. unfold strings_TrimSpace.
  assert (Hl : trimLeft s = s).
  { destruct s as [| c s]; [reflexivity |]. cbn in *.
    destruct (isSpace c); [discriminate | reflexivity]. }
  rewrite Hl. clear Hl.
  induction s as [| c s IH]; [reflexivity |].
  cbn in H. apply andb_true_iff in H as [Hc Hs].
  cbn [trimRight]. rewrite (IH Hs).
  destruct s; [| reflexivity].
  apply negb_true_iff in Hc. now rewrite Hc.
Qed.

Lemma Bytes2Hex_noSpace (d : list byte) : noSpace (Bytes2Hex d) = true.
Proof.
  unfold Bytes2Hex. induction d as [| b d IH]; [reflexivity |].
  cbn [hex_EncodeToString noSpace].
  destruct (hexdigit_props b) as (_ & _ & -> & -> & _). exact IH.
Qed.

Lemma IsHexAddress_Bytes2Hex (d : list byte) :
  length d = AddressLength -> IsHexAddress (Bytes2Hex d) = true.
Proof.
  intros Hlen. unfold IsHexAddress, isHex.
  rewrite Bytes2Hex_no_prefix, Bytes2Hex_length, Hlen, Bytes2Hex_allHex.
  reflexivity.
Qed.

Lemma BytesToAddress_id (d : list byte) :
  length d = AddressLength -> BytesToAddress d = d.
Proof.
  intros Hlen. unfold BytesToAddress. rewrite Hlen.
  rewrite Nat.ltb_irrefl, Hlen, Nat.sub_diag. reflexivity.
Qed.

Lemma HexToAddress_Bytes2Hex (d : list byte) :
  length d = AddressLength -> HexToAddress (Bytes2Hex d) = d.
Proof.
  intros Hlen. unfold HexToAddress, FromHex.
  rewrite Bytes2Hex_no_prefix, Bytes2Hex_length, Hlen.
  replace ((2 * AddressLength) mod 2 =? 1)%nat with false by reflexivity.
  rewrite Hex2Bytes_Bytes2Hex. now apply BytesToAddress_id.
Qed.

End wire_conversion.

(** C10.  An account whose address has the 20 bytes of an address and whose
    URL is read back from its string form by the URL parser survives the
    trip through its protobuf form: [asAccount (asProtoAccount acct)]
    returns [acct]. *)
Theorem asAccount_asProtoAccount
    (utils_ToUrl : string -> outcome accounts.URL) (acct : accounts.Account) :
  length (accounts.Address acct) = common.AddressLength ->
  utils_ToUrl (accounts.String (accounts.URL_ acct)) = Returns (accounts.URL_ acct) ->
  internal.asAccount utils_ToUrl (Some (internal.asProtoAccount acct)) = Returns acct.
Proof.
  intros Hlen Hurl. unfold internal.asAccount, internal.asProtoAccount, common.Bytes.
  cbn [deref mbind outcome_bind bind proto.Address proto.Url].
  rewrite (TrimSpace_noSpace _ (Bytes2Hex_noSpace _)).
  rewrite (IsHexAddress_Bytes2Hex _ Hlen). cbn [negb].
  rewrite Hurl. cbn [mbind outcome_bind bind].
  rewrite (HexToAddress_Bytes2Hex _ Hlen). now destruct acct.
Qed.

Lemma asAccount_asProtoAccount_witness :
  internal.asAccount example_ToUrl
    (Some (internal.asProtoAccount (example_account x2a "/keys/a.json")))
  = Returns (example_account x2a "/keys/a.json").
Proof.
  apply (asAccount_asProtoAccount example_ToUrl (example_account x2a "/keys/a.json")).
  - reflexivity.
  - vm_compute. reflexivity.
Defined.

(** ** Credentials from the environment *)

Section credentials_facts.

Import credentials.

Variable env : gmap string string.
Variable authID : string.

Let roleID_ : string := os_Getenv env (applyPrefix authID DefaultRoleIDEnv).
Let secretID_ : string := os_Getenv env (applyPrefix authID DefaultSecretIDEnv).
Let token_ : string := os_Getenv env (applyPrefix authID DefaultTokenEnv).

(** The three branches of [getAuthCredentials], by the emptiness of the
    three values. *)
Lemma getAuthCredentials_eq :
  getAuthCredentials env authID =
    if String.eqb roleID_ "" && String.eqb secretID_ "" && String.eqb token_ "" then
      (zeroCredentials,
       Some (noHashicorpEnvSetErr (applyPrefix authID DefaultRoleIDEnv)
               (applyPrefix authID DefaultSecretIDEnv)
               (applyPrefix authID DefaultTokenEnv)))
    else if negb (Bool.eqb (String.eqb roleID_ "") (String.eqb secretID_ "")) then
      (zeroCredentials,
       Some (invalidApproleAuthErr (applyPrefix authID DefaultRoleIDEnv)
               (applyPrefix authID DefaultSecretIDEnv)))
    else ({| roleID := roleID_; secretID := secretID_; token := token_ |}, None).
Proof.
  unfold getAuthCredentials. fold roleID_ secretID_ token_.
  destruct (String.eqb roleID_ ""), (String.eqb secretID_ ""), (String.eqb token_ "");
    reflexivity.
Qed.

(** C8, as the code has it.  Reading the credentials succeeds exactly when
    role-id and secret-id are both set, or both are empty and a token is
    set; it fails with the no-credentials error exactly when all three are
    empty, and with the incomplete-AppRole error exactly when one of
    role-id and secret-id is set and the other is not, whether or not a
    token is set.  On failure the credentials returned are the zero value. *)
Theorem getAuthCredentials_spec :
  (getAuthCredentials env authID
     = ({| roleID := roleID_; secretID := secretID_; token := token_ |}, None)
   <-> (roleID_ <> "" /\ secretID_ <> "")
       \/ (roleID_ = "" /\ secretID_ = "" /\ token_ <> ""))
  /\ (getAuthCredentials env authID
        = (zeroCredentials,
           Some (noHashicorpEnvSetErr (applyPrefix authID DefaultRoleIDEnv)
                   (applyPrefix authID DefaultSecretIDEnv)
                   (applyPrefix authID DefaultTokenEnv)))
      <-> roleID_ = "" /\ secretID_ = "" /\ token_ = "")
  /\ (getAuthCredentials env authID
        = (zeroCredentials,
           Some (invalidApproleAuthErr (applyPrefix authID DefaultRoleIDEnv)
                   (applyPrefix authID DefaultSecretIDEnv)))
      <-> (roleID_ = "" /\ secretID_ <> "") \/ (roleID_ <> "" /\ secretID_ = ""))
  /\ (snd (getAuthCredentials env authID) = None
      <-> (roleID_ <> "" /\ secretID_ <> "")
          \/ (roleID_ = "" /\ secretID_ = "" /\ token_ <> "")).
Proof.
  rewrite getAuthCredentials_eq.
  destruct (String.eqb roleID_ "") eqn:Hr, (String.eqb secretID_ "") eqn:Hs,
           (String.eqb token_ "") eqn:Ht;
    cbn [andb negb Bool.eqb snd];
    repeat match goal with
           | H : String.eqb _ _ = true |- _ => apply String.eqb_eq in H
           | H : String.eqb _ _ = false |- _ => apply String.eqb_neq in H
           end;
    repeat split; intros; try discriminate; intuition congruence.
Qed.

End credentials_facts.

(** Against C8 as stated.  With a token and a role-id but no secret-id the
    credentials are complete in the specification's sense, and yet reading
    them fails with the incomplete-AppRole error. *)
Lemma getAuthCredentials_token_and_half_approle :
  ~ (snd (credentials.getAuthCredentials example_env "") = None
     <-> credentials_complete example_env "").
Proof.
  intros [_ H].
  assert (Hc : credentials_complete example_env "").
  { left. vm_compute. discriminate. }
  specialize (H Hc). vm_compute in H. discriminate.
Qed.

(** ** Reading a secret *)

Section secret_shape.

Import api.

(** A Go map of length one holds exactly one key/value pair. *)
Lemma size_one_singleton (m : gmap string value) :
  size m = 1%nat -> exists k v, m = {[k := v]}.
Proof.
  intros Hsize. rewrite <- length_map_to_list in Hsize.
  destruct (map_to_list m) as [| [k v] [| ? ?]] eqn:Hl; try discriminate.
  exists k, v. rewrite <- (list_to_map_to_list m), Hl. reflexivity.
Qed.

(** The narrowing of the [data] field: the string of the single pair, or
    nothing. *)
Lemma narrow_data (respData : gmap string value) (secret : string) :
  (size respData = 1%nat
   /\ fold_left (fun _ d => snd d) (map_to_list respData) VNil = VString secret)
  <-> exists key, respData = {[key := VString secret]}.
Proof.
  split.
  - intros [Hsize Hfold]. destruct (size_one_singleton _ Hsize) as (k & v & ->).
    rewrite map_to_list_singleton in Hfold. cbn in Hfold. subst v. now exists k.
  - intros [key ->]. split; [apply map_size_singleton |].
    now rewrite map_to_list_singleton.
Qed.

End secret_shape.

(** C4.  [getSecretFromVault] returns a secret exactly when the client for
    the auth-ID exists, the read gives a response without error, and the
    response's [data] field is a mapping of exactly one key/value pair
    whose value is that string.  In every other case (no response, no
    [data] field or one that is not a mapping, no or several pairs, a value
    that is not a string, a failed read, no client) it returns an error and
    no secret; it never panics. *)
Theorem getSecretFromVault_exactly_one_string
    (ReadWithData : credentials.authenticatedClient -> string
                    -> gmap string (list string) -> option api.Secret * option error)
    (m : manager.vaultClientManager) (cfg : config.VaultSecretConfig) :
  (forall secret : string,
     manager.getSecretFromVault ReadWithData m cfg = Returns secret
     <-> exists client resp key,
           manager.clients m !! config.AuthID cfg = Some client
           /\ ReadWithData client (credentials.dataPath (config.PathParams_ cfg))
                (credentials.versionQuery (config.PathParams_ cfg)) = (Some resp, None)
           /\ api.Data resp !! "data" = Some (api.VObject {[key := api.VString secret]}))
  /\ ((exists secret, manager.getSecretFromVault ReadWithData m cfg = Returns secret)
      \/ (exists err, manager.getSecretFromVault ReadWithData m cfg = Fails err)).
Proof.
  unfold manager.getSecretFromVault.
  destruct (manager.clients m !! config.AuthID cfg) as [client |] eqn:Hclient.
  2:{ split; [| right; eauto]. intros secret; split; [discriminate |].
      intros (? & ? & ? & ? & _); discriminate. }
  cbv zeta.
  destruct (ReadWithData client _ _) as [resp [err |]] eqn:Hread.
  { split; [| right; eauto]. intros secret; split; [discriminate |].
    intros (c & r & key & Hc & Hr & _). injection Hc as <-. congruence. }
  destruct resp as [resp |].
  2:{ split; [| right; eauto]. intros secret; split; [discriminate |].
      intros (c & r & key & Hc & Hr & _). injection Hc as <-. congruence. }
  assert (Hshape : forall secret c r key,
             Some client = Some c ->
             ReadWithData c (credentials.dataPath (config.PathParams_ cfg))
               (credentials.versionQuery (config.PathParams_ cfg)) = (Some r, None) ->
             api.Data r !! "data" = Some (api.VObject {[key := api.VString secret]}) ->
             api.Data resp !! "data" = Some (api.VObject {[key := api.VString secret]})).
  { intros secret c r key Hc Hr Hd. injection Hc as <-. congruence. }
  destruct (api.Data resp !! "data") as [[| | | | | respData] |] eqn:Hdata;
    try (split; [| right; eauto]; intros secret; split; [discriminate |];
         intros (c & r & key & Hc & Hr & Hd);
         specialize (Hshape _ _ _ _ Hc Hr Hd); discriminate).
  destruct (size respData =? 1)%nat eqn:Hsize; cbn [negb].
  2:{ split; [| right; eauto]. intros secret; split; [discriminate |].
      intros (c & r & key & Hc & Hr & Hd).
      specialize (Hshape _ _ _ _ Hc Hr Hd). injection Hshape as ->.
      rewrite map_size_singleton in Hsize. discriminate. }
  apply Nat.eqb_eq in Hsize.
  split.
  - intros secret. split.
    + intros Hret. exists client, resp.
      destruct (proj1 (narrow_data respData secret)) as [key ->]; [| now exists key].
      split; [exact Hsize |].
      destruct (fold_left _ _ _); congruence.
    + intros (c & r & key & Hc & Hr & Hd).
      specialize (Hshape _ _ _ _ Hc Hr Hd). injection Hshape as ->.
      now rewrite map_to_list_singleton.
  - destruct (fold_left _ _ _); eauto.
Qed.

(** The client manager of [client.go] reads a secret in the same way. *)
Lemma hashicorp_getSecretFromVault_same
    (ReadWithData : credentials.authenticatedClient -> string
                    -> gmap string (list string) -> option api.Secret * option error)
    (vaultAddr acctConfigDir : string)
    (clients : gmap string credentials.authenticatedClient)
    (params : config.PathParams) (authID id : string) (skipCas : bool) (cas : Z) :
  hashicorp.getSecretFromVault ReadWithData
    {| hashicorp.vaultAddr := vaultAddr; hashicorp.clients := clients |}
    {| hashicorp.HashicorpVault :=
         {| hashicorp.PathParams_ := params; hashicorp.AuthID := authID |};
       hashicorp.Id := id |}
  = manager.getSecretFromVault ReadWithData
      {| manager.vaultAddr := vaultAddr; manager.acctConfigDir := acctConfigDir;
         manager.clients := clients |}
      {| config.PathParams_ := params; config.AuthID := authID;
         config.InsecureSkipCas := skipCas; config.CasValue := cas |}.
Proof. reflexivity. Qed.

(** ** The event stream *)

Section event_stream.

Import internal.

Context {Transaction PrivateKey : Type}.
Variable Send_fault :
  list proto.GetEventStreamResponse -> proto.GetEventStreamResponse -> option error.

Lemma send_snapshot_run (wallets : list (Wallet Transaction))
    (stream : list proto.GetEventStreamResponse) :
  sent_prefix Send_fault stream (snapshot_events wallets)
    (fst (send_snapshot Send_fault wallets stream))
    (snd (send_snapshot Send_fault wallets stream)).
Proof.
  revert stream. induction wallets as [| w wallets IH]; intros stream.
  - exists 0%nat. cbn. now rewrite app_nil_r.
  - cbn [send_snapshot]. unfold Send. fold (arrived w).
    destruct (Send_fault stream (arrived w)) as [e |] eqn:Hfault.
    + exists 0%nat. cbn. rewrite app_nil_r. split; [reflexivity |].
      exists (arrived w). now split.
    + destruct (IH (stream ++ [arrived w])%list) as (n & Hstream & Herr).
      exists (S n). split.
      * rewrite Hstream. cbn. now rewrite <- app_assoc.
      * destruct (snd (send_snapshot _ _ _)); cbn; [exact Herr | now f_equal].
Qed.

Lemma forward_events_run (events : list (WalletEvent Transaction))
    (stream : list proto.GetEventStreamResponse) :
  sent_prefix Send_fault stream (map asProtoWalletEvent events)
    (fst (forward_events Send_fault events stream))
    (match snd (forward_events Send_fault events stream) with
     | Returned e => Some e
     | Receiving => None
     end).
Proof.
  revert stream. induction events as [| ev events IH]; intros stream.
  - exists 0%nat. cbn. now rewrite app_nil_r.
  - cbn [forward_events]. unfold Send.
    destruct (Send_fault stream (asProtoWalletEvent ev)) as [e |] eqn:Hfault.
    + exists 0%nat. cbn. rewrite app_nil_r. split; [reflexivity |].
      exists (asProtoWalletEvent ev). now split.
    + destruct (IH (stream ++ [asProtoWalletEvent ev])%list) as (n & Hstream & Herr).
      exists (S n). split.
      * rewrite Hstream. cbn. now rewrite <- app_assoc.
      * destruct (snd (forward_events _ _ _)); cbn; [exact Herr | now f_equal].
Qed.

(** C9.  What [GetEventStream] has sent is always an initial part of: one
    [WALLET_ARRIVED] per wallet held by the backend, in order, followed by
    the events received from the subscription, in order.  So no event of
    the subscription is sent before every wallet of the snapshot has had
    its [WALLET_ARRIVED].  The handler stops only at a message the
    transport refuses, and returns that error; while nothing is refused
    the whole snapshot and then every received event is sent. *)
Theorem GetEventStream_snapshot_first
    (am : HashicorpVaultAccountManager Transaction PrivateKey)
    (events : list (WalletEvent Transaction)) :
  let snapshot := snapshot_events (am_Wallets am) in
  let live := map asProtoWalletEvent events in
  let stream := fst (GetEventStream am Send_fault events) in
  stream = take (length stream) (snapshot ++ live)
  /\ (forall i m, stream !! i = Some m -> (length snapshot <= i)%nat ->
        take (length snapshot) stream = snapshot
        /\ live !! (i - length snapshot)%nat = Some m)
  /\ match snd (GetEventStream am Send_fault events) with
     | Receiving => stream = (snapshot ++ live)%list
     | Returned err =>
         exists m, (snapshot ++ live)%list !! length stream = Some m
                   /\ Send_fault stream m = Some err
     end.
Proof.
  intros snapshot live stream.
  assert (Hrun : exists n,
             stream = take n (snapshot ++ live)
             /\ match snd (GetEventStream am Send_fault events) with
                | Receiving => n = length (snapshot ++ live)%list
                | Returned err =>
                    exists m, (snapshot ++ live)%list !! n = Some m
                              /\ Send_fault stream m = Some err
                end).
  { subst stream. unfold GetEventStream.
    pose proof (send_snapshot_run (am_Wallets am) []) as (n & Hs & He).
    fold snapshot in Hs, He.
    destruct (send_snapshot Send_fault (am_Wallets am) []) as [s1 [e |]];
      cbn [fst snd] in *.
    - destruct He as (m & Hm & Hf). exists n. subst s1. split.
      + cbn. apply lookup_lt_Some in Hm.
        rewrite take_app_le by lia. reflexivity.
      + exists m. split; [| exact Hf].
        rewrite lookup_app_l by (apply lookup_lt_Some in Hm; exact Hm). exact Hm.
    - subst n. rewrite firstn_all in Hs. cbn in Hs. subst s1.
      pose proof (forward_events_run events snapshot) as (k & Hs & He).
      fold live in Hs, He.
      destruct (forward_events Send_fault events snapshot) as [s2 st];
        cbn [fst snd] in *.
      exists (length snapshot + k)%nat. split.
      + rewrite Hs. now rewrite take_app_add.
      + destruct st as [e |].
        * destruct He as (m & Hm & Hf). exists m. split; [| exact Hf].
          rewrite lookup_app_r by lia.
          now replace (length snapshot + k - length snapshot)%nat with k by lia.
        * rewrite length_app. lia. }
  destruct Hrun as (n & Hstream & Hend).
  assert (Hlen : length stream = Nat.min n (length (snapshot ++ live)%list)).
  { rewrite Hstream at 1. apply length_take. }
  split; [| split].
  - rewrite Hlen. rewrite Hstream at 1.
    rewrite <- take_take. now rewrite firstn_all.
  - intros i m Hi Hge. pose proof (lookup_lt_Some _ _ _ Hi) as Hlt.
    rewrite Hstream in Hi |- *. split.
    + rewrite take_take. rewrite Nat.min_l by lia.
      now rewrite take_app_length.
    + rewrite lookup_take_Some in Hi. destruct Hi as [Hi _].
      now rewrite lookup_app_r in Hi by lia.
  - destruct (snd (GetEventStream am Send_fault events)) as [err |].
    + destruct Hend as (m & Hm & Hf). exists m. split; [| exact Hf].
      rewrite Hlen. apply lookup_lt_Some in Hm as Hn.
      now rewrite Nat.min_l by lia.
    + subst n. rewrite Hstream. apply firstn_all.
Qed.

End event_stream.

(** ** The account cache: order and search *)

Section string_order.

Lemma ascii_compare_N (a b : ascii) :
  Ascii.compare a b = N.compare (N_of_ascii a) (N_of_ascii b).
Proof. reflexivity. Qed.

Lemma string_compare_refl (s : string) : String.compare s s = Eq.
Proof.
  induction s as [| c s IH]; [reflexivity |]. cbn.
  rewrite ascii_compare_N, N.compare_refl. exact IH.
Qed.

Lemma string_compare_trans (a b c : string) :
  String.compare a b <> Gt -> String.compare b c <> Gt -> String.compare a c <> Gt.
Proof.
  revert b c. induction a as [| x a IH]; intros [| y b] [| z c]; cbn; try congruence.
  rewrite !ascii_compare_N.
  destruct (N.compare_spec (N_of_ascii x) (N_of_ascii y)),
           (N.compare_spec (N_of_ascii y) (N_of_ascii z)),
           (N.compare_spec (N_of_ascii x) (N_of_ascii z));
    try congruence; try lia.
  apply IH.
Qed.

(** Two strings each no greater than the other are equal. *)
Lemma string_compare_le_antisym (a b : string) :
  String.compare a b <> Gt -> String.compare b a <> Gt -> a = b.
Proof.
  intros Hab Hba. apply String.compare_eq_iff.
  rewrite String.compare_antisym in Hba.
  destruct (String.compare a b); cbn in *; congruence.
Qed.

End string_order.

Section url_order.

Import accounts cache.

Lemma Cmp_antisym (u v : URL) : Cmp u v = CompOpp (Cmp v u).
Proof.
  unfold Cmp, strings_Compare.
  destruct (decide (Scheme u = Scheme v)), (decide (Scheme v = Scheme u));
    try congruence; apply String.compare_antisym.
Qed.

Lemma Cmp_refl (u : URL) : Cmp u u = Eq.
Proof.
  unfold Cmp, strings_Compare.
  destruct (decide (Scheme u = Scheme u)); [| congruence]. apply string_compare_refl.
Qed.

#[global] Instance url_le_refl : Reflexive url_le.
Proof. intros x. unfold url_le. now rewrite Cmp_refl. Qed.

#[global] Instance url_le_trans : Transitive url_le.
Proof.
  intros x y z. unfold url_le, Cmp, strings_Compare.
  destruct (decide (Scheme (URL_ x) = Scheme (URL_ y))) as [Hxy | Hxy],
           (decide (Scheme (URL_ y) = Scheme (URL_ z))) as [Hyz | Hyz],
           (decide (Scheme (URL_ x) = Scheme (URL_ z))) as [Hxz | Hxz];
    try congruence; intros H1 H2.
  - eapply string_compare_trans; eauto.
  - exfalso. apply Hxy. apply string_compare_le_antisym; [exact H1 |].
    now rewrite Hxz.
  - eapply string_compare_trans; eauto.
Qed.

(** [ge0 (Cmp u v)], the test [u.Cmp(v) >= 0], says that [v] comes no later
    than [u]; its failure says that [u] comes no later than [v]. *)
Lemma ge0_Cmp_true (x y : Account) :
  ge0 (Cmp (URL_ x) (URL_ y)) = true -> url_le y x.
Proof.
  unfold url_le. rewrite (Cmp_antisym (URL_ y)).
  destruct (Cmp (URL_ x) (URL_ y)); cbn; congruence.
Qed.

Lemma ge0_Cmp_false (x y : Account) :
  ge0 (Cmp (URL_ x) (URL_ y)) = false -> url_le x y.
Proof. unfold url_le. destruct (Cmp (URL_ x) (URL_ y)); cbn; congruence. Qed.

End url_order.

Section binary_search.

Variable f : nat -> bool.
Variable n : nat.

Lemma search_loop_spec (fuel i j : nat) :
  (i <= j)%nat -> (j <= n)%nat -> (j - i <= fuel)%nat -> below f i -> above f n j ->
  let r := search_loop fuel f i j in
  (r <= n)%nat /\ below f r /\ above f n r.
Proof.
  revert i j. induction fuel as [| fuel IH]; intros i j Hij Hjn Hfuel Hi Hj;
    cbn [search_loop]; cbv zeta.
  - assert (i = j) by lia. subst. auto.
  - destruct (Nat.ltb_spec i j) as [Hlt | Hge].
    + assert (Hh : (i <= Nat.shiftr (i + j) 1 < j)%nat).
      { rewrite Nat.shiftr_div_pow2. change (2 ^ 1)%nat with 2%nat.
        split.
        - apply Nat.div_le_lower_bound; lia.
        - apply Nat.Div0.div_lt_upper_bound; lia. }
      destruct (f (Nat.shiftr (i + j) 1)) eqn:Hf; cbn [negb].
      * apply IH; try lia; [exact Hi | right; exact Hf].
      * apply IH; try lia; [| exact Hj].
        right. now replace (Nat.shiftr (i + j) 1 + 1 - 1)%nat with (Nat.shiftr (i + j) 1) by lia.
    + assert (i = j) by lia. subst. auto.
Qed.

Lemma sort_Search_spec :
  let r := sort_Search n f in
  (r <= n)%nat /\ below f r /\ above f n r.
Proof.
  unfold sort_Search. apply search_loop_spec; try lia; [now left | now left].
Qed.

End binary_search.

(** ** The account cache: the two views agree *)

Section cache_views.

Import accounts cache.

Lemma sorted_lookup_le (l : list Account) (i j : nat) (x y : Account) :
  StronglySorted url_le l -> (i <= j)%nat ->
  l !! i = Some x -> l !! j = Some y -> url_le x y.
Proof.
  intros Hs. revert i j. induction Hs as [| a l Hs IH Hall]; intros i j Hij Hi Hj.
  - discriminate.
  - destruct i as [| i], j as [| j]; cbn in Hi, Hj; try lia.
    + injection Hi as <-. injection Hj as <-. apply url_le_refl.
    + injection Hi as <-. rewrite Forall_forall in Hall.
      apply Hall. eapply list_elem_of_lookup_2; eauto.
    + eapply (IH i j); eauto. lia.
Qed.

(** Inserting at the index found by [sort.Search] keeps the order. *)
Lemma insert_sorted (l : list Account) (new : Account) :
  StronglySorted url_le l ->
  let i := sort_Search (length l)
             (fun i => match l !! i with
                       | Some a => ge0 (Cmp (URL_ a) (URL_ new))
                       | None => false
                       end) in
  StronglySorted url_le (take i l ++ new :: drop i l).
Proof.
  intros Hs i.
  destruct (sort_Search_spec
              (fun i => match l !! i with
                        | Some a => ge0 (Cmp (URL_ a) (URL_ new))
                        | None => false
                        end) (length l)) as (Hle & Hbelow & Habove).
  fold i in Hle, Hbelow, Habove.
  assert (Hbefore : forall x, x ∈ take i l -> url_le x new).
  { intros x Hx. apply list_elem_of_lookup in Hx as [k Hk].
    apply lookup_take_Some in Hk as [Hk Hki].
    destruct Hbelow as [-> | Hf]; [lia |].
    destruct (l !! (i - 1)%nat) as [y |] eqn:Hy.
    - transitivity y.
      + eapply (sorted_lookup_le l k (i - 1)); eauto. lia.
      + now apply ge0_Cmp_false.
    - apply lookup_ge_None in Hy. lia. }
  assert (Hafter : forall y, y ∈ drop i l -> url_le new y).
  { intros y Hy. apply list_elem_of_lookup in Hy as [k Hk].
    rewrite lookup_drop in Hk.
    destruct Habove as [Hi | Hf].
    - apply lookup_lt_Some in Hk. lia.
    - destruct (l !! i) as [z |] eqn:Hz; [| discriminate].
      transitivity z.
      + now apply ge0_Cmp_true.
      + eapply (sorted_lookup_le l i (i + k)); eauto. lia. }
  rewrite <- (take_drop i l) in Hs.
  apply StronglySorted_app in Hs as (Hcross & Hs1 & Hs2).
  apply StronglySorted_app_2; [| exact Hs1 |].
  - intros x1 x2 Hx1 Hx2. apply elem_of_cons in Hx2 as [-> | Hx2]; auto.
  - constructor; [exact Hs2 |]. apply Forall_forall. exact Hafter.
Qed.

Lemma removeAccount_sublist (l : list Account) (x : Account) :
  sublist (removeAccount l x) l.
Proof.
  induction l as [| a l IH]; cbn; [constructor |].
  destruct (decide (a = x)).
  - now apply sublist_cons.
  - now apply sublist_skip.
Qed.

Lemma sorted_sublist (l k : list Account) :
  sublist k l -> StronglySorted url_le l -> StronglySorted url_le k.
Proof.
  intros Hsub Hs. revert k Hsub.
  induction Hs as [| a l Hs IH Hall]; intros k Hsub.
  - apply sublist_nil_r in Hsub. subst. constructor.
  - apply sublist_cons_r in Hsub as [Hsub | (k' & -> & Hsub)]; [auto |].
    constructor; [auto |].
    rewrite Forall_forall in Hall |- *. intros y Hy. apply Hall.
    eapply elem_of_sublist; eauto.
Qed.

(** Removing the first occurrence of [x]: as a multiset operation. *)
Lemma removeAccount_elem (l : list Account) (x : Account) :
  x ∈ l -> l ≡ₚ x :: removeAccount l x.
Proof.
  induction l as [| a l IH]; intros Hx; [now apply elem_of_nil in Hx |].
  cbn. destruct (decide (a = x)) as [-> | Hne]; [reflexivity |].
  apply elem_of_cons in Hx as [-> | Hx]; [congruence |].
  rewrite (IH Hx) at 1. apply Permutation_swap.
Qed.

Lemma removeAccount_not_elem (l : list Account) (x : Account) :
  x ∉ l -> removeAccount l x = l.
Proof.
  induction l as [| a l IH]; intros Hx; [reflexivity |].
  cbn. apply not_elem_of_cons in Hx as [Hne Hx].
  destruct (decide (a = x)); [congruence |]. now rewrite IH.
Qed.

Lemma removeAccount_Permutation (l k : list Account) (x : Account) :
  l ≡ₚ k -> removeAccount l x ≡ₚ removeAccount k x.
Proof.
  intros Hp. destruct (decide (x ∈ l)) as [Hx | Hx].
  - apply (Permutation_cons_inv (a:=x)).
    rewrite <- (removeAccount_elem l x Hx).
    rewrite <- (removeAccount_elem k x) by now rewrite <- Hp.
    exact Hp.
  - rewrite (removeAccount_not_elem l x Hx).
    rewrite (removeAccount_not_elem k x) by now rewrite <- Hp.
    exact Hp.
Qed.

Lemma with_address_removeAccount (k : common.Address) (l : list Account) (x : Account) :
  with_address k (removeAccount l x)
  = if decide (Address x = k) then removeAccount (with_address k l) x
    else with_address k l.
Proof.
  unfold with_address. induction l as [| a l IH]; cbn [removeAccount].
  - now destruct (decide (Address x = k)).
  - destruct (decide (a = x)) as [-> | Hne].
    + rewrite filter_cons. destruct (decide (Address x = k)) as [Hk | Hk].
      * cbn [removeAccount]. now destruct (decide (x = x)).
      * reflexivity.
    + rewrite !filter_cons. destruct (decide (Address a = k)) as [Ha | Ha].
      * rewrite IH. destruct (decide (Address x = k)); [| reflexivity].
        cbn [removeAccount]. now destruct (decide (a = x)).
      * exact IH.
Qed.

(** The bucket of [k] after [unindex]. *)
Lemma bucket_unindex (m : gmap common.Address (list Account)) (removed : Account)
    (k : common.Address) :
  bucket (unindex m removed) k
  = if decide (Address removed = k) then removeAccount (bucket m k) removed
    else bucket m k.
Proof.
  unfold unindex.
  destruct (Nat.eqb_spec (length (removeAccount (bucket m (Address removed)) removed)) 0)
    as [Hlen | Hlen];
    destruct (decide (Address removed = k)) as [<- | Hk]; unfold bucket at 1.
  - rewrite lookup_delete_eq. cbn.
    symmetry. now apply length_zero_iff_nil.
  - now rewrite lookup_delete_ne.
  - now rewrite lookup_insert_eq.
  - now rewrite lookup_insert_ne.
Qed.

(** Removing an account from both views keeps them in agreement, whichever
    occurrence is taken out of [All]. *)
Lemma unindex_consistent (ac : AccountCache) (removed : Account) (all : list Account) :
  consistent ac ->
  sublist all (All ac) ->
  all ≡ₚ removeAccount (All ac) removed ->
  consistent {| keydir := keydir ac; All := all;
                ByAddr := unindex (ByAddr ac) removed |}.
Proof.
  intros [Hs Hb] Hsub Hperm. split; cbn [All ByAddr].
  - eapply sorted_sublist; eauto.
  - intros k. rewrite bucket_unindex. unfold with_address at 1. rewrite Hperm.
    fold (with_address k (removeAccount (All ac) removed)).
    rewrite with_address_removeAccount.
    destruct (decide (Address removed = k)); [| apply Hb].
    apply removeAccount_Permutation, Hb.
Qed.

Lemma Add_consistent (ac : AccountCache) (a : Account) :
  consistent ac -> consistent (Add ac a).
Proof.
  intros [Hs Hb]. unfold Add.
  set (i := sort_Search _ _).
  destruct ((i <? length (All ac))%nat && bool_decide (All ac !! i = Some a));
    [now split |].
  split; cbn [All ByAddr].
  - now apply insert_sorted.
  - intros k.
    assert (Hall : (take i (All ac) ++ a :: drop i (All ac))%list ≡ₚ a :: All ac).
    { rewrite <- Permutation_middle. now rewrite take_drop. }
    unfold with_address. rewrite Hall, filter_cons.
    unfold bucket at 1.
    destruct (decide (Address a = k)) as [<- | Hk].
    + rewrite lookup_insert_eq. cbn [default].
      rewrite <- Permutation_cons_append. constructor. apply Hb.
    + rewrite lookup_insert_ne by exact Hk. apply Hb.
Qed.

Lemma delete_consistent (ac : AccountCache) (a : Account) :
  consistent ac -> consistent (cache.delete ac a).
Proof.
  intros Hc. unfold cache.delete.
  apply unindex_consistent; [exact Hc | apply removeAccount_sublist | reflexivity].
Qed.

Lemma deleteByFile_consistent (ac : AccountCache) (path : string) :
  consistent ac -> consistent (deleteByFile ac path).
Proof.
  intros Hc. unfold deleteByFile.
  set (i := sort_Search _ _).
  destruct (All ac !! i) as [removed |] eqn:Hi; [| exact Hc].
  destruct (decide (Path (URL_ removed) = path)); [| exact Hc].
  apply unindex_consistent; [exact Hc | |].
  - rewrite <- (take_drop i (All ac)) at 3.
    apply sublist_app; [reflexivity |].
    rewrite (drop_S _ _ _ Hi). now apply sublist_cons.
  - apply (Permutation_cons_inv (a:=removed)).
    rewrite <- removeAccount_elem by (eapply list_elem_of_lookup_2; eauto).
    rewrite Permutation_middle, <- (drop_S _ _ _ Hi), take_drop. reflexivity.
Qed.

Lemma run_consistent (ops : list op) (ac : AccountCache) :
  consistent ac -> consistent (run ops ac).
Proof.
  revert ac. unfold run.
  induction ops as [| o ops IH]; intros ac Hc; [exact Hc |].
  cbn. apply IH. destruct o; cbn.
  - now apply Add_consistent.
  - now apply delete_consistent.
  - now apply deleteByFile_consistent.
Qed.

End cache_views.

(** C6.  After any sequence of [Add], [delete] and [deleteByFile] from the
    empty cache, [All] is sorted by URL, every account of [All] is in the
    [ByAddr] bucket of its address, and every account of every [ByAddr]
    bucket is in [All]. *)
Theorem cache_views_agree (keydir : string) (ops : list cache.op) :
  let ac := cache.run ops (cache.NewAccountCache keydir) in
  StronglySorted cache.url_le (cache.All ac)
  /\ (forall a, a ∈ cache.All ac ->
        a ∈ cache.bucket (cache.ByAddr ac) (accounts.Address a))
  /\ (forall k l a, cache.ByAddr ac !! k = Some l -> a ∈ l -> a ∈ cache.All ac).
Proof.
  intros ac.
  assert (Hc : consistent ac).
  { apply run_consistent. split; [constructor |]. intros k.
    unfold cache.bucket. cbn. now rewrite lookup_empty. }
  destruct Hc as [Hs Hb]. split; [exact Hs | split].
  - intros a Ha. rewrite (Hb (accounts.Address a)).
    apply list_elem_of_filter. now split.
  - intros k l a Hl Ha.
    assert (Hin : a ∈ with_address k (cache.All ac)).
    { rewrite <- (Hb k). unfold cache.bucket. now rewrite Hl. }
    now apply list_elem_of_filter in Hin as [_ Hin].
Qed.

(** ** Finding an account *)

Section find_facts.

Import accounts cache.

Variable Separator : ascii.
Variable filepath_Join : string -> string -> string.
Variable sort_Sort : list Account -> list Account.

(** [sort.Sort] over [AccountsByURL] rearranges the slice into URL order. *)
Hypothesis sort_Sort_Permutation : forall l, sort_Sort l ≡ₚ l.
Hypothesis sort_Sort_sorted : forall l, StronglySorted url_le (sort_Sort l).

Lemma by_count_by_number (a : Account) (matches : list Account) :
  by_number matches a (by_count sort_Sort a matches).
Proof.
  destruct matches as [| m [| m' rest]]; cbn; [reflexivity | reflexivity |].
  eexists. split; [reflexivity |]. split; [apply sort_Sort_Permutation | apply sort_Sort_sorted].
Qed.

Lemma find_head_filter (url : URL) (l : list Account) :
  List.find (fun m => bool_decide (URL_ m = url)) l
  = head (filter (fun m => URL_ m = url) l).
Proof.
  induction l as [| x l IH]; [reflexivity |].
  cbn [List.find]. rewrite filter_cons.
  destruct (decide (URL_ x = url)) as [Hx | Hx].
  - now rewrite bool_decide_eq_true_2.
  - now rewrite bool_decide_eq_false_2.
Qed.

(** C5, as the code has it.  The candidates of a specifier are the accounts
    with its address when that is not zero, and all accounts otherwise.
    (1) When a path is given and some candidate has exactly the completed
    URL, [Find] returns the first such candidate.  (2) When a path is
    given, no candidate has that URL and the address is zero, [Find]
    returns the no-match error, however many candidates there are.
    (3) In every other case the number of candidates decides: one is
    returned, none is the no-match error, and two or more give the
    ambiguous-address error that lists exactly the candidates, sorted by
    URL. *)
Theorem Find_spec (ac : AccountCache) (a : Account) :
  let result := Find Separator filepath_Join sort_Sort ac a in
  (forall m, Path (URL_ a) <> "" -> head (exact_matches Separator filepath_Join ac a) = Some m -> result = inl m)
  /\ (Path (URL_ a) <> "" -> exact_matches Separator filepath_Join ac a = [] -> Address a = common.zeroAddress ->
      result = inr ErrNoMatch)
  /\ (Path (URL_ a) = "" \/ (exact_matches Separator filepath_Join ac a = [] /\ Address a <> common.zeroAddress) ->
      by_number (candidates ac a) a result).
Proof.
  cbv zeta. unfold Find.
  fold (candidates ac a). fold (completed Separator filepath_Join ac a). cbn [URL_ Address].
  rewrite find_head_filter. fold (exact_matches Separator filepath_Join ac a).
  destruct (decide (Path (URL_ a) <> "")) as [Hpath | Hpath].
  - split; [| split].
    + intros m _ ->. reflexivity.
    + intros _ -> Hzero. cbn [head]. now destruct (decide _).
    + intros [Hempty | [-> Hnz]]; [congruence |].
      cbn [head]. destruct (decide _); [congruence |].
      apply (by_count_by_number {| Address := Address a; URL_ := completed Separator filepath_Join ac a |}).
  - split; [| split]; [intros; contradiction | intros; contradiction |].
    intros _. apply by_count_by_number.
Qed.

End find_facts.

Section find_examples.

Import accounts cache.

#[global] Instance url_le_total : Total url_le.
Proof.
  intros x y. unfold url_le. rewrite (Cmp_antisym (URL_ y)).
  destruct (Cmp (URL_ x) (URL_ y)); cbn; [left | left | right]; congruence.
Qed.

(** Against C5 as stated.  The count of matches does not decide the result
    when a path is given that no account has, whether or not the path takes
    part in the matching.  With the zero address there are two candidates and no
    exact match, and [Find] reports no match where the count asks for the
    ambiguous-address error.  With the address of one account, that
    account is returned although it does not have the path: were the path
    part of the matching, nothing would match and the count would ask for
    the no-match error. *)
Lemma Find_count_does_not_decide :
  let any := {| Address := common.zeroAddress; URL_ := missing_file |} in
  let one := {| Address := example_address x01; URL_ := missing_file |} in
  (candidates example_cache any
     = [example_account x01 "/keys/a.json"; example_account x02 "/keys/b.json"]
   /\ exact_matches "/" example_Join example_cache any = []
   /\ ~ by_number (candidates example_cache any) any
          (Find "/" example_Join example_sort example_cache any))
  /\ (exact_matches "/" example_Join example_cache one = []
      /\ ~ by_number (exact_matches "/" example_Join example_cache one) one
             (Find "/" example_Join example_sort example_cache one)).
Proof.
  cbv zeta. split; [split; [| split] | split].
  - vm_compute. reflexivity.
  - vm_compute. reflexivity.
  - replace (Find _ _ _ _ _) with (@inr Account findError ErrNoMatch)
      by (vm_compute; reflexivity).
    replace (candidates _ _)
      with [example_account x01 "/keys/a.json"; example_account x02 "/keys/b.json"]
      by (vm_compute; reflexivity).
    intros (matches & Heq & _). discriminate.
  - vm_compute. reflexivity.
  - replace (Find _ _ _ _ _)
      with (@inl Account findError (example_account x01 "/keys/a.json"))
      by (vm_compute; reflexivity).
    replace (exact_matches _ _ _ _) with (@nil Account) by (vm_compute; reflexivity).
    cbn. discriminate.
Qed.

Lemma Find_spec_witness :
  let a := {| Address := example_address x01;
              URL_ := {| Scheme := ""; Path := "" |} |} in
  by_number (candidates example_cache_shared a) a
    (Find "/" example_Join example_sort example_cache_shared a).
Proof.
  cbv zeta.
  apply (Find_spec "/" example_Join example_sort).
  - intros l. apply merge_sort_Permutation.
  - intros l. apply StronglySorted_merge_sort; typeclasses eauto.
  - left. reflexivity.
Defined.

End find_examples.

(** ** Panics *)

(** C1 at the client manager of [client.go].  [StoreKey] and [JoinPath] are
    not implemented: whatever the arguments, each call panics. *)
Theorem hashicorp_StoreKey_JoinPath_panic
    (m : hashicorp.vaultClientManager) (filename : string)
    (k : option hashicorp.Key) (auth : string) :
  hashicorp.StoreKey m filename k auth = Panics "implement me"
  /\ hashicorp.JoinPath m filename = Panics "implement me".
Proof. split; reflexivity. Qed.

Section adapter_facts.

Import internal.

Context {Transaction PrivateKey : Type}.
Variable rlp_DecodeBytes : list byte -> outcome Transaction.
Variable rlp_EncodeToBytes : Transaction -> outcome (list byte).
Variable crypto_HexToECDSA : string -> outcome PrivateKey.
Variable utils_ToUrl : string -> outcome accounts.URL.
Variable am : HashicorpVaultAccountManager Transaction PrivateKey.

(** A request that leaves its account out reaches [asAccount] as a nil
    pointer, and the first field access panics; [Lock] and [TimedUnlock]
    start with that conversion. *)
Lemma asAccount_nil_panics : asAccount utils_ToUrl None = Panics nil_dereference.
Proof. reflexivity. Qed.

Lemma Lock_without_account_panics :
  Lock utils_ToUrl am None = Panics nil_dereference
  /\ forall pass d, TimedUnlock utils_ToUrl am None pass d = Panics nil_dereference.
Proof. split; reflexivity. Qed.

(** ** Error codes of the handlers *)

Lemma wrap_coded {A B : Type} (r : outcome A) (k : A -> outcome B) :
  (forall a, coded (k a)) -> coded (wrap Internal r ≫= k).
Proof.
  intros Hk e. destruct r as [a | e' | msg]; cbn.
  - apply Hk.
  - intros [= <-]. eexists. reflexivity.
  - discriminate.
Qed.

Lemma deref_coded {A B : Type} (p : option A) (k : A -> outcome B) :
  (forall a, coded (k a)) -> coded (deref p ≫= k).
Proof. intros Hk e. destruct p as [a |]; cbn; [apply Hk | discriminate]. Qed.

Lemma Returns_coded {A : Type} (a : A) : coded (Returns a).
Proof. intros e. discriminate. Qed.

Ltac solve_coded :=
  repeat first [ apply Returns_coded
               | apply wrap_coded; intros
               | apply deref_coded; intros
               | match goal with |- coded (let '(_, _) := ?r in _) => destruct r end ].

(** X25.  Every handler but the two transaction signers wraps each error
    it returns in a status with code [Internal]. *)
Lemma handlers_coded :
  (forall url, coded (Status am url))
  /\ (forall url pass, coded (Open am url pass))
  /\ (forall url, coded (Close am url))
  /\ (forall url, coded (Accounts am url))
  /\ (forall url acct, coded (Contains utils_ToUrl am url acct))
  /\ (forall url acct hash, coded (SignHash utils_ToUrl am url acct hash))
  /\ (forall url acct pass hash,
        coded (SignHashWithPassphrase utils_ToUrl am url acct pass hash))
  /\ (forall acct pass d, coded (TimedUnlock utils_ToUrl am acct pass d))
  /\ (forall acct, coded (Lock utils_ToUrl am acct))
  /\ (forall nva, coded (NewAccount am nva))
  /\ (forall key nva, coded (ImportRawKey crypto_HexToECDSA am key nva)).
Proof.
  repeat split; intros;
    unfold Status, Open, Close, Accounts, Contains, SignHash, SignHashWithPassphrase,
      TimedUnlock, Lock, NewAccount, ImportRawKey; solve_coded.
Qed.

(** In [SignTx] and [SignTxWithPassphrase] every error before the final
    encoding is wrapped in the same way, and the error of the encoder is
    returned as the encoder made it. *)
Lemma SignTx_errors (url : string) (acct : option proto.Account)
    (rlpTx chainID : list byte) (e : error) :
  SignTx rlp_DecodeBytes rlp_EncodeToBytes utils_ToUrl am url acct rlpTx chainID = Fails e ->
  (exists msg, e = StatusError Internal msg)
  \/ (exists tx, rlp_EncodeToBytes tx = Fails e).
Proof.
  unfold SignTx.
  destruct (am_Wallet am url) as [w | ? | ?]; cbn; [| intros [= <-]; eauto | discriminate].
  destruct (asAccount utils_ToUrl acct) as [a | ? | ?]; cbn;
    [| intros [= <-]; eauto | discriminate].
  destruct (rlp_DecodeBytes rlpTx) as [tx | ? | ?]; cbn;
    [| intros [= <-]; eauto | discriminate].
  destruct (w_SignTx w a tx (SetBytes chainID)) as [signed | ? | ?]; cbn;
    [| intros [= <-]; eauto | discriminate].
  destruct (rlp_EncodeToBytes signed) as [bs | e' | ?] eqn:Henc; cbn;
    [discriminate | intros [= <-]; eauto | discriminate].
Qed.

End adapter_facts.

(** C2 at every input.  [Init] hands [conf] to [json.Unmarshal] as a value,
    which [json.Unmarshal] refuses whatever the bytes are; so [Init] returns
    an [InvalidArgument] error for every configuration, also for one that
    decodes, validates and builds an account manager. *)
Theorem Init_always_InvalidArgument
    (VaultClients AccountManagerServer : Type) (zeroVaultClients : VaultClients)
    (checkValid : list byte -> option error)
    (decode : list byte -> VaultClients -> outcome VaultClients)
    (Validate : VaultClients -> outcome unit)
    (NewAccountManager : VaultClients -> outcome AccountManagerServer)
    (fmt_Sprintf : string -> string) (RawConfiguration : list byte) :
  exists msg,
    internal.Init VaultClients AccountManagerServer zeroVaultClients checkValid decode
      Validate NewAccountManager fmt_Sprintf RawConfiguration
    = Fails (StatusError InvalidArgument msg).
Proof.
  unfold internal.Init, json_Unmarshal.
  destruct (checkValid RawConfiguration); cbn; eexists; reflexivity.
Qed.

(** ** The handlers at three requests *)

Section handler_examples.

Import internal.

(** C3 at three requests.  [SignTx] and [SignTxWithPassphrase] return the
    encoder's error as it is, a plain error without a gRPC code, and
    [GetEventStream] returns the error of the refused send, whose code is
    neither [Internal] nor [InvalidArgument]. *)
Theorem SignTx_returns_uncoded_error :
  SignTx example_decode example_encode example_ToUrl example_manager
    "keystore:///keys/a.json" example_request_account [x01] [x01]
  = Fails (PlainError "rlp: cannot encode negative big.Int")
  /\ SignTxWithPassphrase example_decode example_encode example_ToUrl example_manager
       "keystore:///keys/a.json" example_request_account "pass" [x01] [x01]
     = Fails (PlainError "rlp: cannot encode negative big.Int")
  /\ snd (GetEventStream example_manager transport_closed [])
     = Returned (StatusError Unavailable "transport is closing").
Proof. repeat split; vm_compute; reflexivity. Qed.

End handler_examples.

(** ** Renewal and re-authentication *)

Section renewal.

Import credentials.

Lemma sleeps_app (t1 t2 : list effect) : sleeps (t1 ++ t2) = (sleeps t1 ++ sleeps t2)%list.
Proof.
  induction t1 as [| e t1 IH]; [reflexivity |].
  destruct e; cbn; now rewrite ?IH.
Qed.

Lemma reauthenticate_authConfig (w : world) (ac : authenticatedClient) :
  authConfig (fst (manager.reauthenticate w ac)) = authConfig ac.
Proof.
  unfold manager.reauthenticate.
  destruct (getAuthCredentials _ _) as [creds [e |]]; [reflexivity |].
  destruct (approleLogin _ _ _) as [resp [e |]]; [reflexivity |].
  destruct (api.TokenID resp) as [t [e |]]; [reflexivity |].
  destruct (api.NewRenewer resp) as [r [e |]]; reflexivity.
Qed.

(** The retry loop of [manager.renew]: as long as the attempts are
    refused it goes on, sleeping [reauthRetryInterval] after each. *)
Lemma reauth_loop_refused (worlds : list world) (i : nat) (ac : authenticatedClient)
    (trace : list effect) :
  Forall (refused (authConfig ac)) worlds ->
  exists ac' trace',
    manager.reauth_loop i worlds ac trace = (ac', trace', None)
    /\ authConfig ac' = authConfig ac
    /\ sleeps trace'
       = (sleeps trace ++ repeat manager.reauthRetryInterval (length worlds))%list.
Proof.
  revert i ac trace. induction worlds as [| w worlds IH]; intros i ac trace Hall.
  - exists ac, trace. cbn. now rewrite app_nil_r.
  - apply Forall_cons in Hall as [Hw Hall]. cbn [manager.reauth_loop].
    pose proof (reauthenticate_authConfig w ac) as Hcfg.
    specialize (Hw ac eq_refl).
    destruct (manager.reauthenticate w ac) as [ac1 [e |]]; [| cbn in Hw; congruence].
    cbn [fst] in Hcfg.
    destruct (IH (S i) ac1
                (trace ++ [LogError ("unable to reauthenticate with Vault (attempt "
                                     ++ pretty i ++ ")") e;
                           Sleep manager.reauthRetryInterval])%list)
      as (ac' & trace' & Hrun & Hcfg' & Hsleeps).
    { now rewrite Hcfg. }
    exists ac', trace'. split; [exact Hrun |]. split; [congruence |].
    rewrite Hsleeps, sleeps_app. cbn. now rewrite <- app_assoc.
Qed.

(** ... and it ends at the first attempt that is accepted. *)
Lemma reauth_loop_accepted (failing : list world) (good : world) (rest : list world)
    (i : nat) (ac : authenticatedClient) (trace : list effect) :
  Forall (refused (authConfig ac)) failing ->
  accepted (authConfig ac) good ->
  exists ac' trace',
    manager.reauth_loop i (failing ++ good :: rest) ac trace = (ac', trace', Some rest)
    /\ sleeps trace'
       = (sleeps trace ++ repeat manager.reauthRetryInterval (length failing))%list.
Proof.
  revert i ac trace. induction failing as [| w failing IH]; intros i ac trace Hall Hgood.
  - cbn [app manager.reauth_loop]. specialize (Hgood ac eq_refl).
    destruct (manager.reauthenticate good ac) as [ac1 [e |]]; [discriminate |].
    eexists _, _. split; [reflexivity |].
    rewrite sleeps_app. cbn. reflexivity.
  - apply Forall_cons in Hall as [Hw Hall].
    cbn [app manager.reauth_loop].
    pose proof (reauthenticate_authConfig w ac) as Hcfg.
    specialize (Hw ac eq_refl).
    destruct (manager.reauthenticate w ac) as [ac1 [e |]]; [| cbn in Hw; congruence].
    cbn [fst] in Hcfg.
    destruct (IH (S i) ac1
                (trace ++ [LogError ("unable to reauthenticate with Vault (attempt "
                                     ++ pretty i ++ ")") e;
                           Sleep manager.reauthRetryInterval])%list)
      as (ac' & trace' & Hrun & Hsleeps).
    { now rewrite Hcfg. }
    { now rewrite Hcfg. }
    exists ac', trace'. split; [exact Hrun |].
    rewrite Hsleeps, sleeps_app. cbn. now rewrite <- app_assoc.
Qed.

(** The loop of [client.go] never sleeps. *)
Lemma hashicorp_renew_never_sleeps (events : list renewal) (worlds : list world)
    (ac : authenticatedClient) (trace : list effect) :
  sleeps (snd (fst (hashicorp.renew_loop events worlds ac trace))) = sleeps trace.
Proof.
  revert worlds ac trace.
  induction events as [| [err |] events IH]; intros worlds ac trace; cbn [hashicorp.renew_loop].
  - reflexivity.
  - destruct worlds as [| w worlds].
    + destruct err; cbn; rewrite ?sleeps_app; cbn; now rewrite ?app_nil_r.
    + unfold hashicorp.reauth_once.
      destruct (getAuthCredentials _ _) as [creds e1].
      destruct (approleLogin _ _ _) as [resp e2].
      destruct (api.TokenID resp) as [t e3].
      rewrite IH. rewrite sleeps_app.
      destruct err, e1, e2, e3; cbn; rewrite ?sleeps_app; cbn;
        now rewrite ?app_nil_r.
  - rewrite IH, sleeps_app. cbn. now rewrite app_nil_r.
Qed.

(** C7 at a renewal that ends while the Vault is down.  The [renew] of
    [client.go] makes one attempt: it logs the failure, installs the empty
    token, restarts the old renewer and goes back to the [select], without
    sleeping and without trying again, although the next attempt would
    have been accepted. *)
Theorem hashicorp_renew_gives_up_after_one_attempt :
  hashicorp.renew example_session [DoneCh None] [vault_down; vault_up]
  = ({| client_token := "";
        renewer := renewer example_session;
        authConfig := authConfig example_session |},
     [GoRenew (renewer example_session);
      LogError "Vault re-authentication failed" (PlainError "connection refused");
      GoRenew (renewer example_session)],
     Selecting).
Proof. vm_compute. reflexivity. Qed.

(** The [renew] of [internal/manager] on the same input sleeps 5 s after
    the refused attempt, tries again and installs the new token. *)
Lemma manager_renew_retries :
  manager.renew example_session [DoneCh None] [vault_down; vault_up]
  = ({| client_token := "s.new";
        renewer := Some {| api.secret := example_lease "s.new" |};
        authConfig := authConfig example_session |},
     [GoRenew (renewer example_session);
      LogDebug "renewal of Vault auth token failed, attempting re-authentication";
      LogError "unable to reauthenticate with Vault (attempt 1)"
        (PlainError "connection refused");
      Sleep 5000000000;
      LogDebug "successfully re-authenticated with Vault";
      GoRenew (Some {| api.secret := example_lease "s.new" |})],
     Selecting).
Proof. vm_compute. reflexivity. Qed.

End renewal.

(* ===================================================================== *)
(** * Further properties of the account cache                             *)
(* ===================================================================== *)

Section cache_more.

Import accounts cache.

Lemma Cmp_Eq (u v : URL) : Cmp u v = Eq -> u = v.
Proof.
  unfold Cmp, strings_Compare. destruct u as [su pu], v as [sv pv]. cbn.
  destruct (decide (su = sv)) as [-> | Hne]; intros H.
  - apply String.compare_eq_iff in H. now subst.
  - apply String.compare_eq_iff in H. contradiction.
Qed.

Lemma url_le_antisym (x y : Account) : url_le x y -> url_le y x -> URL_ x = URL_ y.
Proof.
  unfold url_le. intros Hxy Hyx. apply Cmp_Eq.
  rewrite (Cmp_antisym (URL_ y)) in Hyx.
  destruct (Cmp (URL_ x) (URL_ y)); cbn in *; congruence.
Qed.

(** [ge0 (Cmp x a)] fails exactly when [a] does not come before or with [x]. *)
Lemma ge0_Cmp_iff (x a : Account) :
  ge0 (Cmp (URL_ x) (URL_ a)) = true <-> url_le a x.
Proof.
  split; [apply ge0_Cmp_true |]. unfold url_le.
  rewrite (Cmp_antisym (URL_ a)). destruct (Cmp (URL_ x) (URL_ a)); cbn; congruence.
Qed.

(** On a list in URL order the test of [Add]'s search, once true, stays
    true. *)
Lemma not_before_monotone (l : list Account) (new : Account) (i j : nat) :
  StronglySorted url_le l -> (i <= j < length l)%nat ->
  not_before l new i = true -> not_before l new j = true.
Proof.
  intros Hs [Hij Hj]. unfold not_before.
  destruct (l !! i) as [x |] eqn:Hx; [| discriminate].
  destruct (lookup_lt_is_Some_2 l j Hj) as [y Hy]. rewrite Hy.
  rewrite !ge0_Cmp_iff. intros Hle. transitivity x; [exact Hle |].
  exact (sorted_lookup_le l i j x y Hs Hij Hx Hy).
Qed.

(** A monotone test has one boundary only. *)
Lemma boundary_unique (f : nat -> bool) (n r r' : nat) :
  (forall i j, (i <= j < n)%nat -> f i = true -> f j = true) ->
  (r <= n)%nat -> (r' <= n)%nat ->
  below f r -> above f n r -> below f r' -> above f n r' -> r = r'.
Proof.
  intros Hmono Hr Hr' Hb Ha Hb' Ha'.
  assert (Hlt : forall a b, (a <= n)%nat -> (b <= n)%nat -> above f n a -> below f b ->
                            ~ (a < b)%nat).
  { intros a b Han Hbn Haa Hbb Hab.
    destruct Haa as [-> | Hfa]; [lia |].
    destruct Hbb as [-> | Hfb]; [lia |].
    rewrite (Hmono a (b - 1)%nat) in Hfb; [discriminate | lia | exact Hfa]. }
  specialize (Hlt r r' Hr Hr' Ha Hb') as H1.
  specialize (Hlt r' r Hr' Hr Ha' Hb) as H2. lia.
Qed.

(** In a list in URL order [sort.Search] finds the first place that is not
    before the new account. *)
Lemma Add_search_least (l : list Account) (new : Account) (i : nat) :
  StronglySorted url_le l -> (i <= length l)%nat ->
  below (not_before l new) i -> above (not_before l new) (length l) i ->
  sort_Search (length l) (not_before l new) = i.
Proof.
  intros Hs Hi Hb Ha.
  destruct (sort_Search_spec (not_before l new) (length l)) as (Hle & Hb' & Ha').
  apply (boundary_unique (not_before l new) (length l)); try assumption.
  intros a b Hab. now apply not_before_monotone.
Qed.

Lemma Add_unfold (ac : AccountCache) (a : Account) :
  Add ac a =
    let i := sort_Search (length (All ac)) (not_before (All ac) a) in
    if (i <? length (All ac))%nat && bool_decide (All ac !! i = Some a) then ac
    else {| keydir := keydir ac;
            All := (take i (All ac) ++ a :: drop i (All ac))%list;
            ByAddr := <[Address a := (bucket (ByAddr ac) (Address a) ++ [a])%list]>
                        (ByAddr ac) |}.
Proof. reflexivity. Qed.

(** After [Add] the account sits at the place the search finds for it. *)
Lemma Add_position (ac : AccountCache) (a : Account) :
  StronglySorted url_le (All ac) ->
  let l := All (Add ac a) in
  let i := sort_Search (length l) (not_before l a) in
  l !! i = Some a.
Proof.
  intros Hs. rewrite Add_unfold. cbv zeta.
  set (i := sort_Search (length (All ac)) (not_before (All ac) a)).
  destruct ((i <? length (All ac))%nat && bool_decide (All ac !! i = Some a)) eqn:Hhit.
  - apply andb_true_iff in Hhit as [_ Hhit]. fold i.
    now apply bool_decide_eq_true in Hhit.
  - cbn [All].
    destruct (sort_Search_spec (not_before (All ac) a) (length (All ac)))
      as (Hle & Hb & Ha). fold i in Hle, Hb, Ha.
    set (l' := (take i (All ac) ++ a :: drop i (All ac))%list).
    assert (Hlen : length (take i (All ac)) = i) by (apply length_take_le; exact Hle).
    assert (Hl'i : l' !! i = Some a).
    { unfold l'. rewrite lookup_app_r by (rewrite Hlen; reflexivity).
      rewrite Hlen. now rewrite Nat.sub_diag. }
    rewrite (Add_search_least l' a i); [exact Hl'i | | | |].
    + unfold l'. now apply insert_sorted.
    + unfold l'. rewrite length_app, Hlen. cbn. lia.
    + destruct (decide (i = 0%nat)) as [Hi0 | Hi0]; [now left | right].
      destruct Hb as [Hb | Hb]; [contradiction |].
      unfold not_before in *. unfold l'.
      rewrite lookup_app_l by (rewrite Hlen; lia).
      rewrite lookup_take_lt by lia. exact Hb.
    + right. unfold not_before. rewrite Hl'i. now rewrite Cmp_refl.
Qed.

(** X1.  Adding an account a second time changes nothing: on every
    reachable cache [Add (Add ac a) a = Add ac a]. *)
Theorem Add_idempotent (keydir : string) (ops : list op) (a : Account) :
  let ac := run ops (NewAccountCache keydir) in
  Add (Add ac a) a = Add ac a.
Proof.
  intros ac.
  assert (Hc : consistent ac).
  { apply run_consistent. split; [constructor |]. intros k.
    unfold bucket. cbn. now rewrite lookup_empty. }
  pose proof (Add_position ac a (proj1 Hc)) as Hpos. cbv zeta in Hpos.
  rewrite (Add_unfold (Add ac a) a). cbv zeta.
  rewrite Hpos. rewrite bool_decide_eq_true_2 by reflexivity.
  apply lookup_lt_Some in Hpos. apply Nat.ltb_lt in Hpos. now rewrite Hpos.
Qed.

Lemma reachable_consistent (ac : AccountCache) : reachable ac -> consistent ac.
Proof.
  intros (keydir & ops & ->). apply run_consistent. split; [constructor |].
  intros k. unfold bucket. cbn. now rewrite lookup_empty.
Qed.

Lemma bucket_elem (ac : AccountCache) (k : common.Address) (a : Account) :
  consistent ac -> (a ∈ bucket (ByAddr ac) k <-> a ∈ All ac /\ Address a = k).
Proof.
  intros [_ Hb]. rewrite (Hb k). unfold with_address.
  rewrite list_elem_of_filter. tauto.
Qed.

(** X2.  After [Add] the account is in both views, and nothing that was in
    the cache is lost. *)
Theorem Add_keeps_and_adds (keydir : string) (ops : list op) (a : Account) :
  let ac := run ops (NewAccountCache keydir) in
  a ∈ All (Add ac a)
  /\ a ∈ bucket (ByAddr (Add ac a)) (Address a)
  /\ (forall b, b ∈ All ac -> b ∈ All (Add ac a)).
Proof.
  intros ac.
  assert (Hc : consistent ac) by (apply reachable_consistent; now exists keydir, ops).
  assert (Hin : a ∈ All (Add ac a)).
  { eapply list_elem_of_lookup_2. apply (Add_position ac a (proj1 Hc)). }
  split; [exact Hin | split].
  - apply bucket_elem; [now apply Add_consistent | now split].
  - intros b Hb. rewrite Add_unfold. cbv zeta.
    destruct (_ && _); [exact Hb |]. cbn [All].
    rewrite <- (take_drop (sort_Search (length (All ac)) (not_before (All ac) a)) (All ac)) in Hb.
    apply elem_of_app in Hb as [Hb | Hb]; apply elem_of_app; [now left | right].
    now apply elem_of_cons; right.
Qed.

Lemma removeAccount_middle (l1 l2 : list Account) (a : Account) :
  a ∉ l1 -> removeAccount (l1 ++ a :: l2) a = (l1 ++ l2)%list.
Proof.
  induction l1 as [| x l1 IH]; intros Hnot; cbn.
  - now destruct (decide (a = a)).
  - apply not_elem_of_cons in Hnot as [Hne Hnot].
    destruct (decide (x = a)); [congruence |]. now rewrite IH.
Qed.

Lemma bucket_insert (m : gmap common.Address (list Account)) (k : common.Address)
    (l : list Account) :
  bucket (<[k := l]> m) k = l.
Proof. unfold bucket. now rewrite lookup_insert_eq. Qed.

Lemma removeAccount_middle_end (l : list Account) (a : Account) :
  a ∉ l -> removeAccount (l ++ [a]) a = l.
Proof. intros H. rewrite removeAccount_middle by exact H. apply app_nil_r. Qed.

Lemma unindex_no_empty (m : gmap common.Address (list Account)) (removed : Account) :
  (forall k, m !! k <> Some []) -> forall k, unindex m removed !! k <> Some [].
Proof.
  intros Hm k. unfold unindex.
  destruct (Nat.eqb_spec (length (removeAccount (bucket m (Address removed)) removed)) 0)
    as [Hlen | Hlen].
  - destruct (decide (Address removed = k)) as [<- | Hk].
    + now rewrite lookup_delete_eq.
    + rewrite lookup_delete_ne by exact Hk. apply Hm.
  - destruct (decide (Address removed = k)) as [<- | Hk].
    + rewrite lookup_insert_eq. intros [= Heq]. rewrite Heq in Hlen. now apply Hlen.
    + rewrite lookup_insert_ne by exact Hk. apply Hm.
Qed.

Lemma reachable_no_empty_bucket (ac : AccountCache) : reachable ac -> no_empty_bucket ac.
Proof.
  intros (keydir & ops & ->). unfold run.
  assert (H0 : no_empty_bucket (NewAccountCache keydir)).
  { intros k. cbn. now rewrite lookup_empty. }
  revert H0. generalize (NewAccountCache keydir).
  induction ops as [| o ops IH]; intros ac Hne; [exact Hne |].
  cbn. apply IH. destruct o as [a | a | path]; cbn.
  - rewrite Add_unfold. cbv zeta. destruct (_ && _); [exact Hne |].
    intros k. cbn [ByAddr]. destruct (decide (Address a = k)) as [<- | Hk].
    + rewrite lookup_insert_eq. intros [= Heq]. now apply app_nil in Heq as [_ [=]].
    + rewrite lookup_insert_ne by exact Hk. apply Hne.
  - intros k. cbn [cache.delete ByAddr]. now apply unindex_no_empty.
  - unfold deleteByFile. destruct (All ac !! _) as [removed |]; [| exact Hne].
    destruct (decide _); [| exact Hne].
    intros k. cbn [ByAddr]. now apply unindex_no_empty.
Qed.

(** X3.  Removing an account right after adding it restores the cache, both
    views, when the account was not in it. *)
Theorem delete_Add (keydir : string) (ops : list op) (a : Account) :
  a ∉ All (run ops (NewAccountCache keydir)) ->
  cache.delete (Add (run ops (NewAccountCache keydir)) a) a
  = run ops (NewAccountCache keydir).
Proof.
  set (ac := run ops (NewAccountCache keydir)). intros Hnot.
  assert (Hr : reachable ac) by now exists keydir, ops.
  pose proof (reachable_consistent ac Hr) as Hc.
  pose proof (reachable_no_empty_bucket ac Hr) as Hne.
  rewrite Add_unfold. cbv zeta.
  set (i := sort_Search _ _).
  destruct ((i <? length (All ac))%nat && bool_decide (All ac !! i = Some a)) eqn:Hhit.
  { apply andb_true_iff in Hhit as [_ Hhit]. apply bool_decide_eq_true in Hhit.
    exfalso. apply Hnot. eapply list_elem_of_lookup_2; eauto. }
  unfold cache.delete. cbn [All ByAddr cache.keydir].
  assert (Hb : a ∉ bucket (ByAddr ac) (Address a)).
  { intros Hin. apply (bucket_elem ac _ _ Hc) in Hin as [Hin _]. contradiction. }
  destruct ac as [kd all byaddr]. cbn [All ByAddr cache.keydir] in *. f_equal.
  - rewrite removeAccount_middle.
    + apply take_drop.
    + intros Hin. apply Hnot. apply elem_of_take in Hin as (j & Hj & _).
      eapply list_elem_of_lookup_2; eauto.
  - unfold unindex. rewrite !bucket_insert.
    rewrite removeAccount_middle_end by exact Hb.
    unfold bucket in *. specialize (Hne (Address a)). cbn in Hne.
    destruct (byaddr !! Address a) as [l |] eqn:Hl; cbn [default] in *.
    + destruct l as [| x l]; [congruence |]. cbn [length Nat.eqb].
      rewrite insert_insert_eq. now apply insert_id.
    + cbn. rewrite delete_insert_eq. now apply delete_id.
Qed.

Lemma delete_Add_witness :
  cache.delete (Add example_cache (example_account x03 "/keys/c.json"))
    (example_account x03 "/keys/c.json")
  = example_cache.
Proof.
  apply (delete_Add "/keys"
           [OpAdd (example_account x02 "/keys/b.json");
            OpAdd (example_account x01 "/keys/a.json")]
           (example_account x03 "/keys/c.json")).
  vm_compute. intros H.
  repeat (apply elem_of_cons in H as [H | H]; [discriminate |]).
  now apply elem_of_nil in H.
Defined.

(** With a monotone test that holds at [k], [sort.Search] stops at or before
    [k], at a place where the test holds. *)
Lemma search_hits (f : nat -> bool) (n k : nat) :
  (forall i j, (i <= j < n)%nat -> f i = true -> f j = true) ->
  (k < n)%nat -> f k = true ->
  (sort_Search n f <= k)%nat /\ f (sort_Search n f) = true.
Proof.
  intros Hmono Hk Hfk.
  destruct (sort_Search_spec f n) as (Hle & Hb & Ha).
  assert (Hrk : (sort_Search n f <= k)%nat).
  { destruct (Nat.le_gt_cases (sort_Search n f) k) as [H | H]; [exact H | exfalso].
    destruct Hb as [Hb | Hb]; [lia |].
    rewrite (Hmono k (sort_Search n f - 1)%nat) in Hb; [discriminate | lia | exact Hfk]. }
  split; [exact Hrk |]. destruct Ha as [Ha | Ha]; [lia | exact Ha].
Qed.

(** When each URL stands for one account, [Add] finds an account that is
    already in the cache. *)
Lemma Add_finds_present (l : list Account) (a : Account) :
  StronglySorted url_le l ->
  (forall b, b ∈ l -> URL_ b = URL_ a -> b = a) ->
  a ∈ l ->
  l !! sort_Search (length l) (not_before l a) = Some a.
Proof.
  intros Hs Hid Hin. apply list_elem_of_lookup in Hin as [k Hk].
  pose proof (lookup_lt_Some _ _ _ Hk) as Hkn.
  destruct (search_hits (not_before l a) (length l) k) as [Hrk Hfr].
  - intros i j Hij. now apply not_before_monotone.
  - exact Hkn.
  - unfold not_before. rewrite Hk. now rewrite Cmp_refl.
  - set (r := sort_Search _ _) in *. unfold not_before in Hfr.
    destruct (l !! r) as [x |] eqn:Hx; [| discriminate].
    f_equal. apply Hid.
    + eapply list_elem_of_lookup_2; eauto.
    + apply url_le_antisym.
      * exact (sorted_lookup_le l r k x a Hs Hrk Hx Hk).
      * now apply ge0_Cmp_iff.
Qed.

(** X4.  [Add] never stores an account twice when each URL stands for one
    account: a duplicate-free index stays duplicate-free. *)
Theorem Add_NoDup (ac : AccountCache) (a : Account) :
  StronglySorted url_le (All ac) ->
  NoDup (All ac) ->
  (forall b, b ∈ All ac -> URL_ b = URL_ a -> b = a) ->
  NoDup (All (Add ac a)).
Proof.
  intros Hs Hnd Hid. rewrite Add_unfold. cbv zeta.
  set (i := sort_Search _ _).
  destruct ((i <? length (All ac))%nat && bool_decide (All ac !! i = Some a)) eqn:Hhit;
    [exact Hnd |].
  cbn [All]. rewrite <- Permutation_middle, take_drop.
  apply NoDup_cons. split; [| exact Hnd].
  intros Hin. pose proof (Add_finds_present _ _ Hs Hid Hin) as Hfound. fold i in Hfound.
  rewrite (bool_decide_eq_true_2 _ Hfound), andb_true_r in Hhit.
  apply lookup_lt_Some in Hfound. apply Nat.ltb_lt in Hfound. congruence.
Qed.

Lemma Add_NoDup_witness :
  NoDup (All (Add example_cache (example_account x03 "/keys/c.json"))).
Proof.
  apply (Add_NoDup example_cache (example_account x03 "/keys/c.json")).
  - vm_compute. repeat constructor; discriminate.
  - vm_compute. repeat constructor; intros H; repeat (apply elem_of_cons in H as [H | H]; [discriminate |]); now apply elem_of_nil in H.
  - intros b Hb Hurl. vm_compute in Hb.
    repeat (apply elem_of_cons in Hb as [-> | Hb]; [discriminate Hurl |]).
    now apply elem_of_nil in Hb.
Defined.

(** When all accounts have one scheme, the order of [All] is the order of
    the paths, and the test of [deleteByFile]'s search is monotone. *)
Lemma path_not_before_monotone (l : list Account) (scheme path : string) (i j : nat) :
  StronglySorted url_le l ->
  (forall b, b ∈ l -> Scheme (URL_ b) = scheme) ->
  (i <= j < length l)%nat ->
  path_not_before l path i = true -> path_not_before l path j = true.
Proof.
  intros Hs Hscheme [Hij Hj]. unfold path_not_before.
  destruct (l !! i) as [x |] eqn:Hx; [| discriminate].
  destruct (lookup_lt_is_Some_2 l j Hj) as [y Hy]. rewrite Hy.
  pose proof (sorted_lookup_le l i j x y Hs Hij Hx Hy) as Hxy.
  unfold url_le, Cmp in Hxy.
  rewrite (Hscheme x), (Hscheme y) in Hxy by (eapply list_elem_of_lookup_2; eauto).
  destruct (decide (scheme = scheme)); [| congruence].
  unfold strings_Compare in *. intros Hpx.
  assert (Hle : String.compare path (Path (URL_ x)) <> Gt).
  { rewrite String.compare_antisym.
    destruct (String.compare (Path (URL_ x)) path); cbn in *; congruence. }
  pose proof (string_compare_trans _ _ _ Hle Hxy) as Hpy.
  rewrite String.compare_antisym in Hpy.
  destruct (String.compare (Path (URL_ y)) path); cbn in *; congruence.
Qed.

(** X5.  When all accounts of the cache have the same URL scheme and some
    account has the path, [deleteByFile] removes one account with that
    path from both views, and only that one. *)
Theorem deleteByFile_removes (ac : AccountCache) (scheme path : string) (a : Account) :
  consistent ac ->
  (forall b, b ∈ All ac -> Scheme (URL_ b) = scheme) ->
  a ∈ All ac -> Path (URL_ a) = path ->
  exists removed,
    Path (URL_ removed) = path
    /\ All ac ≡ₚ removed :: All (deleteByFile ac path)
    /\ bucket (ByAddr ac) (Address removed)
       ≡ₚ removed :: bucket (ByAddr (deleteByFile ac path)) (Address removed)
    /\ consistent (deleteByFile ac path).
Proof.
  intros Hc Hscheme Hin Hpath.
  pose proof (deleteByFile_consistent ac path Hc) as Hc'.
  destruct Hc as [Hs Hb].
  apply list_elem_of_lookup in Hin as [k Hk].
  pose proof (lookup_lt_Some _ _ _ Hk) as Hkn.
  destruct (search_hits (path_not_before (All ac) path) (length (All ac)) k) as [Hrk Hfr].
  { intros i j Hij. now apply (path_not_before_monotone _ scheme). }
  { exact Hkn. }
  { unfold path_not_before. rewrite Hk, Hpath. unfold strings_Compare.
    now rewrite string_compare_refl. }
  revert Hc'. unfold deleteByFile.
  change (fun i => match All ac !! i with
                   | Some a0 => ge0 (strings_Compare (Path (URL_ a0)) path)
                   | None => false
                   end) with (path_not_before (All ac) path).
  set (r := sort_Search _ _) in *. unfold path_not_before in Hfr.
  destruct (All ac !! r) as [x |] eqn:Hx; [| discriminate].
  assert (Hxp : Path (URL_ x) = path).
  { pose proof (sorted_lookup_le _ r k x a Hs Hrk Hx Hk) as Hxa.
    unfold url_le, Cmp in Hxa.
    rewrite (Hscheme x), (Hscheme a) in Hxa by (eapply list_elem_of_lookup_2; eauto).
    destruct (decide (scheme = scheme)); [| congruence].
    rewrite Hpath in Hxa. unfold strings_Compare in *.
    apply string_compare_le_antisym; [exact Hxa |].
    rewrite String.compare_antisym.
    destruct (String.compare (Path (URL_ x)) path); cbn in *; congruence. }
  destruct (decide (Path (URL_ x) = path)); [| contradiction].
  intros Hc'. exists x. cbn [All ByAddr].
  assert (Hall : All ac ≡ₚ x :: (take r (All ac) ++ drop (S r) (All ac))).
  { rewrite Permutation_middle, <- (drop_S _ _ _ Hx), take_drop. reflexivity. }
  split; [exact Hxp | split; [exact Hall | split; [| exact Hc']]].
  destruct Hc' as [_ Hb']. cbn [All ByAddr] in Hb'.
  rewrite (Hb (Address x)), (Hb' (Address x)). unfold with_address.
  rewrite Hall at 1. rewrite filter_cons.
  now destruct (decide (Address x = Address x)).
Qed.

Lemma deleteByFile_removes_witness :
  exists removed,
    Path (URL_ removed) = "/keys/a.json"
    /\ All example_cache ≡ₚ removed :: All (deleteByFile example_cache "/keys/a.json")
    /\ bucket (ByAddr example_cache) (Address removed)
       ≡ₚ removed :: bucket (ByAddr (deleteByFile example_cache "/keys/a.json"))
                      (Address removed)
    /\ consistent (deleteByFile example_cache "/keys/a.json").
Proof.
  apply (deleteByFile_removes example_cache "keystore" "/keys/a.json"
           (example_account x01 "/keys/a.json")).
  - apply reachable_consistent. eexists _, _. reflexivity.
  - intros b Hb. vm_compute in Hb.
    repeat (apply elem_of_cons in Hb as [-> | Hb]; [reflexivity |]).
    now apply elem_of_nil in Hb.
  - vm_compute. apply elem_of_cons. now left.
  - reflexivity.
Defined.

Section find_sound.

Variable Separator : ascii.
Variable filepath_Join : string -> string -> string.
Variable sort_Sort : list Account -> list Account.

Lemma candidates_sound (ac : AccountCache) (a m : Account) :
  consistent ac -> m ∈ candidates ac a ->
  m ∈ All ac /\ (Address a <> common.zeroAddress -> Address m = Address a).
Proof.
  intros Hc. unfold candidates.
  destruct (decide (Address a <> common.zeroAddress)) as [Hnz | Hz].
  - intros Hin. apply (bucket_elem ac _ _ Hc) in Hin as [Hin Haddr]. now split.
  - intros Hin. split; [exact Hin | intros; contradiction].
Qed.

Lemma by_count_inl (a m : Account) (matches : list Account) :
  by_count sort_Sort a matches = inl m -> matches = [m].
Proof. destruct matches as [| x [| y rest]]; cbn; congruence. Qed.

Lemma by_count_ambiguous (a : Account) (matches ms : list Account) (addr : common.Address) :
  by_count sort_Sort a matches = inr (AmbiguousAddrError addr ms) ->
  addr = Address a /\ ms = sort_Sort matches /\ (2 <= length matches)%nat.
Proof.
  destruct matches as [| x [| y rest]]; cbn; try congruence.
  intros [= <- <-]. repeat split. lia.
Qed.

(** X6.  An account that [Find] returns is an account of the cache; it has
    the specifier's address when that is not zero, and exactly the
    (completed) URL of the specifier when the address is zero and a path is
    given. *)
Theorem Find_sound (ac : AccountCache) (a m : Account) :
  consistent ac ->
  Find Separator filepath_Join sort_Sort ac a = inl m ->
  m ∈ All ac
  /\ (Address a <> common.zeroAddress -> Address m = Address a)
  /\ (Address a = common.zeroAddress -> Path (URL_ a) <> "" ->
      URL_ m = completed Separator filepath_Join ac a).
Proof.
  intros Hc. unfold Find.
  fold (candidates ac a). fold (completed Separator filepath_Join ac a). cbn [URL_ Address].
  destruct (decide (Path (URL_ a) <> "")) as [Hpath | Hpath].
  - destruct (List.find _ _) as [x |] eqn:Hfind.
    + intros [= ->]. apply find_some in Hfind as [Hin Hurl].
      apply list_elem_of_In in Hin. apply bool_decide_eq_true in Hurl.
      destruct (candidates_sound ac a m Hc Hin) as [HAll Haddr]. auto.
    + destruct (decide (Address a = common.zeroAddress)) as [Hz | Hnz]; [discriminate |].
      intros Hcount. apply by_count_inl in Hcount.
      destruct (candidates_sound ac a m Hc) as [HAll Haddr].
      { rewrite Hcount. apply elem_of_cons. now left. }
      split; [exact HAll | split; [exact Haddr | intros; contradiction]].
  - intros Hcount. apply by_count_inl in Hcount.
    destruct (candidates_sound ac a m Hc) as [HAll Haddr].
    { rewrite Hcount. apply elem_of_cons. now left. }
    split; [exact HAll | split; [exact Haddr | intros; contradiction]].
Qed.

(** X7.  An ambiguous-address error of [Find] names the specifier's
    address and lists at least two accounts, each one an account of the
    cache, with the specifier's address when that is not zero. *)
Theorem Find_ambiguous_sound (ac : AccountCache) (a : Account)
    (addr : common.Address) (ms : list Account) :
  (forall l, sort_Sort l ≡ₚ l) ->
  consistent ac ->
  Find Separator filepath_Join sort_Sort ac a = inr (AmbiguousAddrError addr ms) ->
  addr = Address a
  /\ (2 <= length ms)%nat
  /\ forall m, m ∈ ms ->
       m ∈ All ac /\ (Address a <> common.zeroAddress -> Address m = Address a).
Proof.
  intros Hperm Hc Hfind.
  assert (Hcount : by_count sort_Sort a (candidates ac a)
                   = inr (AmbiguousAddrError addr ms)).
  { revert Hfind. unfold Find. fold (candidates ac a). cbn [URL_ Address].
    destruct (decide (Path (URL_ a) <> "")); [| auto].
    destruct (List.find _ _); [discriminate |].
    destruct (decide (Address a = common.zeroAddress)); [discriminate |].
    destruct (candidates ac a) as [| x [| y rest]]; cbn; congruence. }
  apply by_count_ambiguous in Hcount as (-> & -> & Hlen).
  split; [reflexivity | split].
  - now rewrite Hperm.
  - intros m Hm. rewrite Hperm in Hm. now apply candidates_sound.
Qed.

End find_sound.

Lemma Find_sound_witness :
  example_account x02 "/keys/b.json" ∈ All example_cache.
Proof.
  apply (Find_sound "/" example_Join example_sort example_cache
           {| Address := common.zeroAddress;
              URL_ := {| Scheme := "keystore"; Path := "b.json" |} |}
           (example_account x02 "/keys/b.json")).
  - apply reachable_consistent. eexists _, _. reflexivity.
  - vm_compute. reflexivity.
Defined.

Lemma Find_ambiguous_sound_witness :
  (2 <= length [example_account x01 "/keys/a.json"; example_account x01 "/keys/b.json"])%nat.
Proof.
  apply (Find_ambiguous_sound "/" example_Join example_sort example_cache_shared
           {| Address := example_address x01;
              URL_ := {| Scheme := ""; Path := "" |} |}
           (example_address x01)
           [example_account x01 "/keys/a.json"; example_account x01 "/keys/b.json"]).
  - intros l. apply merge_sort_Permutation.
  - apply reachable_consistent. eexists _, _. reflexivity.
  - vm_compute. reflexivity.
Defined.

Lemma deleteByFile_sublist (ac : AccountCache) (path : string) :
  sublist (All (deleteByFile ac path)) (All ac).
Proof.
  unfold deleteByFile. set (i := sort_Search _ _).
  destruct (All ac !! i) as [removed |] eqn:Hi; [| reflexivity].
  destruct (decide _); [| reflexivity]. cbn [All].
  rewrite <- (take_drop i (All ac)) at 3.
  apply sublist_app; [reflexivity |].
  rewrite (drop_S _ _ _ Hi). now apply sublist_cons.
Qed.

End cache_more.

(* ===================================================================== *)
(** * Reloading the cache                                                 *)
(* ===================================================================== *)

Section reload_facts.

Import accounts cache cache_reload.

Variable env : collaborators.

Lemma unlockIfConfigured_from_calls (pending : list common.Address) (acct : Account)
    (c : Account * Z) :
  c ∈ fst (unlockIfConfigured_from env pending acct)
  <-> c = (acct, 0%Z) /\ Address acct ∈ pending.
Proof.
  induction pending as [| t rest IH]; cbn [unlockIfConfigured_from].
  - cbn. rewrite elem_of_nil. split; [tauto | intros [_ H]; now apply elem_of_nil in H].
  - destruct (decide (Address acct = t)) as [Heq | Hne].
    + destruct (TimedUnlock env acct 0) as [err |].
      * cbn. rewrite list_elem_of_singleton. split.
        -- intros ->. split; [reflexivity | subst; apply elem_of_cons; now left].
        -- tauto.
      * destruct (unlockIfConfigured_from env rest acct) as [calls err] eqn:Hrest.
        cbn [fst] in *. rewrite elem_of_cons, IH. split.
        -- intros [-> | [-> Hin]]; (split; [reflexivity |]);
             [subst; apply elem_of_cons; now left | apply elem_of_cons; now right].
        -- intros [-> _]. now left.
    + rewrite IH. rewrite elem_of_cons. split; [tauto |].
      intros [-> [Heq | Hin]]; [congruence | tauto].
Qed.

Lemma scan_create_step (st : cacheState) (p : string) :
  unlocks (scan_create env st p) = (unlocks st ++ calls_for env p)%list
  /\ (consistent (index st) -> consistent (index (scan_create env st p))).
Proof.
  unfold scan_create, calls_for. destruct (readAccount env p) as [a |]; cbn.
  - split; [reflexivity |]. now apply Add_consistent.
  - now rewrite app_nil_r.
Qed.

Lemma scan_create_fold (ps : list string) (st : cacheState) :
  unlocks (fold_left (scan_create env) ps st)
  = (unlocks st ++ flat_map (calls_for env) ps)%list
  /\ (consistent (index st) -> consistent (index (fold_left (scan_create env) ps st))).
Proof.
  revert st. induction ps as [| p ps IH]; intros st; cbn [fold_left flat_map].
  - now rewrite app_nil_r.
  - destruct (IH (scan_create env st p)) as [Hu Hc].
    destruct (scan_create_step st p) as [Hu1 Hc1].
    rewrite Hu, Hu1, <- app_assoc. auto.
Qed.

Lemma scan_delete_fold (ps : list string) (st : cacheState) :
  unlocks (fold_left scan_delete ps st) = unlocks st
  /\ (consistent (index st) -> consistent (index (fold_left scan_delete ps st)))
  /\ sublist (All (index (fold_left scan_delete ps st))) (All (index st)).
Proof.
  revert st. induction ps as [| p ps IH]; intros st; cbn [fold_left].
  - split; [reflexivity | split; [auto | reflexivity]].
  - destruct (IH (scan_delete st p)) as (Hu & Hc & Hsub). rewrite Hu.
    split; [reflexivity | split].
    + intros H. apply Hc. cbn. now apply deleteByFile_consistent.
    + etransitivity; [exact Hsub |]. cbn. apply deleteByFile_sublist.
Qed.

Lemma scan_update_step (st : cacheState) (p : string) :
  unlocks (scan_update env st p) = (unlocks st ++ calls_for env p)%list
  /\ (consistent (index st) -> consistent (index (scan_update env st p))).
Proof.
  unfold scan_update, calls_for. destruct (readAccount env p) as [a |]; cbn.
  - split; [reflexivity |]. intros H. now apply Add_consistent, deleteByFile_consistent.
  - rewrite app_nil_r. split; [reflexivity |]. now apply deleteByFile_consistent.
Qed.

Lemma scan_update_fold (ps : list string) (st : cacheState) :
  unlocks (fold_left (scan_update env) ps st)
  = (unlocks st ++ flat_map (calls_for env) ps)%list
  /\ (consistent (index st) -> consistent (index (fold_left (scan_update env) ps st))).
Proof.
  revert st. induction ps as [| p ps IH]; intros st; cbn [fold_left flat_map].
  - now rewrite app_nil_r.
  - destruct (IH (scan_update env st p)) as [Hu Hc].
    destruct (scan_update_step st p) as [Hu1 Hc1].
    rewrite Hu, Hu1, <- app_assoc. auto.
Qed.

(** X8.  A scan keeps the two views of the index in agreement, whatever
    the files hold and whatever the unlocker answers. *)
Theorem scanAccounts_consistent (scanned : fileDiff + error) (st : cacheState) :
  consistent (index st) -> consistent (index (fst (scanAccounts env scanned st))).
Proof.
  intros Hc. unfold scanAccounts. destruct scanned as [d | err]; [| exact Hc].
  destruct (_ && _); [exact Hc |]. cbn [fst index].
  apply scan_update_fold, scan_delete_fold, scan_create_fold, Hc.
Qed.

Lemma scanAccounts_unlocks (d : fileDiff) (st : cacheState) :
  unlocks (fst (scanAccounts env (inl d) st))
  = (unlocks st ++ flat_map (calls_for env) (creates d ++ updates d))%list.
Proof.
  unfold scanAccounts.
  destruct ((length (creates d) =? 0) && (length (deletes d) =? 0)
            && (length (updates d) =? 0))%nat eqn:Hempty.
  - apply andb_true_iff in Hempty as [Hempty Hu].
    apply andb_true_iff in Hempty as [Hc _].
    apply Nat.eqb_eq, length_zero_iff_nil in Hc, Hu. rewrite Hc, Hu. cbn.
    now rewrite app_nil_r.
  - cbn [fst unlocks].
    rewrite (proj1 (scan_update_fold _ _)), (proj1 (scan_delete_fold _ _)),
      (proj1 (scan_create_fold _ _)).
    now rewrite flat_map_app, app_assoc.
Qed.

(** X9.  The unlocker is called during a scan exactly for the accounts read
    from created or updated files whose address is in [toUnlock], and each
    call asks for the indefinite unlock (timeout 0). *)
Theorem scanAccounts_unlock_calls (d : fileDiff) (st : cacheState) (c : Account * Z) :
  c ∈ drop (length (unlocks st)) (unlocks (fst (scanAccounts env (inl d) st)))
  <-> snd c = 0%Z
      /\ Address (fst c) ∈ toUnlock env
      /\ exists p, p ∈ (creates d ++ updates d)%list /\ readAccount env p = Some (fst c).
Proof.
  rewrite scanAccounts_unlocks, drop_app_length.
  rewrite list_elem_of_In, in_flat_map. split.
  - intros (p & Hp & Hc). apply list_elem_of_In in Hp, Hc.
    unfold calls_for in Hc. destruct (readAccount env p) as [a |] eqn:Hread.
    + apply unlockIfConfigured_from_calls in Hc as [-> Hin]. cbn. eauto.
    + now apply elem_of_nil in Hc.
  - intros (Hzero & Hin & p & Hp & Hread). exists p.
    rewrite <- !list_elem_of_In. split; [exact Hp |].
    unfold calls_for. rewrite Hread.
    apply unlockIfConfigured_from_calls. destruct c as [a z]. cbn in *. now subst.
Qed.

(** X10.  Files that cannot be opened, decoded or validated add nothing:
    when no created or updated file yields an account, a scan only removes
    accounts and calls the unlocker for none. *)
Theorem scanAccounts_unreadable (d : fileDiff) (st : cacheState) :
  (forall p, p ∈ (creates d ++ updates d)%list -> readAccount env p = None) ->
  sublist (All (index (fst (scanAccounts env (inl d) st)))) (All (index st))
  /\ unlocks (fst (scanAccounts env (inl d) st)) = unlocks st.
Proof.
  intros Hnone. split.
  - unfold scanAccounts. destruct (_ && _); [reflexivity |]. cbn [fst index].
    assert (Hcreate : fold_left (scan_create env) (creates d) st = st).
    { assert (H : forall p, p ∈ creates d -> readAccount env p = None).
      { intros p Hp. apply Hnone, elem_of_app. now left. }
      clear Hnone. induction (creates d) as [| p ps IH]; [reflexivity |].
      cbn [fold_left]. unfold scan_create at 2.
      rewrite (H p) by (apply elem_of_cons; now left).
      apply IH. intros q Hq. apply H, elem_of_cons. now right. }
    rewrite Hcreate.
    assert (Hupdate : forall ps st0,
               (forall p, p ∈ ps -> readAccount env p = None) ->
               fold_left (scan_update env) ps st0 = fold_left scan_delete ps st0).
    { induction ps as [| p ps IH]; intros st0 H; [reflexivity |].
      cbn [fold_left]. unfold scan_update at 2, scan_delete at 2.
      rewrite (H p) by (apply elem_of_cons; now left).
      apply IH. intros q Hq. apply H, elem_of_cons. now right. }
    rewrite Hupdate by (intros p Hp; apply Hnone, elem_of_app; now right).
    etransitivity; [apply scan_delete_fold |]. apply scan_delete_fold.
  - rewrite scanAccounts_unlocks.
    assert (Hcalls : flat_map (calls_for env) (creates d ++ updates d) = []).
    { induction (creates d ++ updates d)%list as [| p ps IH]; [reflexivity |].
      cbn [flat_map]. unfold calls_for at 1.
      rewrite (Hnone p) by (apply elem_of_cons; now left). cbn.
      apply IH. intros q Hq. apply Hnone, elem_of_cons. now right. }
    rewrite Hcalls. apply app_nil_r.
Qed.

(** X11.  [HasAddress] answers for the index as the reload leaves it: it is
    true exactly when some account of [All] has the address. *)
Theorem HasAddress_spec (tick : bool) (scanned : fileDiff + error) (st : cacheState)
    (addr : common.Address) :
  consistent (index st) ->
  let result := HasAddress env tick scanned st addr in
  consistent (index (fst result))
  /\ (snd result = true <-> exists a, a ∈ All (index (fst result)) /\ Address a = addr).
Proof.
  intros Hc. cbv zeta. unfold HasAddress. cbn [fst snd].
  assert (Hc' : consistent (index (MaybeReload env tick scanned st))).
  { unfold MaybeReload. destruct (watcher_running st); [exact Hc |].
    destruct (throttle st && negb tick); [exact Hc |].
    unfold scanAccounts. destruct scanned as [d | err]; [| exact Hc].
    destruct (_ && _); [exact Hc |]. cbn [fst index].
    apply scan_update_fold, scan_delete_fold, scan_create_fold, Hc. }
  split; [exact Hc' |].
  set (ac := index (MaybeReload env tick scanned st)) in *.
  rewrite Nat.ltb_lt. split.
  - intros Hlen. destruct (bucket (ByAddr ac) addr) as [| a l] eqn:Hb; [cbn in Hlen; lia |].
    exists a. apply (bucket_elem ac addr a Hc'). rewrite Hb. apply elem_of_cons. now left.
  - intros (a & Hin & Haddr).
    assert (Hin' : a ∈ bucket (ByAddr ac) addr) by now apply bucket_elem.
    destruct (bucket (ByAddr ac) addr); [now apply elem_of_nil in Hin' | cbn; lia].
Qed.

End reload_facts.

Section reload_examples_facts.

Import accounts cache cache_reload.

Example scan_example :
  All (index (fst (scanAccounts example_collaborators (inl example_diff) example_state)))
  = [example_account x02 "/keys/b.json"; example_account x03 "/keys/c.json"]
  /\ unlocks (fst (scanAccounts example_collaborators (inl example_diff) example_state))
     = [(example_account x03 "/keys/c.json", 0%Z)]
  /\ notify (fst (scanAccounts example_collaborators (inl example_diff) example_state))
     = true.
Proof. repeat split; vm_compute; reflexivity. Qed.

Lemma scanAccounts_consistent_witness :
  consistent
    (index (fst (scanAccounts example_collaborators (inl example_diff) example_state))).
Proof.
  apply (scanAccounts_consistent example_collaborators (inl example_diff) example_state).
  apply reachable_consistent. eexists _, _. reflexivity.
Defined.

Lemma scanAccounts_unreadable_witness :
  sublist
    (All (index (fst (scanAccounts example_collaborators (inl unreadable_diff)
                        example_state))))
    (All (index example_state))
  /\ unlocks (fst (scanAccounts example_collaborators (inl unreadable_diff) example_state))
     = unlocks example_state.
Proof.
  apply (scanAccounts_unreadable example_collaborators unreadable_diff example_state).
  intros p Hp. vm_compute in Hp.
  repeat (apply elem_of_cons in Hp as [-> | Hp]; [vm_compute; reflexivity |]).
  now apply elem_of_nil in Hp.
Defined.

Lemma HasAddress_spec_witness :
  consistent
    (index (fst (HasAddress example_collaborators true (inl example_diff) example_state
                   (example_address x03))))
  /\ (snd (HasAddress example_collaborators true (inl example_diff) example_state
             (example_address x03)) = true
      <-> exists a,
            a ∈ All (index (fst (HasAddress example_collaborators true (inl example_diff)
                                   example_state (example_address x03))))
            /\ Address a = example_address x03).
Proof.
  apply (HasAddress_spec example_collaborators true (inl example_diff) example_state
           (example_address x03)).
  apply reachable_consistent. eexists _, _. reflexivity.
Defined.

Example HasAddress_after_reload :
  snd (HasAddress example_collaborators true (inl example_diff) example_state
         (example_address x03)) = true
  /\ snd (HasAddress example_collaborators true (inl example_diff) example_state
            (example_address x01)) = false.
Proof. split; vm_compute; reflexivity. Qed.

End reload_examples_facts.

Section error_message.

Import accounts cache cache_reload.

Lemma append_assoc (a b c : string) : (a ++ b) ++ c = a ++ b ++ c.
Proof.
  induction a as [| x a IH]; [reflexivity |].
  change (String.String x ((a ++ b) ++ c) = String.String x (a ++ b ++ c)). now f_equal.
Qed.

Lemma append_nil_r (a : string) : a ++ "" = a.
Proof.
  induction a as [| x a IH]; [reflexivity |].
  change (String.String x (a ++ "") = String.String x a). now f_equal.
Qed.

Lemma join_files_concat (ms : list Account) (n i : nat) (files : string) :
  n = (i + length ms)%nat ->
  join_files n i ms files
  = files ++ String.concat ", " (map (fun a => Path (URL_ a)) ms).
Proof.
  revert i files. induction ms as [| a ms IH]; intros i files Hn; cbn [join_files].
  - cbn. now rewrite append_nil_r.
  - cbn [length] in Hn. rewrite (IH (S i)) by lia.
    destruct ms as [| b ms].
    + cbn [length] in Hn. replace (i <? n - 1)%nat with false
        by (symmetry; apply Nat.ltb_ge; lia).
      cbn. now rewrite !append_nil_r.
    + cbn [length] in Hn. replace (i <? n - 1)%nat with true
        by (symmetry; apply Nat.ltb_lt; lia).
      cbn [map String.concat]. now rewrite !append_assoc.
Qed.

(** X12.  The message of an ambiguous-address error lists the paths of all
    its matches, in order, separated by a comma and a space, with nothing
    after the last one. *)
Theorem AmbiguousAddrError_Error_lists_paths (Matches : list Account) :
  AmbiguousAddrError_Error Matches
  = "multiple keys match address ("
    ++ String.concat ", " (map (fun a => Path (URL_ a)) Matches) ++ ")".
Proof.
  unfold AmbiguousAddrError_Error. now rewrite (join_files_concat Matches _ 0 "").
Qed.

Example AmbiguousAddrError_Error_two :
  AmbiguousAddrError_Error
    [example_account x01 "/keys/a.json"; example_account x01 "/keys/b.json"]
  = "multiple keys match address (/keys/a.json, /keys/b.json)".
Proof. reflexivity. Qed.

End error_message.

(* ===================================================================== *)
(** * Building the authenticated clients                                  *)
(* ===================================================================== *)

Section construction_facts.

Import credentials construction.

Lemma usingApproleAuth_true (creds : authCredentials) :
  usingApproleAuth creds = true <-> roleID creds <> "" /\ secretID creds <> "".
Proof.
  unfold usingApproleAuth. rewrite andb_true_iff, !negb_true_iff, !String.eqb_neq.
  reflexivity.
Qed.

(** What [getAuthCredentials] returns, by the three values it reads. *)
Lemma getAuthCredentials_values (env : gmap string string) (authID : string) :
  forall creds, getAuthCredentials env authID = (creds, None) ->
    creds = {| roleID := roleID_of env authID; secretID := secretID_of env authID;
               token := token_of env authID |}.
Proof.
  intros creds. unfold getAuthCredentials, roleID_of, secretID_of, token_of.
  repeat match goal with |- context [if ?b then _ else _] => destruct b end;
    intros [= <-]; reflexivity.
Qed.

(** X13.  With no role-id and no secret-id but a token in the environment,
    both constructors return a client that holds the token, has no renewer
    and the zero auth config (not the one it was built for), and start no
    renewal, whatever the Vault would answer to a login. *)
Theorem newAuthenticatedClient_token (lib : library) (w : world) (vaultAddr : string)
    (authConfig : config.VaultAuth) (tls : TLS) :
  ConfigureTLS lib tls = None ->
  NewClient lib vaultAddr tls = None ->
  roleID_of (environ w) (config.AuthID_ authConfig) = "" ->
  secretID_of (environ w) (config.AuthID_ authConfig) = "" ->
  token_of (environ w) (config.AuthID_ authConfig) <> "" ->
  let s := {| client := {| client_token := token_of (environ w) (config.AuthID_ authConfig);
                           renewer := None; authConfig := zeroVaultAuth |};
              renewing := false |} in
  manager_newAuthenticatedClient lib w vaultAddr authConfig tls = Returns s
  /\ hashicorp_newAuthenticatedClient lib w vaultAddr authConfig tls = Returns s.
Proof.
  unfold roleID_of, secretID_of, token_of. intros Htls Hnew Hr Hs Ht.
  unfold manager_newAuthenticatedClient, hashicorp_newAuthenticatedClient.
  rewrite Htls, Hnew. unfold getAuthCredentials. rewrite Hr, Hs.
  apply String.eqb_neq in Ht. rewrite Ht. cbn. split; reflexivity.
Qed.

Lemma newAuthenticatedClient_token_witness :
  manager_newAuthenticatedClient example_library token_world "https://vault:8200"
    {| config.AuthID_ := ""; config.ApprolePath := "approle" |} example_tls
  = Returns {| client := {| client_token := "s.token"; renewer := None;
                            authConfig := zeroVaultAuth |};
               renewing := false |}
  /\ hashicorp_newAuthenticatedClient example_library token_world "https://vault:8200"
       {| config.AuthID_ := ""; config.ApprolePath := "approle" |} example_tls
     = Returns {| client := {| client_token := "s.token"; renewer := None;
                               authConfig := zeroVaultAuth |};
                  renewing := false |}.
Proof.
  apply (newAuthenticatedClient_token example_library token_world "https://vault:8200"
           {| config.AuthID_ := ""; config.ApprolePath := "approle" |} example_tls);
    try reflexivity.
  vm_compute. discriminate.
Defined.

(** X14.  When role-id and secret-id are both set, the token variable plays
    no part: two environments that differ in nothing but the token give
    the same result, whatever the Vault answers. *)
Theorem newAuthenticatedClient_approle_first (lib : library) (env1 env2 : gmap string string)
    (write : loginRequest -> option api.Secret * option error)
    (vaultAddr : string) (authConfig : config.VaultAuth) (tls : TLS) :
  roleID_of env1 (config.AuthID_ authConfig) <> "" ->
  secretID_of env1 (config.AuthID_ authConfig) <> "" ->
  roleID_of env2 (config.AuthID_ authConfig) = roleID_of env1 (config.AuthID_ authConfig) ->
  secretID_of env2 (config.AuthID_ authConfig)
  = secretID_of env1 (config.AuthID_ authConfig) ->
  manager_newAuthenticatedClient lib {| environ := env1; Logical_Write := write |}
    vaultAddr authConfig tls
  = manager_newAuthenticatedClient lib {| environ := env2; Logical_Write := write |}
      vaultAddr authConfig tls
  /\ hashicorp_newAuthenticatedClient lib {| environ := env1; Logical_Write := write |}
       vaultAddr authConfig tls
     = hashicorp_newAuthenticatedClient lib {| environ := env2; Logical_Write := write |}
         vaultAddr authConfig tls.
Proof.
  unfold roleID_of, secretID_of. intros Hr Hs Hr2 Hs2.
  unfold manager_newAuthenticatedClient, hashicorp_newAuthenticatedClient.
  destruct (ConfigureTLS lib tls); [split; reflexivity |].
  destruct (NewClient lib vaultAddr tls); [split; reflexivity |].
  unfold getAuthCredentials. cbn [environ]. rewrite Hr2, Hs2.
  apply String.eqb_neq in Hr, Hs. rewrite Hr, Hs. cbn [andb negb orb].
  unfold usingApproleAuth, approleLogin, approleLogin_request.
  cbn [roleID secretID Logical_Write]. rewrite Hr, Hs. cbn [andb negb].
  split; reflexivity.
Qed.

Lemma newAuthenticatedClient_approle_first_witness :
  manager_newAuthenticatedClient example_library
    {| environ := approle_env; Logical_Write := Logical_Write vault_up |}
    "https://vault:8200" {| config.AuthID_ := ""; config.ApprolePath := "" |} example_tls
  = manager_newAuthenticatedClient example_library
      {| environ := <["QRM_HASHIVLT_TOKEN" := "s.token"]> approle_env;
         Logical_Write := Logical_Write vault_up |}
      "https://vault:8200" {| config.AuthID_ := ""; config.ApprolePath := "" |} example_tls
  /\ hashicorp_newAuthenticatedClient example_library
       {| environ := approle_env; Logical_Write := Logical_Write vault_up |}
       "https://vault:8200" {| config.AuthID_ := ""; config.ApprolePath := "" |} example_tls
     = hashicorp_newAuthenticatedClient example_library
         {| environ := <["QRM_HASHIVLT_TOKEN" := "s.token"]> approle_env;
            Logical_Write := Logical_Write vault_up |}
         "https://vault:8200" {| config.AuthID_ := ""; config.ApprolePath := "" |}
         example_tls.
Proof.
  apply (newAuthenticatedClient_approle_first example_library approle_env
           (<["QRM_HASHIVLT_TOKEN" := "s.token"]> approle_env) (Logical_Write vault_up)
           "https://vault:8200" {| config.AuthID_ := ""; config.ApprolePath := "" |}
           example_tls);
    vm_compute; first [discriminate | reflexivity].
Defined.

(** The constructor of [client.go] by the one of [internal/manager]: the
    same result but for the renewal, which it starts whenever the client
    has a renewer. *)
Lemma hashicorp_newAuthenticatedClient_eq (lib : library) (w : world)
    (vaultAddr : string) (authConfig : config.VaultAuth) (tls : TLS) :
  hashicorp_newAuthenticatedClient lib w vaultAddr authConfig tls
  = (s ← manager_newAuthenticatedClient lib w vaultAddr authConfig tls;
     Returns {| client := client s;
                renewing := bool_decide (is_Some (renewer (client s))) |})
  /\ forall s, manager_newAuthenticatedClient lib w vaultAddr authConfig tls = Returns s ->
       renewing s = true -> is_Some (renewer (client s)).
Proof.
  unfold manager_newAuthenticatedClient, hashicorp_newAuthenticatedClient.
  destruct (ConfigureTLS lib tls); [split; [reflexivity | discriminate] |].
  destruct (NewClient lib vaultAddr tls); [split; [reflexivity | discriminate] |].
  destruct (getAuthCredentials _ _) as [creds [e |]]; [split; [reflexivity | discriminate] |].
  destruct (usingApproleAuth creds); cbn [negb].
  2:{ split; [reflexivity |]. intros s [= <-]. discriminate. }
  destruct (approleLogin _ _ _) as [resp [e |]]; [split; [reflexivity | discriminate] |].
  destruct (api.TokenID resp) as [t [e |]]; [split; [reflexivity | discriminate] |].
  unfold api.NewRenewer. destruct resp as [resp |]; [| split; [reflexivity | discriminate]].
  cbv zeta. destruct (TokenIsRenewable lib (Some resp)) as [renewable err].
  split; [reflexivity |]. intros s [= <-]. cbn. eauto.
Qed.

(** X15.  The two constructors fail on the same inputs with the same error
    and otherwise build the same client.  They differ in the renewal: the
    one of [client.go] starts it for every client that logged in with an
    AppRole, the one of [internal/manager] only when the login response
    says that its token is renewable; neither starts it for a token. *)
Theorem newAuthenticatedClient_renewal (lib : library) (w : world) (vaultAddr : string)
    (authConfig : config.VaultAuth) (tls : TLS) :
  match manager_newAuthenticatedClient lib w vaultAddr authConfig tls,
        hashicorp_newAuthenticatedClient lib w vaultAddr authConfig tls with
  | Returns s, Returns s' =>
      client s' = client s
      /\ renewing s' = bool_decide (is_Some (renewer (client s)))
      /\ renewing s
         = bool_decide (is_Some (renewer (client s)))
           && fst (TokenIsRenewable lib (api.secret <$> renewer (client s)))
  | Fails e, Fails e' => e' = e
  | _, _ => False
  end.
Proof.
  unfold manager_newAuthenticatedClient, hashicorp_newAuthenticatedClient.
  destruct (ConfigureTLS lib tls); [reflexivity |].
  destruct (NewClient lib vaultAddr tls); [reflexivity |].
  destruct (getAuthCredentials _ _) as [creds [e |]]; [reflexivity |].
  destruct (usingApproleAuth creds); cbn [negb].
  2:{ cbn. repeat split. }
  destruct (approleLogin _ _ _) as [resp [e |]]; [reflexivity |].
  destruct (api.TokenID resp) as [t [e |]]; [reflexivity |].
  unfold api.NewRenewer. destruct resp as [resp |]; [| reflexivity].
  cbv zeta. destruct (TokenIsRenewable lib (Some resp)) as [renewable err] eqn:Hren.
  cbn. rewrite Hren. repeat split.
Qed.

(** The loop of [newVaultClientManager]: what it returns, for any
    constructor of clients. *)
Lemma make_clients_run
    (new : world -> string -> config.VaultAuth -> TLS -> outcome session)
    (worlds : nat -> world) (addr : string) (tls : TLS)
    (auths : list config.VaultAuth) :
  forall (i : nat) (clients : gmap string authenticatedClient)
         (started : list authenticatedClient),
  match fst (make_clients new worlds i addr tls auths clients started) with
  | Returns cs =>
      (forall id, id ∉ declared auths -> cs !! id = clients !! id)
      /\ (forall id, id ∈ declared auths ->
            exists j auth s,
              auths !! j = Some auth /\ config.AuthID_ auth = id
              /\ new (worlds (i + j)%nat) addr auth tls = Returns s
              /\ cs !! id = Some (client s)
              /\ forall k auth', (j < k)%nat -> auths !! k = Some auth' ->
                   config.AuthID_ auth' <> id)
  | Fails e =>
      exists j auth err,
        auths !! j = Some auth
        /\ new (worlds (i + j)%nat) addr auth tls = Fails err
        /\ e = PlainError ("unable to create client for Vault " ++ addr
                           ++ " using auth " ++ config.AuthID_ auth
                           ++ ": err: " ++ Error err)
        /\ forall k auth', (k < j)%nat -> auths !! k = Some auth' ->
             exists s, new (worlds (i + k)%nat) addr auth' tls = Returns s
  | Panics _ =>
      exists j auth msg,
        auths !! j = Some auth
        /\ new (worlds (i + j)%nat) addr auth tls = Panics msg
  end.
Proof.
  induction auths as [| auth rest IH]; intros i clients started.
  - cbn. split; [reflexivity |]. intros id Hid. now apply elem_of_nil in Hid.
  - cbn [make_clients].
    destruct (new (worlds i) addr auth tls) as [s | err | msg] eqn:Hnew.
    + specialize (IH (S i) (<[config.AuthID_ auth := client s]> clients)
                    (if renewing s then (started ++ [client s])%list else started)).
      destruct (fst (make_clients _ _ _ _ _ _ _ _)) as [cs | e | msg].
      * destruct IH as [Hout Hin]. split.
        -- intros id Hid. unfold declared in Hid. rewrite fmap_cons in Hid.
           apply not_elem_of_cons in Hid as [Hne Hid].
           rewrite (Hout id Hid). now rewrite lookup_insert_ne.
        -- intros id Hid. destruct (decide (id ∈ declared rest)) as [Hrest | Hrest].
           ++ destruct (Hin id Hrest) as (j & a & s' & Hj & Ha & Hs & Hcs & Hlast).
              exists (S j), a, s'. repeat split; try assumption.
              ** now replace (i + S j)%nat with (S i + j)%nat by lia.
              ** intros k a' Hk Hk'. destruct k as [| k]; [lia |].
                 apply (Hlast k a'); [lia | exact Hk'].
           ++ unfold declared in Hid. rewrite fmap_cons in Hid.
              apply elem_of_cons in Hid as [-> | Hid]; [| contradiction].
              exists 0%nat, auth, s. rewrite Nat.add_0_r.
              repeat split; try assumption; try reflexivity.
              ** rewrite (Hout _ Hrest). now rewrite lookup_insert_eq.
              ** intros k a' Hk Hk' Heq. destruct k as [| k]; [lia |].
                 apply Hrest. unfold declared. rewrite <- Heq.
                 apply list_elem_of_fmap_2. now apply list_elem_of_lookup_2 with k.
      * destruct IH as (j & a & err & Hj & Ha & He & Hbefore).
        exists (S j), a, err. repeat split; try assumption.
        -- now replace (i + S j)%nat with (S i + j)%nat by lia.
        -- intros k a' Hk Hk'. destruct k as [| k].
           ++ cbn in Hk'. injection Hk' as <-. rewrite Nat.add_0_r. eauto.
           ++ replace (i + S k)%nat with (S i + k)%nat by lia.
              apply (Hbefore k a'); [lia | exact Hk'].
      * destruct IH as (j & a & msg' & Hj & Ha).
        exists (S j), a, msg'. split; [exact Hj |].
        now replace (i + S j)%nat with (S i + j)%nat by lia.
    + cbn. exists 0%nat, auth, err. rewrite Nat.add_0_r.
      repeat split; try assumption; try reflexivity.
      intros k a' Hk. lia.
    + cbn. exists 0%nat, auth, msg. rewrite Nat.add_0_r. now split.
Qed.

Lemma manager_newAuthenticatedClient_no_panic (lib : library) (w : world)
    (vaultAddr : string) (authConfig : config.VaultAuth) (tls : TLS) (msg : string) :
  manager_newAuthenticatedClient lib w vaultAddr authConfig tls <> Panics msg.
Proof.
  unfold manager_newAuthenticatedClient.
  repeat match goal with
         | |- context [match ?x with _ => _ end] => destruct x
         end; discriminate.
Qed.

(** X16.  [newVaultClientManager] of [internal/manager] ends in one of two
    ways.  Either it returns a manager for the configured address and
    directory whose clients are exactly those of the declared auth-IDs,
    each the client built for the last auth config with its ID; a secret
    config with any other auth-ID is then refused without a read.  Or some
    client cannot be built: the error names the first such auth config,
    and every config before it was built. *)
Theorem newVaultClientManager_clients (lib : library) (worlds : nat -> world)
    (cfg : VaultConfig) :
  match fst (manager_newVaultClientManager lib worlds cfg) with
  | Returns m =>
      manager.vaultAddr m = vc_URL cfg
      /\ manager.acctConfigDir m = vc_AccountConfigDir cfg
      /\ (forall id, is_Some (manager.clients m !! id) <-> id ∈ declared (vc_Auth cfg))
      /\ (forall id c, manager.clients m !! id = Some c ->
            exists j auth s,
              vc_Auth cfg !! j = Some auth /\ config.AuthID_ auth = id
              /\ manager_newAuthenticatedClient lib (worlds j) (vc_URL cfg) auth (vc_TLS cfg)
                 = Returns s
              /\ c = client s
              /\ forall k auth', (j < k)%nat -> vc_Auth cfg !! k = Some auth' ->
                   config.AuthID_ auth' <> id)
      /\ (forall Read secretConfig,
            config.AuthID secretConfig ∉ declared (vc_Auth cfg) ->
            manager.getSecretFromVault Read m secretConfig
            = Fails (PlainError ("no client configured for Vault " ++ vc_URL cfg
                                 ++ " and authID " ++ config.AuthID secretConfig)))
  | Fails e =>
      exists j auth err,
        vc_Auth cfg !! j = Some auth
        /\ manager_newAuthenticatedClient lib (worlds j) (vc_URL cfg) auth (vc_TLS cfg)
           = Fails err
        /\ e = PlainError ("unable to create client for Vault " ++ vc_URL cfg
                           ++ " using auth " ++ config.AuthID_ auth
                           ++ ": err: " ++ Error err)
        /\ forall k auth', (k < j)%nat -> vc_Auth cfg !! k = Some auth' ->
             exists s, manager_newAuthenticatedClient lib (worlds k) (vc_URL cfg) auth'
                         (vc_TLS cfg) = Returns s
  | Panics _ => False
  end.
Proof.
  unfold manager_newVaultClientManager.
  pose proof (make_clients_run (manager_newAuthenticatedClient lib) worlds (vc_URL cfg)
                (vc_TLS cfg) (vc_Auth cfg) 0 ∅ []) as Hrun.
  destruct (make_clients _ _ _ _ _ _ _ _) as [[cs | e | msg] started];
    cbn [fst] in *.
  - destruct Hrun as [Hout Hin].
    assert (Hdom : forall id, is_Some (cs !! id) <-> id ∈ declared (vc_Auth cfg)).
    { intros id. split.
      - intros Hsome. destruct (decide (id ∈ declared (vc_Auth cfg))) as [| Hno];
          [assumption |].
        rewrite (Hout id Hno), lookup_empty in Hsome. now destruct Hsome.
      - intros Hid. destruct (Hin id Hid) as (j & a & s & _ & _ & _ & -> & _). eauto. }
    split; [reflexivity |]. split; [reflexivity |]. split; [exact Hdom |]. split.
    + intros id c Hc. cbn [manager.clients] in Hc.
      assert (Hid : id ∈ declared (vc_Auth cfg)) by (apply Hdom; eauto).
      destruct (Hin id Hid) as (j & a & s & Hj & Ha & Hs & Hcs & Hlast).
      exists j, a, s. repeat split; try assumption. congruence.
    + intros Read secretConfig Hno. unfold manager.getSecretFromVault.
      cbn [manager.clients manager.vaultAddr].
      rewrite (Hout _ Hno), lookup_empty. reflexivity.
  - exact Hrun.
  - destruct Hrun as (j & a & msg' & _ & Hp).
    now apply manager_newAuthenticatedClient_no_panic in Hp.
Qed.

Example newAuthenticatedClient_short_lease :
  manager_newAuthenticatedClient example_library vault_short_lease "https://vault:8200"
    {| config.AuthID_ := ""; config.ApprolePath := "" |} example_tls
  = Returns {| client := {| client_token := "s.once";
                            renewer := Some {| api.secret :=
                              {| api.Auth := Some {| api.ClientToken := "s.once";
                                                     api.Renewable := false |};
                                 api.Data := ∅ |} |};
                            authConfig := {| config.AuthID_ := "";
                                             config.ApprolePath := "" |} |};
               renewing := false |}
  /\ (s ← hashicorp_newAuthenticatedClient example_library vault_short_lease
             "https://vault:8200"
             {| config.AuthID_ := ""; config.ApprolePath := "" |} example_tls;
      Returns (renewing s))
     = Returns true.
Proof. split; vm_compute; reflexivity. Qed.

Example newVaultClientManager_first_failure :
  fst (manager_newVaultClientManager example_library (fun _ => vault_up)
         example_vault_config)
  = Fails (PlainError
      ("unable to create client for Vault https://vault:8200 using auth ops: err: "
       ++ "environment variables are necessary to authenticate with Hashicorp Vault: "
       ++ "set ops_QRM_HASHIVLT_ROLE_ID and ops_QRM_HASHIVLT_SECRET_ID if using Approle "
       ++ "authentication, else set ops_QRM_HASHIVLT_TOKEN"))
  /\ length (snd (manager_newVaultClientManager example_library (fun _ => vault_up)
                    example_vault_config)) = 1%nat.
Proof. split; vm_compute; reflexivity. Qed.

Example newVaultClientManager_example :
  dom (manager.clients
         (match fst (manager_newVaultClientManager example_library (fun _ => two_role_world)
                       example_vault_config) with
          | Returns m => m
          | _ => {| manager.vaultAddr := ""; manager.acctConfigDir := "";
                    manager.clients := ∅ |}
          end))
  = ({[ ""; "ops" ]} : gset string).
Proof. vm_compute. reflexivity. Qed.

(** The two loops side by side. *)
Lemma make_clients_both (lib : library) (worlds : nat -> world) (addr : string)
    (tls : TLS) (auths : list config.VaultAuth) :
  forall (i : nat) (clients : gmap string authenticatedClient)
         (started started' : list authenticatedClient),
  sublist started started' ->
  fst (make_clients (hashicorp_newAuthenticatedClient lib) worlds i addr tls auths
         clients started')
  = fst (make_clients (manager_newAuthenticatedClient lib) worlds i addr tls auths
           clients started)
  /\ sublist
       (snd (make_clients (manager_newAuthenticatedClient lib) worlds i addr tls auths
               clients started))
       (snd (make_clients (hashicorp_newAuthenticatedClient lib) worlds i addr tls auths
               clients started')).
Proof.
  induction auths as [| auth rest IH]; intros i clients started started' Hsub.
  - cbn. now split.
  - cbn [make_clients].
    destruct (hashicorp_newAuthenticatedClient_eq lib (worlds i) addr auth tls)
      as [-> Hrenewing].
    destruct (manager_newAuthenticatedClient lib (worlds i) addr auth tls) as [s | e | msg];
      cbn [mbind outcome_bind bind]; [| now split | now split].
    cbn [client renewing]. apply IH.
    destruct (renewing s) eqn:Hs.
    + rewrite bool_decide_eq_true_2 by (now apply Hrenewing).
      now apply sublist_app.
    + destruct (bool_decide _); [apply sublist_inserts_r |]; exact Hsub.
Qed.

(** X17.  For the same configuration and the same worlds the constructor
    of [client.go] ends as the one of [internal/manager] does: with the
    same error, or with a manager for the same address that has the same
    clients.  The renewals it has started include those the other one
    starts. *)
Theorem newVaultClientManager_both (lib : library) (worlds : nat -> world)
    (cfg : VaultConfig) :
  let cfg' := {| hc_Addr := vc_URL cfg; hc_TLS := vc_TLS cfg; hc_Auth := vc_Auth cfg |} in
  match fst (manager_newVaultClientManager lib worlds cfg),
        fst (hashicorp_newVaultClientManager lib worlds cfg') with
  | Returns m, Returns m' =>
      hashicorp.vaultAddr m' = manager.vaultAddr m
      /\ hashicorp.clients m' = manager.clients m
  | Fails e, Fails e' => e' = e
  | _, _ => False
  end
  /\ sublist (snd (manager_newVaultClientManager lib worlds cfg))
       (snd (hashicorp_newVaultClientManager lib worlds cfg')).
Proof.
  cbv zeta. unfold manager_newVaultClientManager, hashicorp_newVaultClientManager.
  cbn [hc_Addr hc_TLS hc_Auth].
  pose proof (make_clients_both lib worlds (vc_URL cfg) (vc_TLS cfg) (vc_Auth cfg) 0 ∅
                [] [] (sublist_nil)) as [Hfst Hsnd].
  pose proof (make_clients_run (manager_newAuthenticatedClient lib) worlds (vc_URL cfg)
                (vc_TLS cfg) (vc_Auth cfg) 0 ∅ []) as Hrun.
  destruct (make_clients (manager_newAuthenticatedClient lib) _ _ _ _ _ _ _)
    as [[cs | e | msg] started],
    (make_clients (hashicorp_newAuthenticatedClient lib) _ _ _ _ _ _ _)
    as [[cs' | e' | msg'] started'];
    cbn [fst snd] in *; try discriminate.
  - injection Hfst as ->. now split.
  - injection Hfst as ->. now split.
  - destruct Hrun as (j & a & msg0 & _ & Hp).
    now apply manager_newAuthenticatedClient_no_panic in Hp.
Qed.

End construction_facts.

(* ===================================================================== *)
(** * Storing and reading keys                                            *)
(* ===================================================================== *)

Section keys_facts.

Import credentials manager manager_keys.

Lemma parse_digits_nonneg (s : string) (acc : Z) (un : Z) :
  (0 <= acc)%Z -> parse_digits s acc = Some un -> (0 <= un)%Z.
Proof.
  revert acc. induction s as [| c s IH]; intros acc Hacc; cbn [parse_digits].
  - intros [= <-]. exact Hacc.
  - destruct (isDigit c); [| discriminate]. apply IH. lia.
Qed.

(** A version that [ParseInt] accepts is an [int64]. *)
Lemma strconv_ParseInt_range (s : string) (v : Z) :
  strconv_ParseInt s = Some v -> (- 2 ^ 63 <= v < 2 ^ 63)%Z.
Proof.
  unfold strconv_ParseInt. destruct s as [| c rest]; [discriminate |].
  cbv zeta.
  set (neg := Ascii.eqb c "-").
  match goal with
  | |- context [if ?b then rest else ?s] => generalize (if b then rest else s)
  end.
  intros [| d ds]; [discriminate |].
  destruct (parse_digits (String d ds) 0) as [un |] eqn:Hun; [| discriminate].
  apply parse_digits_nonneg in Hun; [| lia].
  destruct neg; cbn [negb andb].
  - destruct (2 ^ 63 <? un)%Z eqn:Hlt; [discriminate |].
    apply Z.ltb_ge in Hlt. intros [= <-]. lia.
  - destruct (2 ^ 63 <=? un)%Z eqn:Hle; [discriminate |].
    apply Z.leb_gt in Hle. intros [= <-]. lia.
Qed.

Lemma storeInVault_body_data (env : platform) (cfg : config.VaultSecretConfig)
    (k : Key (PrivateKey env)) :
  storeInVault_body env cfg k !! "data"
  = Some (api.VObject
            {[ hex_EncodeToString (key_Address k)
               := api.VString (hex_EncodeToString
                                 (crypto_FromECDSA env (key_PrivateKey k))) ]}).
Proof.
  unfold storeInVault_body. cbv zeta.
  destruct (config.InsecureSkipCas cfg); cbn [negb].
  - now rewrite lookup_insert_eq.
  - rewrite lookup_insert_ne by discriminate. now rewrite lookup_insert_eq.
Qed.

(** X18.  [storeInVault] returns a URI and a version exactly when the
    client of the auth-ID exists, the key is there, the write gives a
    response without error, and the response has a [version] that is a
    number in the range of [int64]; the URI is then the client's address,
    [/v1/], the data path of the secret and [?version=] with that number. *)
Theorem storeInVault_returns (env : platform) (m : vaultClientManager)
    (cfg : config.VaultSecretConfig) (k : option (Key (PrivateKey env)))
    (uri : string) (v : Z) :
  storeInVault env m cfg k = Returns (uri, v)
  <-> exists client k' resp n,
        clients m !! config.AuthID cfg = Some client
        /\ k = Some k'
        /\ Logical_Write env client (dataPath (config.PathParams_ cfg))
             (storeInVault_body env cfg k') = (Some resp, None)
        /\ api.Data resp !! "version" = Some (api.VNumber n)
        /\ strconv_ParseInt n = Some v
        /\ (- 2 ^ 63 <= v < 2 ^ 63)%Z
        /\ uri = client_Address env client ++ "/v1/" ++ dataPath (config.PathParams_ cfg)
                 ++ "?version=" ++ pretty v.
Proof.
  unfold storeInVault. split.
  - destruct (clients m !! config.AuthID cfg) as [client |]; [| discriminate].
    destruct k as [k' |]; [| discriminate]. cbn [deref mbind outcome_bind bind].
    destruct (Logical_Write env client _ _) as [resp [err |]] eqn:Hwrite; [discriminate |].
    destruct resp as [resp |]; [| discriminate]. cbn [deref mbind outcome_bind bind].
    destruct (api.Data resp !! "version") as [x |] eqn:Hversion; [| discriminate].
    destruct (strconv_ParseInt _) as [v' |] eqn:Hparse; [| discriminate].
    intros [= <- <-].
    destruct x as [| | n | | |]; try discriminate Hparse.
    exists client, k', resp, n. repeat split; try assumption; try reflexivity;
      apply (strconv_ParseInt_range _ _ Hparse).
  - intros (client & k' & resp & n & -> & -> & Hwrite & Hversion & Hparse & _ & ->).
    cbn [deref mbind outcome_bind bind]. rewrite Hwrite.
    cbn [deref mbind outcome_bind bind]. rewrite Hversion, Hparse. reflexivity.
Qed.

(** X19.  [storeInVault] panics exactly when the client of the auth-ID
    exists and either the key is nil or the write comes back with neither
    a response nor an error: the response is read without a nil test. *)
Theorem storeInVault_panics (env : platform) (m : vaultClientManager)
    (cfg : config.VaultSecretConfig) (k : option (Key (PrivateKey env)))
    (msg : string) :
  storeInVault env m cfg k = Panics msg
  <-> msg = nil_dereference
      /\ exists client,
           clients m !! config.AuthID cfg = Some client
           /\ match k with
              | None => True
              | Some k' =>
                  Logical_Write env client (dataPath (config.PathParams_ cfg))
                    (storeInVault_body env cfg k') = (None, None)
              end.
Proof.
  unfold storeInVault. split.
  - destruct (clients m !! config.AuthID cfg) as [client |]; [| discriminate].
    destruct k as [k' |]; cbn [deref mbind outcome_bind bind].
    2:{ intros [= <-]. split; [reflexivity |]. now exists client. }
    destruct (Logical_Write env client _ _) as [resp [err |]] eqn:Hwrite; [discriminate |].
    destruct resp as [resp |]; cbn [deref mbind outcome_bind bind].
    + destruct (api.Data resp !! "version") as [x |]; [| discriminate].
      destruct (strconv_ParseInt _); discriminate.
    + intros [= <-]. split; [reflexivity |]. now exists client.
  - intros (-> & client & -> & Hk). destruct k as [k' |]; [| reflexivity].
    cbn [deref mbind outcome_bind bind]. rewrite Hk. reflexivity.
Qed.

(** X20.  What [storeInVault] writes, [getSecretFromVault] reads: when the
    Vault answers the read of the secret with the [data] of the body that
    was written, the secret returned is the key in hexadecimal, whether or
    not the write carried a check-and-set option. *)
Theorem getSecretFromVault_reads_stored (env : platform) (m : vaultClientManager)
    (cfg : config.VaultSecretConfig) (k : Key (PrivateKey env))
    (client : authenticatedClient) (resp : api.Secret) :
  clients m !! config.AuthID cfg = Some client ->
  Logical_ReadWithData env client (dataPath (config.PathParams_ cfg))
    (versionQuery (config.PathParams_ cfg)) = (Some resp, None) ->
  api.Data resp !! "data" = storeInVault_body env cfg k !! "data" ->
  getSecretFromVault (Logical_ReadWithData env) m cfg
  = Returns (hex_EncodeToString (crypto_FromECDSA env (key_PrivateKey k))).
Proof.
  intros Hclient Hread Hdata. unfold getSecretFromVault.
  rewrite Hclient. cbv zeta. rewrite Hread, Hdata, storeInVault_body_data.
  rewrite map_size_singleton. cbn [Nat.eqb negb].
  now rewrite map_to_list_singleton.
Qed.

Lemma storeInFile_kept (env : platform) (fs fs' : FS env) (filename : string)
    (conf : AccountConfig) :
  files_kept env ->
  storeInFile env fs filename conf = (fs', Returns tt) ->
  exists bytes,
    json_Marshal env conf = Returns bytes
    /\ ioutil_ReadFile env fs' filename = Returns bytes.
Proof.
  intros Hkept. unfold storeInFile.
  destruct (json_Marshal env conf) as [bytes | err | msg]; try (intros [= _ ?]; discriminate).
  destruct (writeTemporaryKeyFile env fs filename bytes) as [fs1 [tmp | err | msg]] eqn:Hw;
    try (intros [= _ ?]; discriminate).
  destruct (os_Rename env fs1 tmp filename) as [fs2 [err |]] eqn:Hr;
    [intros [= _ ?]; discriminate |].
  intros [= <-]. exists bytes. split; [reflexivity |]. exact (Hkept _ _ _ _ _ _ Hw Hr).
Qed.

(** X21.  A key stored with [StoreKey] is found by [GetKey] under its own
    address: when the file system keeps the file and the JSON coding reads
    the config back, [GetKey] passes every test on the file and goes to
    the Vault for the version that the write reported, not the version of
    the config that was handed to [StoreKey].  The Id of the key it
    returns is the string form of the stored Id taken as bytes. *)
Theorem GetKey_after_StoreKey (env : platform) (fs fs' : FS env)
    (m : vaultClientManager) (filename auth : string)
    (cfg : config.VaultSecretConfig) (k : Key (PrivateKey env))
    (acct : accounts.Account) (uri : string) :
  StoreKey env fs m filename cfg (Some k) = (fs', Returns (acct, uri)) ->
  files_kept env ->
  (forall v, storeInVault env m cfg (Some k) = Returns (uri, v) ->
             json_reads_back env (stored_config env cfg k v)) ->
  length (key_Address k) = common.AddressLength ->
  exists v,
    storeInVault env m cfg (Some k) = Returns (uri, v)
    /\ GetKey env fs' m (key_Address k) filename auth
       = key_from_vault env m (stored_config env cfg k v).
Proof.
  intros Hstore Hkept Hjson Hlen. unfold StoreKey in Hstore.
  destruct (storeInVault env m cfg (Some k)) as [[uri' v] | err | msg];
    try (injection Hstore as _ ?; discriminate).
  cbv zeta in Hstore. fold (stored_config env cfg k v) in Hstore.
  destruct (storeInFile env fs filename (stored_config env cfg k v))
    as [fs1 [[] | err | msg]] eqn:Hfile;
    try (injection Hstore as _ ?; discriminate).
  destruct (config_ToAccount env _ _) as [acct' | err | msg];
    try (injection Hstore as _ ?; discriminate).
  injection Hstore as -> <- <-.
  exists v. split; [reflexivity |].
  destruct (storeInFile_kept env fs fs' filename _ Hkept Hfile) as (bytes & Hm & Hread).
  unfold GetKey. rewrite Hread. cbn [mbind outcome_bind bind].
  rewrite (Hjson v eq_refl bytes Hm). cbn [mbind outcome_bind bind].
  destruct (decide (stored_config env cfg k v = zeroAccountConfig)) as [Hzero | _].
  { apply (f_equal Address) in Hzero. cbn in Hzero.
    apply (f_equal String.length) in Hzero.
    change (hex_EncodeToString (key_Address k)) with (common.Bytes2Hex (key_Address k))
      in Hzero.
    rewrite Bytes2Hex_length, Hlen in Hzero. discriminate. }
  cbn [Address stored_config].
  change (hex_EncodeToString (key_Address k)) with (common.Bytes2Hex (key_Address k)).
  rewrite (IsHexAddress_Bytes2Hex _ Hlen). cbn [negb]. cbv zeta.
  rewrite (HexToAddress_Bytes2Hex _ Hlen).
  destruct (decide (key_Address k <> key_Address k)) as [Hne | _]; [now destruct Hne |].
  reflexivity.
Qed.

(** X22.  [GetKey] does not go to the Vault for a file of another account:
    when the address in the file is not a hexadecimal address, or is not
    the address asked for, [GetKey] fails, and fails in the same way
    whatever clients the manager has and whatever the Vault holds. *)
Theorem GetKey_address_guard (env : platform) (fs : FS env) (m : vaultClientManager)
    (addr : common.Address) (filename auth : string) (bytes : list byte)
    (conf : AccountConfig) :
  ioutil_ReadFile env fs filename = Returns bytes ->
  json_Unmarshal AccountConfig (checkValid env) (decode env) bytes
    (ByPointer zeroAccountConfig) = Returns conf ->
  common.IsHexAddress (Address conf) = false
  \/ common.HexToAddress (Address conf) <> addr ->
  exists err,
    GetKey env fs m addr filename auth = Fails err
    /\ forall m' reads,
         GetKey (with_reads env reads) fs m' addr filename auth = Fails err.
Proof.
  intros Hread Hconf Haddr. unfold GetKey. cbn [with_reads ioutil_ReadFile checkValid decode
    Address_v Address_x].
  rewrite Hread. cbn [mbind outcome_bind bind]. rewrite Hconf.
  cbn [mbind outcome_bind bind].
  destruct (decide (conf = zeroAccountConfig)); [eauto |].
  destruct (common.IsHexAddress (Address conf)) eqn:Hhex; cbn [negb]; [| eauto].
  destruct Haddr as [Hno | Hne]; [discriminate |]. cbv zeta.
  destruct (decide (common.HexToAddress (Address conf) <> addr)); [eauto | contradiction].
Qed.

End keys_facts.

Section keys_examples.

Import credentials manager manager_keys.

Example StoreKey_example :
  snd (StoreKey example_platform ∅ example_client_manager "/keys/a.json"
         (example_secret_config "vaultID") (Some example_key))
  = Returns ({| accounts.Address := example_address x2a;
                accounts.URL_ := {| accounts.Scheme := "hashivlt";
                                    accounts.Path := "1020" |} |},
             "http://vault:8200/v1/kv/data/acct1?version=4")
  /\ example_files = {[ "/keys/a.json" := [x01] ]}.
Proof. split; vm_compute; reflexivity. Qed.

Lemma example_files_kept : files_kept example_platform.
Proof.
  intros fs name content fs1 tmp fs2.
  cbn [example_platform writeTemporaryKeyFile os_Rename ioutil_ReadFile].
  intros [= <- <-]. rewrite lookup_insert_eq. intros [= <-].
  now rewrite lookup_insert_eq.
Defined.

Lemma getSecretFromVault_reads_stored_witness :
  getSecretFromVault (Logical_ReadWithData example_platform) example_client_manager
    (with_version (example_secret_config "vaultID") 4)
  = Returns "07".
Proof.
  apply (getSecretFromVault_reads_stored example_platform example_client_manager
           (with_version (example_secret_config "vaultID") 4) example_key
           example_session
           {| api.Auth := None;
              api.Data := {[ "data" := api.VObject
                                        {[ hex_EncodeToString (example_address x2a)
                                           := api.VString "07" ]} ]} |});
    vm_compute; reflexivity.
Defined.

Lemma GetKey_after_StoreKey_witness :
  exists v,
    storeInVault example_platform example_client_manager (example_secret_config "vaultID")
      (Some example_key)
    = Returns ("http://vault:8200/v1/kv/data/acct1?version=4", v)
    /\ GetKey example_platform example_files example_client_manager
         (key_Address example_key) "/keys/a.json" ""
       = key_from_vault example_platform example_client_manager
           (stored_config example_platform (example_secret_config "vaultID")
              example_key v).
Proof.
  apply (GetKey_after_StoreKey example_platform ∅ example_files example_client_manager
           "/keys/a.json" "" (example_secret_config "vaultID") example_key
           {| accounts.Address := example_address x2a;
              accounts.URL_ := {| accounts.Scheme := "hashivlt";
                                  accounts.Path := "1020" |} |}
           "http://vault:8200/v1/kv/data/acct1?version=4").
  - vm_compute. reflexivity.
  - exact example_files_kept.
  - intros v Hv. vm_compute in Hv. injection Hv as <-.
    intros bytes Hbytes. vm_compute in Hbytes. injection Hbytes as <-.
    vm_compute. reflexivity.
  - reflexivity.
Defined.

Example storeInVault_no_response :
  storeInVault (with_writes example_platform (fun _ _ _ => (None, None)))
    example_client_manager (example_secret_config "vaultID") (Some example_key)
  = Panics nil_dereference.
Proof. vm_compute. reflexivity. Qed.

Example storeInVault_version_as_string :
  storeInVault
    (with_writes example_platform
       (fun _ _ _ => (Some {| api.Auth := None;
                              api.Data := {[ "version" := api.VString "4" ]} |}, None)))
    example_client_manager (example_secret_config "vaultID") (Some example_key)
  = Fails (PlainError
      ("secret written to Vault but unable to convert version in Vault response to "
       ++ "int64: secret: http://vault:8200/v1/kv/data/acct1, version: ")).
Proof. vm_compute. reflexivity. Qed.

Example storeInVault_body_example :
  storeInVault_body example_platform (example_secret_config "vaultID") example_key
  = {[ "data" := api.VObject {[ "000000000000000000000000000000000000002a"
                                := api.VString "07" ]};
       "options" := api.VObject {[ "cas" := api.VNumber "0" ]} ]}.
Proof. vm_compute. reflexivity. Qed.

Example strconv_ParseInt_examples :
  strconv_ParseInt "42" = Some 42%Z /\ strconv_ParseInt "-7" = Some (-7)%Z
  /\ strconv_ParseInt "+0" = Some 0%Z /\ strconv_ParseInt "" = None
  /\ strconv_ParseInt "-" = None /\ strconv_ParseInt "4.0" = None
  /\ strconv_ParseInt "9223372036854775807" = Some 9223372036854775807%Z
  /\ strconv_ParseInt "9223372036854775808" = None
  /\ strconv_ParseInt "-9223372036854775808" = Some (-9223372036854775808)%Z.
Proof. repeat split; vm_compute; reflexivity. Qed.

Example GetKey_example :
  GetKey example_platform example_files example_client_manager
    (example_address x2a) "/keys/a.json" ""
  = Returns {| key_Id := list_byte_of_string "1020";
               key_Address := example_address x2a;
               key_PrivateKey := 7%Z |}.
Proof. vm_compute. reflexivity. Qed.

Lemma GetKey_address_guard_witness :
  exists err,
    GetKey example_platform example_files example_client_manager (example_address x2b)
      "/keys/a.json" "" = Fails err
    /\ forall m' reads,
         GetKey (with_reads example_platform reads) example_files m' (example_address x2b)
           "/keys/a.json" "" = Fails err.
Proof.
  apply (GetKey_address_guard example_platform example_files example_client_manager
           (example_address x2b) "/keys/a.json" "" [x01] example_stored_config).
  - vm_compute. reflexivity.
  - vm_compute. reflexivity.
  - right. vm_compute. discriminate.
Defined.

End keys_examples.

(* ===================================================================== *)
(** * The RPC adapter: accounts in requests                               *)
(* ===================================================================== *)

Section adapter_more.

Import internal.

Lemma IsHexAddress_Bytes2Hex_length (d : list byte) :
  common.IsHexAddress (common.Bytes2Hex d) = (length d =? common.AddressLength)%nat.
Proof.
  unfold common.IsHexAddress, common.isHex.
  rewrite Bytes2Hex_no_prefix, Bytes2Hex_length, Bytes2Hex_allHex.
  replace ((2 * length d) mod 2)%nat with 0%nat
    by (rewrite Nat.mul_comm; symmetry; apply Nat.Div0.mod_mul).
  cbn [Nat.eqb negb]. rewrite andb_true_r.
  destruct (Nat.eqb_spec (length d) common.AddressLength) as [-> | Hne].
  - reflexivity.
  - apply Nat.eqb_neq. unfold common.AddressLength in *. lia.
Qed.

(** X23.  [asAccount] accepts exactly the accounts whose address has 20
    bytes.  For such an account the result stands or falls with the URL
    parser, and the address returned is the address received; for any
    other the error shows the address in hexadecimal, and the URL is not
    looked at. *)
Theorem asAccount_by_length (utils_ToUrl : string -> outcome accounts.URL)
    (p : proto.Account) :
  asAccount utils_ToUrl (Some p)
  = if (length (proto.Address p) =? common.AddressLength)%nat then
      match utils_ToUrl (proto.Url p) with
      | Returns url =>
          Returns {| accounts.Address := proto.Address p; accounts.URL_ := url |}
      | Fails err => Fails err
      | Panics msg => Panics msg
      end
    else
      Fails (PlainError ("invalid hex address: " ++ common.Bytes2Hex (proto.Address p))).
Proof.
  unfold asAccount. cbn [deref mbind outcome_bind bind].
  rewrite (TrimSpace_noSpace _ (Bytes2Hex_noSpace _)).
  rewrite IsHexAddress_Bytes2Hex_length.
  destruct (Nat.eqb_spec (length (proto.Address p)) common.AddressLength) as [Hlen | Hne];
    cbn [negb]; [| reflexivity].
  rewrite (HexToAddress_Bytes2Hex _ Hlen).
  destruct (utils_ToUrl (proto.Url p)); reflexivity.
Qed.

Context {Transaction PrivateKey : Type}.
Variable rlp_DecodeBytes : list byte -> outcome Transaction.
Variable rlp_EncodeToBytes : Transaction -> outcome (list byte).
Variable utils_ToUrl : string -> outcome accounts.URL.
Variable am : HashicorpVaultAccountManager Transaction PrivateKey.

(** X24.  A request without account makes a handler panic only once the
    wallet has been found: the handlers that take a wallet URL look the
    wallet up first, and answer an unknown wallet with an [Internal]
    error, account or no account.  [NewAccount] and [ImportRawKey] panic
    on a request without vault account before anything else. *)
Theorem handlers_without_account (url pass : string) (data chainID : list byte)
    (crypto_HexToECDSA : string -> outcome PrivateKey) (key : string) :
  Contains utils_ToUrl am url None = without_account am url
  /\ SignHash utils_ToUrl am url None data = without_account am url
  /\ SignTx rlp_DecodeBytes rlp_EncodeToBytes utils_ToUrl am url None data chainID
     = without_account am url
  /\ SignHashWithPassphrase utils_ToUrl am url None pass data = without_account am url
  /\ SignTxWithPassphrase rlp_DecodeBytes rlp_EncodeToBytes utils_ToUrl am url None pass
       data chainID
     = without_account am url
  /\ NewAccount am None = Panics nil_dereference
  /\ ImportRawKey crypto_HexToECDSA am key None = Panics nil_dereference.
Proof.
  unfold Contains, SignHash, SignTx, SignHashWithPassphrase, SignTxWithPassphrase,
    NewAccount, ImportRawKey, without_account.
  destruct (am_Wallet am url); repeat split; reflexivity.
Qed.

End adapter_more.

(* ===================================================================== *)
(** * The transaction signers, and the renewal of [internal/manager]      *)
(* ===================================================================== *)

Section signers_more.

Import internal.

Context {Transaction PrivateKey : Type}.
Variable rlp_DecodeBytes : list byte -> outcome Transaction.
Variable rlp_EncodeToBytes : Transaction -> outcome (list byte).
Variable utils_ToUrl : string -> outcome accounts.URL.
Variable am : HashicorpVaultAccountManager Transaction PrivateKey.

Lemma SignTxWithPassphrase_errors (url : string) (acct : option proto.Account)
    (pass : string) (rlpTx chainID : list byte) (e : error) :
  SignTxWithPassphrase rlp_DecodeBytes rlp_EncodeToBytes utils_ToUrl am url acct pass
    rlpTx chainID = Fails e ->
  (exists msg, e = StatusError Internal msg)
  \/ (exists tx, rlp_EncodeToBytes tx = Fails e).
Proof.
  unfold SignTxWithPassphrase.
  destruct (am_Wallet am url) as [w | ? | ?]; cbn; [| intros [= <-]; eauto | discriminate].
  destruct (asAccount utils_ToUrl acct) as [a | ? | ?]; cbn;
    [| intros [= <-]; eauto | discriminate].
  destruct (rlp_DecodeBytes rlpTx) as [tx | ? | ?]; cbn;
    [| intros [= <-]; eauto | discriminate].
  destruct (w_SignTxWithPassphrase w a pass tx (SetBytes chainID)) as [signed | ? | ?]; cbn;
    [| intros [= <-]; eauto | discriminate].
  destruct (rlp_EncodeToBytes signed) as [bs | e' | ?] eqn:Henc; cbn;
    [discriminate | intros [= <-]; eauto | discriminate].
Qed.

(** X26.  An error of [SignTx] or [SignTxWithPassphrase] has the code
    [Internal], or it is an error of the RLP encoder, returned as the
    encoder made it.  An encoder that never fails therefore leaves the two
    signers with coded errors only. *)
Theorem signers_error_sources (url : string) (acct : option proto.Account)
    (pass : string) (rlpTx chainID : list byte) :
  (forall tx e, rlp_EncodeToBytes tx <> Fails e) ->
  coded (SignTx rlp_DecodeBytes rlp_EncodeToBytes utils_ToUrl am url acct rlpTx chainID)
  /\ coded (SignTxWithPassphrase rlp_DecodeBytes rlp_EncodeToBytes utils_ToUrl am url acct
              pass rlpTx chainID).
Proof.
  intros Henc. split; intros e He.
  - apply SignTx_errors in He as [Hcoded | [tx Htx]]; [exact Hcoded |].
    now apply Henc in Htx.
  - apply SignTxWithPassphrase_errors in He as [Hcoded | [tx Htx]]; [exact Hcoded |].
    now apply Henc in Htx.
Qed.

End signers_more.

Lemma signers_error_sources_witness :
  coded (internal.SignTx example_decode (fun tx => Returns (payload tx)) example_ToUrl
           example_manager "keystore:///keys/a.json" example_request_account [x01] [x01])
  /\ coded (internal.SignTxWithPassphrase example_decode (fun tx => Returns (payload tx))
              example_ToUrl example_manager "keystore:///keys/a.json"
              example_request_account "pass" [x01] [x01]).
Proof.
  apply (signers_error_sources example_decode (fun tx => Returns (payload tx))
           example_ToUrl example_manager "keystore:///keys/a.json"
           example_request_account "pass" [x01] [x01]).
  intros tx e. discriminate.
Defined.

Section renewal_more.

Import credentials.

(** X30.  After a re-authentication that succeeded, the token and the
    renewer of the client come from one and the same login response.
    After one that failed the renewer is the old one, and so is the token,
    unless the login came back with neither a response nor an error: the
    token is then empty.  The auth config never changes. *)
Theorem reauthenticate_outcome (w : world) (ac : authenticatedClient) :
  let ac' := fst (manager.reauthenticate w ac) in
  authConfig ac' = authConfig ac
  /\ match snd (manager.reauthenticate w ac) with
     | None =>
         exists creds resp,
           approleLogin w creds (config.ApprolePath (authConfig ac)) = (Some resp, None)
           /\ renewer ac' = Some {| api.secret := resp |}
           /\ api.TokenID (Some resp) = (client_token ac', None)
     | Some _ =>
         renewer ac' = renewer ac
         /\ (client_token ac' = client_token ac
             \/ (client_token ac' = ""
                 /\ exists creds,
                      approleLogin w creds (config.ApprolePath (authConfig ac))
                      = (None, None)))
     end.
Proof.
  cbv zeta. unfold manager.reauthenticate.
  destruct (getAuthCredentials _ _) as [creds [e |]]; [cbn; auto |].
  destruct (approleLogin w creds _) as [resp [e |]] eqn:Hlogin; [cbn; auto |].
  destruct resp as [resp |].
  - destruct (api.TokenID (Some resp)) as [t [e |]] eqn:Htoken; [cbn; auto |].
    cbn. split; [reflexivity |]. exists creds, resp. auto.
  - cbn. split; [reflexivity |]. split; [reflexivity |]. right. split; [reflexivity |].
    now exists creds.
Qed.

(** The retry loop with the client it ends with. *)
Lemma reauth_loop_run (failing : list world) (good : world) (rest : list world) :
  forall (i : nat) (ac : authenticatedClient) (trace : list effect),
  Forall (refused (authConfig ac)) failing ->
  accepted (authConfig ac) good ->
  exists ac0 trace0,
    manager.reauth_loop i (failing ++ good :: rest) ac trace
    = (fst (manager.reauthenticate good ac0),
       (trace0 ++ [LogDebug "successfully re-authenticated with Vault"])%list,
       Some rest)
    /\ authConfig ac0 = authConfig ac
    /\ sleeps trace0
       = (sleeps trace ++ repeat manager.reauthRetryInterval (length failing))%list.
Proof.
  induction failing as [| w failing IH]; intros i ac trace Hall Hgood.
  - cbn [app manager.reauth_loop]. specialize (Hgood ac eq_refl).
    destruct (manager.reauthenticate good ac) as [ac1 [e |]] eqn:Hre; [discriminate |].
    exists ac, trace. rewrite Hre. cbn. now rewrite app_nil_r.
  - apply Forall_cons in Hall as [Hw Hall].
    cbn [app manager.reauth_loop].
    pose proof (reauthenticate_authConfig w ac) as Hcfg.
    specialize (Hw ac eq_refl).
    destruct (manager.reauthenticate w ac) as [ac1 [e |]]; [| cbn in Hw; congruence].
    cbn [fst] in Hcfg.
    destruct (IH (S i) ac1
                (trace ++ [LogError ("unable to reauthenticate with Vault (attempt "
                                     ++ pretty i ++ ")") e;
                           Sleep manager.reauthRetryInterval])%list)
      as (ac0 & trace0 & Hrun & Hcfg0 & Hsleeps).
    { now rewrite Hcfg. }
    { now rewrite Hcfg. }
    exists ac0, trace0. split; [exact Hrun |]. split; [congruence |].
    rewrite Hsleeps, sleeps_app. cbn. now rewrite <- app_assoc.
Qed.

(** X27.  As long as every attempt to re-authenticate is refused, [renew]
    of [internal/manager] stays in its retry loop: it does not go back to
    the renewer's channels, and it has slept [reauthRetryInterval] after
    each attempt. *)
Theorem manager_renew_while_refused (ac : authenticatedClient) (err : option error)
    (events : list renewal) (worlds : list world) :
  Forall (refused (authConfig ac)) worlds ->
  exists ac' trace,
    manager.renew ac (DoneCh err :: events) worlds = (ac', trace, Reauthenticating)
    /\ authConfig ac' = authConfig ac
    /\ sleeps trace = repeat manager.reauthRetryInterval (length worlds).
Proof.
  intros Hall. unfold manager.renew. cbn [manager.renew_loop].
  match goal with
  | |- context [manager.reauth_loop 1 worlds ac ?t] =>
      destruct (reauth_loop_refused worlds 1 ac t Hall) as (ac' & trace' & Hrun & Hcfg & Hs);
        rewrite Hrun
  end.
  exists ac', trace'. split; [reflexivity |]. split; [exact Hcfg |].
  rewrite Hs. now destruct err.
Qed.

(** X28.  When the renewer is done and the Vault refuses some attempts and
    then accepts one, [renew] of [internal/manager] sleeps
    [reauthRetryInterval] once per refused attempt, takes the client of
    the accepted attempt, starts its renewer and waits again. *)
Theorem manager_renew_until_accepted (ac : authenticatedClient) (err : option error)
    (failing : list world) (good : world) (rest : list world) :
  Forall (refused (authConfig ac)) failing ->
  accepted (authConfig ac) good ->
  exists ac0 trace,
    manager.renew ac [DoneCh err] (failing ++ good :: rest)
    = (fst (manager.reauthenticate good ac0),
       (trace ++ [GoRenew (renewer (fst (manager.reauthenticate good ac0)))])%list,
       Selecting)
    /\ authConfig ac0 = authConfig ac
    /\ sleeps trace = repeat manager.reauthRetryInterval (length failing).
Proof.
  intros Hall Hgood. unfold manager.renew. cbn [manager.renew_loop].
  match goal with
  | |- context [manager.reauth_loop 1 _ ac ?t] =>
      destruct (reauth_loop_run failing good rest 1 ac t Hall Hgood)
        as (ac0 & trace0 & Hrun & Hcfg & Hs);
        rewrite Hrun
  end.
  eexists ac0, _. split; [reflexivity |]. split; [exact Hcfg |].
  rewrite sleeps_app, Hs. cbn. rewrite app_nil_r. now destruct err.
Qed.

(** X29.  [renew] of [client.go] never sleeps, whatever the renewer reports
    and whatever the Vault answers. *)
Theorem hashicorp_renew_no_backoff (ac : authenticatedClient) (events : list renewal)
    (worlds : list world) :
  sleeps (snd (fst (hashicorp.renew ac events worlds))) = [].
Proof. unfold hashicorp.renew. now rewrite hashicorp_renew_never_sleeps. Qed.

Lemma vault_down_refused : refused (authConfig example_session) vault_down.
Proof.
  intros ac Hcfg. unfold manager.reauthenticate. rewrite Hcfg. vm_compute. discriminate.
Defined.

Lemma vault_up_accepted : accepted (authConfig example_session) vault_up.
Proof.
  intros ac Hcfg. unfold manager.reauthenticate. rewrite Hcfg. vm_compute. reflexivity.
Defined.

Lemma manager_renew_while_refused_witness :
  exists ac' trace,
    manager.renew example_session [DoneCh None; RenewCh] [vault_down; vault_down]
    = (ac', trace, Reauthenticating)
    /\ authConfig ac' = authConfig example_session
    /\ sleeps trace = repeat manager.reauthRetryInterval 2.
Proof.
  apply (manager_renew_while_refused example_session None [RenewCh]
           [vault_down; vault_down]).
  repeat constructor; exact vault_down_refused.
Defined.

Lemma manager_renew_until_accepted_witness :
  exists ac0 trace,
    manager.renew example_session [DoneCh None] ([vault_down] ++ vault_up :: [])
    = (fst (manager.reauthenticate vault_up ac0),
       (trace ++ [GoRenew (renewer (fst (manager.reauthenticate vault_up ac0)))])%list,
       Selecting)
    /\ authConfig ac0 = authConfig example_session
    /\ sleeps trace = repeat manager.reauthRetryInterval 1.
Proof.
  apply (manager_renew_until_accepted example_session None [vault_down] vault_up []).
  - repeat constructor; exact vault_down_refused.
  - exact vault_up_accepted.
Defined.

End renewal_more.
